(** * JSON tokenization and formatting with Postman variables

    A shallow embedding of [src/language/json/tokenization.ts] (the
    line-oriented tokenizer with its [{{variable}}] sub-scanner), of the
    formatter ([format], [formatJSON], [getEOL], ...), of the worker's
    path utilities and of the document it gives to validation
    ([normalizePath], [_getModifiedTextDocument]) and of the instance
    settings of the language service defaults, together with the
    properties of the specification they satisfy or violate.

    JavaScript strings are lists of characters.  JavaScript numbers that
    are used as offsets are integers ([Z]) and their sums are exact, as
    the sums of the source are while they stay safe integers (at most
    [MAX_SAFE_INTEGER], 2^53 - 1, in absolute value); the theorems that
    say that [tokenize] returns bound the offsets they are given.  Objects
    with identity ([JSONState], [ParentsStack]) live in an explicit heap,
    which also holds the global variable that [findClosestDelimiter]
    assigns. *)

From Stdlib Require Import ZArith Ascii String List Lia Bool.
From stdpp Require Import base list strings gmap.
Import ListNotations.

Local Open Scope Z_scope.
Local Open Scope list_scope.

(* ===================================================================== *)
(** * JavaScript strings *)
(* ===================================================================== *)

Module JS.

(** A JavaScript string, as the sequence of its characters. *)
Definition JSString := list ascii.

Definition lit (s : string) : JSString := list_ascii_of_string s.

Definition LF : ascii := "010"%char.
Definition DQ : ascii := "034"%char.
Definition CR : ascii := "013"%char.
Definition TAB : ascii := "009"%char.

(** A text written with an apostrophe wherever it has a double quote:
    [json "{'a': 1}"] is the text [{"a": 1}]. *)
Definition json (s : string) : JSString :=
  map (fun c => if Ascii.eqb c "'" then DQ else c) (lit s).

Definition len (s : JSString) : Z := Z.of_nat (length s).

(** [s.charCodeAt(i)]: [None] stands for [NaN] (index out of range). *)
Definition charCodeAt (s : JSString) (i : Z) : option ascii :=
  if i <? 0 then None else s !! Z.to_nat i.

(** [s.charAt(i)] and [s[i]]: the one-character string, or the empty
    string ([undefined] for [s[i]]) out of range. *)
Definition charAt (s : JSString) (i : Z) : JSString :=
  match charCodeAt s i with Some c => [c] | None => [] end.

Definition clamp (n i : Z) : Z := Z.max 0 (Z.min i n).

(** [s.substring(a, b)]: both ends clamped to [0, length], swapped when
    [a > b]. *)
Definition substring (s : JSString) (a b : Z) : JSString :=
  let a' := clamp (len s) a in
  let b' := clamp (len s) b in
  let lo := Z.min a' b' in
  let hi := Z.max a' b' in
  take (Z.to_nat (hi - lo)) (drop (Z.to_nat lo) s).

(** [s.substring(a)] *)
Definition substringFrom (s : JSString) (a : Z) : JSString :=
  substring s a (len s).

(** [s.substr(start, length)]: a negative [start] counts from the end. *)
Definition substr (s : JSString) (start length : Z) : JSString :=
  let st := if start <? 0 then Z.max (len s + start) 0 else Z.min start (len s) in
  let n := Z.max 0 (Z.min length (len s - st)) in
  take (Z.to_nat n) (drop (Z.to_nat st) s).

(** [s.substr(start)] *)
Definition substrFrom (s : JSString) (start : Z) : JSString :=
  substr s start (len s).

Fixpoint startsWith (s needle : JSString) {struct needle} : bool :=
  match needle, s with
  | [], _ => true
  | _ :: _, [] => false
  | n :: needle', c :: s' => Ascii.eqb n c && startsWith s' needle'
  end.

Fixpoint indexOf_from (s needle : JSString) (i : Z) : Z :=
  if startsWith s needle then i
  else match s with
       | [] => -1
       | _ :: s' => indexOf_from s' needle (i + 1)
       end.

(** [s.indexOf(needle)]: the first index at which [needle] occurs, or -1. *)
Definition indexOf (s needle : JSString) : Z := indexOf_from s needle 0.

Definition eqb (a b : JSString) : bool := bool_decide (a = b).

(** [repeat(s, count)] of the formatter: [count] copies of [s], none when
    [count <= 0]. *)
Definition repeat (s : JSString) (count : Z) : JSString :=
  concat (replicate (Z.to_nat count) s).

End JS.

Import JS.

(* ===================================================================== *)
(** * The grammar scanner *)
(* ===================================================================== *)

Module SyntaxKind.
Inductive t :=
| OpenBraceToken | CloseBraceToken | OpenBracketToken | CloseBracketToken
| CommaToken | ColonToken | NullKeyword | TrueKeyword | FalseKeyword
| StringLiteral | NumericLiteral | LineCommentTrivia | BlockCommentTrivia
| LineBreakTrivia | Trivia | Unknown | EOF.

#[global] Instance eq_dec : EqDecision t.
Proof. solve_decision. Defined.
End SyntaxKind.

Module ScanError.
Inductive t :=
| None | UnexpectedEndOfComment | UnexpectedEndOfString
| UnexpectedEndOfNumber | InvalidUnicode | InvalidEscapeCharacter
| InvalidCharacter.

#[global] Instance eq_dec : EqDecision t.
Proof. solve_decision. Defined.
End ScanError.

(** Modelled from the spec: the external grammar scanner (section 6:
    [createScanner(text, ignoreTrivia)] with [scan], [getPosition],
    [getTokenOffset], [getTokenLength], [getTokenError], [setPosition]),
    which belongs to the jsonc-parser library and is not part of the
    sources.  The model follows that library's scanner with trivia kept
    (both callers pass [ignoreTrivia = false]); characters are 8-bit. *)
Module Scanner.

Record t := mk {
  text : JSString;
  pos : Z;
  tokenOffset : Z;
  token : SyntaxKind.t;
  scanError : ScanError.t
}.

Definition chr (c : ascii) (code : option ascii) : bool :=
  match code with Some a => Ascii.eqb a c | Datatypes.None => false end.

Definition isWhiteSpace (code : option ascii) : bool :=
  chr " " code || chr TAB code || chr "011" code || chr "012" code || chr "160" code.

Definition isLineBreak (code : option ascii) : bool :=
  chr LF code || chr CR code.

Definition isDigit (code : option ascii) : bool :=
  match code with
  | Some a => (48 <=? Z.of_N (N_of_ascii a)) && (Z.of_N (N_of_ascii a) <=? 57)
  | Datatypes.None => false
  end.

Definition isHexDigit (code : option ascii) : bool :=
  match code with
  | Some a =>
      let n := Z.of_N (N_of_ascii a) in
      ((48 <=? n) && (n <=? 57)) || ((65 <=? n) && (n <=? 70))
      || ((97 <=? n) && (n <=? 102))
  | Datatypes.None => false
  end.

Definition isControl (code : option ascii) : bool :=
  match code with
  | Some a => Z.of_N (N_of_ascii a) <=? 31
  | Datatypes.None => false
  end.

Definition isUnknownContentCharacter (code : option ascii) : bool :=
  if isWhiteSpace code || isLineBreak code then false
  else negb (chr "}" code || chr "]" code || chr "{" code || chr "[" code
             || chr DQ code || chr ":" code || chr "," code || chr "/" code).

Definition createScanner (txt : JSString) : t :=
  mk txt 0 0 SyntaxKind.Unknown ScanError.None.

Definition setPosition (sc : t) (newPosition : Z) : t :=
  mk (text sc) newPosition 0 SyntaxKind.Unknown ScanError.None.

Definition getPosition (sc : t) : Z := pos sc.
Definition getTokenOffset (sc : t) : Z := tokenOffset sc.
Definition getTokenLength (sc : t) : Z := pos sc - tokenOffset sc.
Definition getTokenError (sc : t) : ScanError.t := scanError sc.

(** [while (p < limit && test(text.charCodeAt(p))) p++] *)
Fixpoint skipWhile (test : option ascii -> bool) (txt : JSString)
    (limit : Z) (fuel : nat) (p : Z) : Z :=
  match fuel with
  | O => p
  | S fuel' =>
      if (p <? limit) && test (charCodeAt txt p)
      then skipWhile test txt limit fuel' (p + 1)
      else p
  end.

Definition fuelFrom (txt : JSString) (p : Z) : nat :=
  S (Z.to_nat (len txt - p)).

(** [scanHexDigits(4, true)]: the position after the digits read, and
    whether all four were there. *)
Fixpoint scanHexDigits (txt : JSString) (count : nat) (p : Z) : Z * bool :=
  match count with
  | O => (p, true)
  | S count' =>
      if isHexDigit (charCodeAt txt p)
      then scanHexDigits txt count' (p + 1)
      else (p, false)
  end.

Definition isSimpleEscape (code : option ascii) : bool :=
  chr DQ code || chr "\" code || chr "/" code || chr "b" code || chr "f" code
  || chr "n" code || chr "r" code || chr "t" code.

(** [scanString()], entered after the opening quote. *)
Fixpoint scanString (txt : JSString) (fuel : nat) (p : Z)
    (err : ScanError.t) : Z * ScanError.t :=
  match fuel with
  | O => (p, err)
  | S fuel' =>
      if p >=? len txt then (p, ScanError.UnexpectedEndOfString)
      else
        let ch := charCodeAt txt p in
        if chr DQ ch then (p + 1, err)
        else if chr "\" ch then
          let p1 := p + 1 in
          if p1 >=? len txt then (p1, ScanError.UnexpectedEndOfString)
          else
            let ch2 := charCodeAt txt p1 in
            let p2 := p1 + 1 in
            if isSimpleEscape ch2 then scanString txt fuel' p2 err
            else if chr "u" ch2 then
              let '(p3, ok) := scanHexDigits txt 4 p2 in
              scanString txt fuel' p3
                (if ok then err else ScanError.InvalidUnicode)
            else scanString txt fuel' p2 ScanError.InvalidEscapeCharacter
        else if isControl ch then
          if isLineBreak ch then (p, ScanError.UnexpectedEndOfString)
          else scanString txt fuel' (p + 1) ScanError.InvalidCharacter
        else scanString txt fuel' (p + 1) err
  end.

Definition skipDigits (txt : JSString) (p : Z) : Z :=
  skipWhile isDigit txt (len txt) (fuelFrom txt p) p.

(** [scanNumber()], entered at the first digit. *)
Definition scanNumber (txt : JSString) (p : Z) : Z * ScanError.t :=
  let p1 :=
    if chr "0" (charCodeAt txt p) then p + 1 else skipDigits txt (p + 1) in
  let frac :=
    if (p1 <? len txt) && chr "." (charCodeAt txt p1) then
      let p2 := p1 + 1 in
      if (p2 <? len txt) && isDigit (charCodeAt txt p2)
      then inl (skipDigits txt (p2 + 1))
      else inr p2
    else inl p1 in
  match frac with
  | inr p2 => (p2, ScanError.UnexpectedEndOfNumber)
  | inl p3 =>
      if (p3 <? len txt)
         && (chr "E" (charCodeAt txt p3) || chr "e" (charCodeAt txt p3))
      then
        let p4 := p3 + 1 in
        let p5 :=
          if ((p4 <? len txt) && chr "+" (charCodeAt txt p4))
             || chr "-" (charCodeAt txt p4)
          then p4 + 1 else p4 in
        if (p5 <? len txt) && isDigit (charCodeAt txt p5)
        then (skipDigits txt (p5 + 1), ScanError.None)
        else (p5, ScanError.UnexpectedEndOfNumber)
      else (p3, ScanError.None)
  end.

(** The body of a block comment, entered after the opening pair: the
    position reached and whether the comment was closed. *)
Fixpoint scanBlockComment (txt : JSString) (fuel : nat) (p : Z) : Z * bool :=
  match fuel with
  | O => (p, false)
  | S fuel' =>
      if p <? len txt - 1 then
        let ch := charCodeAt txt p in
        if chr "*" ch && chr "/" (charCodeAt txt (p + 1)) then (p + 2, true)
        else
          let p1 := p + 1 in
          let p2 :=
            if isLineBreak ch && chr CR ch && chr LF (charCodeAt txt p1)
            then p1 + 1 else p1 in
          scanBlockComment txt fuel' p2
      else (p, false)
  end.

Definition keywordOf (word : JSString) : SyntaxKind.t :=
  if JS.eqb word (lit "true") then SyntaxKind.TrueKeyword
  else if JS.eqb word (lit "false") then SyntaxKind.FalseKeyword
  else if JS.eqb word (lit "null") then SyntaxKind.NullKeyword
  else SyntaxKind.Unknown.

(** [scan()] with trivia kept. *)
Definition scan (sc : t) : t :=
  let txt := text sc in
  let p := pos sc in
  let ret p' k e := mk txt p' p k e in
  if p >=? len txt then mk txt p (len txt) SyntaxKind.EOF ScanError.None
  else
    let code := charCodeAt txt p in
    if isWhiteSpace code then
      ret (skipWhile isWhiteSpace txt (len txt + 1) (fuelFrom txt p) (p + 1))
          SyntaxKind.Trivia ScanError.None
    else if isLineBreak code then
      ret (if chr CR code && chr LF (charCodeAt txt (p + 1)) then p + 2 else p + 1)
          SyntaxKind.LineBreakTrivia ScanError.None
    else if chr "{" code then ret (p + 1) SyntaxKind.OpenBraceToken ScanError.None
    else if chr "}" code then ret (p + 1) SyntaxKind.CloseBraceToken ScanError.None
    else if chr "[" code then ret (p + 1) SyntaxKind.OpenBracketToken ScanError.None
    else if chr "]" code then ret (p + 1) SyntaxKind.CloseBracketToken ScanError.None
    else if chr ":" code then ret (p + 1) SyntaxKind.ColonToken ScanError.None
    else if chr "," code then ret (p + 1) SyntaxKind.CommaToken ScanError.None
    else if chr DQ code then
      let '(p', e) := scanString txt (fuelFrom txt p) (p + 1) ScanError.None in
      ret p' SyntaxKind.StringLiteral e
    else if chr "/" code then
      if chr "/" (charCodeAt txt (p + 1)) then
        ret (skipWhile (fun c => negb (isLineBreak c)) txt (len txt)
               (fuelFrom txt p) (p + 2))
            SyntaxKind.LineCommentTrivia ScanError.None
      else if chr "*" (charCodeAt txt (p + 1)) then
        let '(p', closed) := scanBlockComment txt (fuelFrom txt p) (p + 2) in
        if closed then ret p' SyntaxKind.BlockCommentTrivia ScanError.None
        else ret (p' + 1) SyntaxKind.BlockCommentTrivia
                 ScanError.UnexpectedEndOfComment
      else ret (p + 1) SyntaxKind.Unknown ScanError.None
    else if chr "-" code
            && ((p + 1 =? len txt) || negb (isDigit (charCodeAt txt (p + 1))))
    then ret (p + 1) SyntaxKind.Unknown ScanError.None
    else if chr "-" code then
      let '(p', e) := scanNumber txt (p + 1) in
      ret p' SyntaxKind.NumericLiteral e
    else if isDigit code then
      let '(p', e) := scanNumber txt p in
      ret p' SyntaxKind.NumericLiteral e
    else
      let p' := skipWhile isUnknownContentCharacter txt (len txt)
                  (fuelFrom txt p) p in
      if p' =? p then ret (p + 1) SyntaxKind.Unknown ScanError.None
      else ret p' (keywordOf (substring txt p p')) ScanError.None.

End Scanner.

(* ===================================================================== *)
(** * Tokenizer: scopes, parent stack and line state *)
(* ===================================================================== *)

Definition TOKEN_DELIM_OBJECT : string := "delimiter.bracket.json".
Definition TOKEN_DELIM_ARRAY : string := "delimiter.array.json".
Definition TOKEN_DELIM_COLON : string := "delimiter.colon.json".
Definition TOKEN_DELIM_COMMA : string := "delimiter.comma.json".
Definition TOKEN_VALUE_BOOLEAN : string := "keyword.json".
Definition TOKEN_VALUE_NULL : string := "keyword.json".
Definition TOKEN_VALUE_STRING : string := "string.value.json".
Definition TOKEN_VALUE_NUMBER : string := "number.json".
Definition TOKEN_PROPERTY_NAME : string := "string.key.json".
Definition TOKEN_COMMENT_BLOCK : string := "comment.block.json".
Definition TOKEN_COMMENT_LINE : string := "comment.line.json".
Definition TOKEN_POSTMAN_VARIABLE : string := "postman.variable.json".
Definition TOKEN_POSTMAN_VARIABLE_IN_STRING : string := "postman.variable.string.json".

Module JSONParent.
Inductive t := Object | Array.

#[global] Instance eq_dec : EqDecision t.
Proof. solve_decision. Defined.
End JSONParent.

(** Object references: the index of the object in its heap. *)
Definition loc := nat.

(** The embedded state that [JSONState] carries along; opaque here. *)
Definition IState := nat.

(** [class ParentsStack]: one frame, with a reference to its parent. *)
Record ParentsStack := {
  parent : option loc;
  type : JSONParent.t
}.

(** [class JSONState] *)
Record JSONState := {
  _state : option IState;
  scanError : option ScanError.t;
  lastWasColon : bool;
  parents : option loc
}.

(** The heap: every [ParentsStack] and [JSONState] object created so far,
    in creation order ([new] appends; a reference is an index), and the
    one global variable that the tokenizer touches: [length], which
    [findClosestDelimiter] assigns without declaring it.  [global_length]
    is [None] when the global object has no property of that name (a web
    worker, Node) and its value otherwise (in a browser page it is
    [window.length], the number of frames of the page, which can be
    assigned). *)
Record Heap := {
  frames : list ParentsStack;
  states : list JSONState;
  global_length : option Z
}.

(** No object yet, in a realm without a global [length]. *)
Definition emptyHeap : Heap :=
  {| frames := []; states := []; global_length := None |}.

(** No object yet, in a browser page that has no frames. *)
Definition pageHeap : Heap :=
  {| frames := []; states := []; global_length := Some 0 |}.

(** The assignment [length = v] to the global variable, where it exists. *)
Definition assign_length (h : Heap) (v : Z) : Heap :=
  {| frames := frames h; states := states h; global_length := Some v |}.

Definition new_ParentsStack (h : Heap) (p : option loc) (ty : JSONParent.t)
    : Heap * loc :=
  ({| frames := frames h ++ [{| parent := p; type := ty |}];
      states := states h;
      global_length := global_length h |},
   length (frames h)).

Definition new_JSONState (h : Heap) (st : option IState)
    (err : option ScanError.t) (lwc : bool) (ps : option loc) : Heap * loc :=
  ({| frames := frames h;
      states := states h ++ [{| _state := st; scanError := err;
                                lastWasColon := lwc; parents := ps |}];
      global_length := global_length h |},
   length (states h)).

(** Field reads.  A reference that was never allocated reads as [null]
    fields; well-formed heaps have none. *)
Definition frame_parent (h : Heap) (a : loc) : option loc :=
  match frames h !! a with Some f => parent f | None => None end.

Definition frame_type (h : Heap) (a : loc) : JSONParent.t :=
  match frames h !! a with Some f => type f | None => JSONParent.Object end.

Definition state_at (h : Heap) (a : loc) : JSONState :=
  match states h !! a with
  | Some s => s
  | None => {| _state := None; scanError := None; lastWasColon := false;
               parents := None |}
  end.

Module ParentsStackOps.

(** [ParentsStack.pop] *)
Definition pop (h : Heap) (ps : option loc) : option loc :=
  match ps with
  | Some a => frame_parent h a
  | None => None
  end.

(** [ParentsStack.push] *)
Definition push (h : Heap) (ps : option loc) (ty : JSONParent.t)
    : Heap * option loc :=
  let '(h', a) := new_ParentsStack h ps ty in (h', Some a).

(** The [while (a && b)] loop of [ParentsStack.equals]; [None] when the
    fuel runs out (a cyclic chain, which [push] cannot build). *)
Fixpoint equals_loop (fuel : nat) (h : Heap) (a b : option loc)
    : option bool :=
  match a, b with
  | Some la, Some lb =>
      if bool_decide (la = lb) then Some true
      else if negb (bool_decide (frame_type h la = frame_type h lb))
      then Some false
      else match fuel with
           | O => None
           | S fuel' => equals_loop fuel' h (frame_parent h la) (frame_parent h lb)
           end
  | _, _ => Some true
  end.

(** [ParentsStack.equals] *)
Definition equals (h : Heap) (a b : option loc) : option bool :=
  match a, b with
  | None, None => Some true
  | None, Some _ | Some _, None => Some false
  | Some _, Some _ => equals_loop (length (frames h)) h a b
  end.

End ParentsStackOps.

Module JSONStateOps.

(** [getInitialState: () => new JSONState(null, null, false, null)] *)
Definition getInitialState (h : Heap) : Heap * loc :=
  new_JSONState h None None false None.

(** [clone()] *)
Definition clone (h : Heap) (this : loc) : Heap * loc :=
  let s := state_at h this in
  new_JSONState h (_state s) (scanError s) (lastWasColon s) (parents s).

(** [equals(other)], for [other] a [JSONState] instance. *)
Definition equals (h : Heap) (this other : loc) : option bool :=
  if bool_decide (other = this) then Some true
  else
    let s := state_at h this in
    let o := state_at h other in
    if bool_decide (scanError s = scanError o)
       && bool_decide (lastWasColon s = lastWasColon o)
    then ParentsStackOps.equals h (parents s) (parents o)
    else Some false.

(** [getStateData()] *)
Definition getStateData (h : Heap) (this : loc) : option IState :=
  _state (state_at h this).

(** [setStateData(state)]: the one method that writes to an existing
    object. *)
Definition setStateData (h : Heap) (this : loc) (st : IState) : Heap :=
  let s := state_at h this in
  {| frames := frames h;
     states := <[this := {| _state := Some st; scanError := scanError s;
                            lastWasColon := lastWasColon s;
                            parents := parents s |}]> (states h);
     global_length := global_length h |}.

End JSONStateOps.

(* ===================================================================== *)
(** * Tokenizer: the Postman variable sub-scanner *)
(* ===================================================================== *)

(** A token of [ILineTokens]; the tokens made by the sub-scanner also carry
    an [endIndex] (inclusive), the others have none. *)
Record IToken := {
  startIndex : Z;
  scopes : string;
  endIndex : option Z
}.

#[global] Instance IToken_eq_dec : EqDecision IToken.
Proof. solve_decision. Defined.

(** An entry of the sub-scanner's [stack] and [matchedBrackets]:
    [{ startIndex, scopes, endIndex }] with a numeric [endIndex]. *)
Record Bracket := {
  b_start : Z;
  b_scopes : string;
  b_end : Z
}.

Definition token_of_bracket (b : Bracket) : IToken :=
  {| startIndex := b_start b; scopes := b_scopes b; endIndex := Some (b_end b) |}.

(** The inner [while (stack.length >= 0)] loop, after the first [pop]:
    pops entries until one starts right before the entry popped last.
    The stack is kept with its top first. *)
Fixpoint popAdjacent (currentPopped : Bracket) (stack : list Bracket)
    : list Bracket * option Bracket :=
  match stack with
  | [] => ([], None)
  | nextPopped :: rest =>
      if b_start currentPopped =? b_start nextPopped + 1
      then (rest, Some nextPopped)
      else popAdjacent nextPopped rest
  end.

Definition popMatching (stack : list Bracket) : list Bracket * option Bracket :=
  match stack with
  | [] => ([], None)
  | currentPopped :: rest => popAdjacent currentPopped rest
  end.

Definition isChar (c : ascii) (s : JSString) : bool := JS.eqb s [c].

(** The first loop of [createPostmanVariableScanner]: the matched brackets
    in the order they are found. *)
Fixpoint matchBrackets (stringLiteral : JSString) (offset : Z)
    (inString : bool) (fuel : nat) (pos : Z)
    (stack matchedBrackets : list Bracket) : list Bracket :=
  match fuel with
  | O => matchedBrackets
  | S fuel' =>
      if pos <? len stringLiteral then
        let current := charAt stringLiteral pos in
        if isChar "{" current then
          matchBrackets stringLiteral offset inString fuel' (pos + 1)
            ({| b_start := offset + pos; b_scopes := EmptyString; b_end := 0 |} :: stack)
            matchedBrackets
        else if isChar "}" current && (pos + 1 <? len stringLiteral)
                && isChar "}" (charAt stringLiteral (pos + 1)) then
          match popMatching stack with
          | (stack', Some toBeInsertedPopped) =>
              matchBrackets stringLiteral offset inString fuel' (pos + 2) stack'
                (matchedBrackets ++
                 [{| b_start := b_start toBeInsertedPopped;
                     b_scopes := if inString then TOKEN_POSTMAN_VARIABLE_IN_STRING
                                 else TOKEN_POSTMAN_VARIABLE;
                     b_end := offset + pos + 1 |}])
          | (stack', None) =>
              matchBrackets stringLiteral offset inString fuel' (pos + 1) stack'
                matchedBrackets
          end
        else
          matchBrackets stringLiteral offset inString fuel' (pos + 1) stack
            matchedBrackets
      else matchedBrackets
  end.

(** [matchedBrackets.sort((a, b) => a.startIndex - b.startIndex)]: a stable
    sort on the start index. *)
Fixpoint insertSorted (b : Bracket) (l : list Bracket) : list Bracket :=
  match l with
  | [] => [b]
  | x :: l' =>
      if b_start b <? b_start x then b :: x :: l' else x :: insertSorted b l'
  end.

Definition sortByStart (l : list Bracket) : list Bracket :=
  fold_left (fun acc b => insertSorted b acc) l [].

(** The loop that removes nested brackets. *)
Fixpoint filterNested (l : list Bracket) (endIndexOfLastFilteredBracket : Z)
    : list Bracket :=
  match l with
  | [] => []
  | b :: l' =>
      if b_start b >? endIndexOfLastFilteredBracket
      then b :: filterNested l' (b_end b)
      else filterNested l' endIndexOfLastFilteredBracket
  end.

Definition fillerScope (inValue : bool) : string :=
  if inValue then TOKEN_VALUE_STRING else TOKEN_PROPERTY_NAME.

(** The loop over [filteredBrackets] that pushes the variables and, inside
    a string, the text between two variables; it returns the tokens and
    [endIndexLastTokenCreated]. *)
Fixpoint pushBrackets (inValue inString : bool) (l : list Bracket)
    (endIndexLastTokenCreated : Z) (scannedResults : list IToken)
    : list IToken * Z :=
  match l with
  | [] => (scannedResults, endIndexLastTokenCreated)
  | current :: l' =>
      let '(res1, end1) :=
        if endIndexLastTokenCreated <? b_start current
        then (scannedResults ++ [token_of_bracket current], b_end current)
        else (scannedResults, endIndexLastTokenCreated) in
      match l' with
      | [] => pushBrackets inValue inString l' end1 res1
      | next :: _ =>
          if b_start next =? b_end current + 1
          then pushBrackets inValue inString l' end1 res1
          else
            pushBrackets inValue inString l' (b_start next - 1)
              (if inString
               then res1 ++ [{| startIndex := b_end current + 1;
                                scopes := fillerScope inValue;
                                endIndex := Some (b_start next - 1) |}]
               else res1)
      end
  end.

(** [createPostmanVariableScanner(stringLiteral, offset, inValue, inString)].
    [None] is the [TypeError] of reading [filteredBrackets[0].startIndex]
    when no bracket survived the filter. *)
Definition createPostmanVariableScanner (stringLiteral : JSString)
    (offset : Z) (inValue inString : bool) : option (list IToken) :=
  let matchedBrackets :=
    matchBrackets stringLiteral offset inString (length stringLiteral) 0 [] [] in
  match matchedBrackets with
  | [] => Some []
  | _ :: _ =>
      let filteredBrackets := filterNested (sortByStart matchedBrackets) (-1) in
      let leading :=
        if inString then
          match filteredBrackets with
          | [] => None
          | first :: _ =>
              if negb (b_start first =? offset)
              then Some ([{| startIndex := offset;
                             scopes := fillerScope inValue;
                             endIndex := Some (b_start first - 1) |}],
                         b_start first - 1)
              else Some ([], -1)
          end
        else Some ([], -1) in
      match leading with
      | None => None
      | Some (res0, end0) =>
          let '(res1, end1) :=
            pushBrackets inValue inString filteredBrackets end0 res0 in
          if (end1 <? offset + len stringLiteral) && inString
          then Some (res1 ++ [{| startIndex := end1 + 1;
                                 scopes := fillerScope inValue;
                                 endIndex := None |}])
          else Some res1
      end
  end.

(** The loop of [findClosestDelimiter]: it keeps the least index found so
    far, [None] standing for [Infinity]. *)
Fixpoint leastIndexOf (stringLiteral : JSString) (delimiter : list JSString)
    (leastIndex : option Z) : option Z :=
  match delimiter with
  | [] => leastIndex
  | d :: delimiter' =>
      let index := indexOf stringLiteral d in
      let greater :=
        match leastIndex with Some l => l >? index | None => true end in
      leastIndexOf stringLiteral delimiter'
        (if greater && (index >? -1) then Some index else leastIndex)
  end.

(** What the tokenizer can throw: its own [Error] when the scanner stands
    still, the [ReferenceError] of the assignment to [length] in
    [findClosestDelimiter], the [TypeError] of
    [createPostmanVariableScanner], and, as a fourth case of the model, a
    scanner position that would be [NaN] (the last token of the
    sub-scanner without an [endIndex]).  The last two do not occur on the
    double-brace path ([caseOpenBrace_outcome]). *)
Inductive Error :=
| ScannerDidNotAdvance (next3 : JSString)
| ReferenceError
| TypeError
| PositionNotANumber.

(** [findClosestDelimiter(stringLiteral, delimiter)].  Its first statement
    is [length = delimiter.length], and the function declares no variable
    [length]; the module is strict code, so the assignment throws a
    [ReferenceError] unless the global object has a property of that
    name, and where it has one the assignment overwrites it.  The test
    [length === 0] and the bound of the loop read the value back. *)
Definition findClosestDelimiter (h : Heap) (stringLiteral : JSString)
    (delimiter : list JSString) : Error + Heap * Z :=
  match global_length h with
  | None => inl ReferenceError
  | Some _ =>
      let h' := assign_length h (Z.of_nat (length delimiter)) in
      match global_length h' with
      | Some 0 | None => inr (h', -1)
      | Some length =>
          match leastIndexOf stringLiteral (take (Z.to_nat length) delimiter)
                  None with
          | Some l => inr (h', l)
          | None => inr (h', -1)
          end
      end
  end.

(* ===================================================================== *)
(** * Tokenizer: [tokenize] *)
(* ===================================================================== *)

(** [languages.ILineTokens] *)
Record ILineTokens := {
  tokens : list IToken;
  endState : loc
}.

(** What a call does: it returns, throws, or (in the model only) runs out
    of fuel.  The heap it leaves behind comes along in every case. *)
Inductive Outcome (A : Type) :=
| Return (h : Heap) (a : A)
| Throw (h : Heap) (e : Error)
| OutOfFuel (h : Heap).
Arguments Return {A} h a.
Arguments Throw {A} h e.
Arguments OutOfFuel {A} h.

Definition isPostman (languageId : option string) : bool :=
  bool_decide (languageId = Some "postman_json"%string).

(** The local variables of [tokenize] that live across loop iterations. *)
Record Vars := {
  scanner : Scanner.t;
  v_lastWasColon : bool;
  v_parents : option loc;
  openBracesCount : Z;
  adjustOffset : bool;
  ret : ILineTokens
}.

(** What the [switch (kind)] leaves behind for the rest of the iteration. *)
Record Switched := {
  sw_heap : Heap;
  sw_scanner : Scanner.t;
  sw_parents : option loc;
  sw_lastWasColon : bool;
  sw_type : string;
  sw_skip : bool;
  sw_tokens : list IToken;
  sw_postmanVariablesInString : list IToken
}.

Definition delimiters : list JSString := [[","%char]; [":"%char]; ["]"%char]; [LF]].

(** [line.substr(scanner.getPosition() - 2) + '\n'] *)
Definition stringFromDoubleBraces (line : JSString) (position : Z) : JSString :=
  substrFrom line (position - 2) ++ [LF].

(** [delimiterIndex] of the double-brace path. *)
Definition delimiterIndex (h : Heap) (line : JSString) (position : Z)
    : Error + Heap * Z :=
  findClosestDelimiter h (stringFromDoubleBraces line position) delimiters.

(** The [case SyntaxKind.OpenBraceToken] of the switch. *)
Definition caseOpenBrace (line : JSString) (languageId : option string)
    (h : Heap) (sc : Scanner.t) (parents0 : option loc) (lastWasColon0 : bool)
    (count offset : Z) (toks : list IToken) : Error + Switched :=
  let '(h1, parents1) := ParentsStackOps.push h parents0 JSONParent.Object in
  let plain h' ty sc' ps skip toks' :=
    inr {| sw_heap := h'; sw_scanner := sc'; sw_parents := ps;
           sw_lastWasColon := false; sw_type := ty; sw_skip := skip;
           sw_tokens := toks'; sw_postmanVariablesInString := [] |} in
  if (count =? 2) && isPostman languageId then
    match delimiterIndex h1 line (Scanner.getPosition sc) with
    | inl e => inl e
    | inr (h2, index) =>
        if index >=? 0 then
          let delimitedString :=
            substring (stringFromDoubleBraces line (Scanner.getPosition sc)) 0
              index in
          match createPostmanVariableScanner delimitedString (offset - 1)
                  lastWasColon0 false with
          | None => inl TypeError
          | Some [] => plain h2 EmptyString sc parents1 false toks
          | Some (t :: ts) =>
              match endIndex (List.last ts t) with
              | Some e =>
                  plain h2 EmptyString (Scanner.setPosition sc (e + 1))
                    (ParentsStackOps.pop h2 (ParentsStackOps.pop h2 parents1))
                    true (removelast toks ++ (t :: ts))
              | None => inl PositionNotANumber
              end
          end
        else plain h2 TOKEN_DELIM_OBJECT sc parents1 false toks
    end
  else plain h1 TOKEN_DELIM_OBJECT sc parents1 false toks.

(** The [case SyntaxKind.StringLiteral] of the switch. *)
Definition caseStringLiteral (line : JSString) (languageId : option string)
    (h : Heap) (sc : Scanner.t) (parents0 : option loc) (lastWasColon0 : bool)
    (offset : Z) (toks : list IToken) : Error + Switched :=
  let currentParent :=
    match parents0 with
    | Some a => frame_type h a
    | None => JSONParent.Object
    end in
  let inArray := bool_decide (currentParent = JSONParent.Array) in
  let inValue := lastWasColon0 || inArray in
  let ty := if inValue || inArray then TOKEN_VALUE_STRING else TOKEN_PROPERTY_NAME in
  let done pv :=
    inr {| sw_heap := h; sw_scanner := sc; sw_parents := parents0;
           sw_lastWasColon := false; sw_type := ty; sw_skip := false;
           sw_tokens := toks; sw_postmanVariablesInString := pv |} in
  if isPostman languageId then
    let tokenValue :=
      substr line (Scanner.getTokenOffset sc + 1) (Scanner.getTokenLength sc - 2) in
    match createPostmanVariableScanner tokenValue (offset + 1) inValue true with
    | None => inl TypeError
    | Some pv => done pv
    end
  else done [].

(** The [switch (kind)] on brackets and types. *)
Definition switchKind (line : JSString) (languageId : option string)
    (h : Heap) (sc : Scanner.t) (parents0 : option loc) (lastWasColon0 : bool)
    (count offset : Z) (toks : list IToken) : Error + Switched :=
  let simple ps lwc ty :=
    inr {| sw_heap := h; sw_scanner := sc; sw_parents := ps;
           sw_lastWasColon := lwc; sw_type := ty; sw_skip := false;
           sw_tokens := toks; sw_postmanVariablesInString := [] |} in
  match Scanner.token sc with
  | SyntaxKind.OpenBraceToken =>
      caseOpenBrace line languageId h sc parents0 lastWasColon0 count offset toks
  | SyntaxKind.CloseBraceToken =>
      simple (ParentsStackOps.pop h parents0) false TOKEN_DELIM_OBJECT
  | SyntaxKind.OpenBracketToken =>
      let '(h1, parents1) := ParentsStackOps.push h parents0 JSONParent.Array in
      inr {| sw_heap := h1; sw_scanner := sc; sw_parents := parents1;
             sw_lastWasColon := false; sw_type := TOKEN_DELIM_ARRAY;
             sw_skip := false; sw_tokens := toks;
             sw_postmanVariablesInString := [] |}
  | SyntaxKind.CloseBracketToken =>
      simple (ParentsStackOps.pop h parents0) false TOKEN_DELIM_ARRAY
  | SyntaxKind.ColonToken => simple parents0 true TOKEN_DELIM_COLON
  | SyntaxKind.CommaToken => simple parents0 false TOKEN_DELIM_COMMA
  | SyntaxKind.TrueKeyword | SyntaxKind.FalseKeyword =>
      simple parents0 false TOKEN_VALUE_BOOLEAN
  | SyntaxKind.NullKeyword => simple parents0 false TOKEN_VALUE_NULL
  | SyntaxKind.StringLiteral =>
      caseStringLiteral line languageId h sc parents0 lastWasColon0 offset toks
  | SyntaxKind.NumericLiteral => simple parents0 false TOKEN_VALUE_NUMBER
  | _ => simple parents0 lastWasColon0 EmptyString
  end.

(** The second switch: comments, iff enabled. *)
Definition commentType (comments : bool) (kind : SyntaxKind.t) (ty : string)
    : string :=
  if comments then
    match kind with
    | SyntaxKind.LineCommentTrivia => TOKEN_COMMENT_LINE
    | SyntaxKind.BlockCommentTrivia => TOKEN_COMMENT_BLOCK
    | _ => ty
    end
  else ty.

Inductive Step :=
| Continue (h : Heap) (v : Vars)
| Break
| Threw (e : Error).

(** One iteration of the [while (true)] loop of [tokenize]; [line] is the
    line after the synthetic prefix was put in front of it.  The sums of
    offsets are those of the source as long as [offsetDelta] plus the
    length of the line is a safe integer ([safeOffsets]). *)
Definition tokenize_step (comments : bool) (line : JSString) (state : loc)
    (offsetDelta : Z) (languageId : option string)
    (numberOfInsertedCharacters : Z) (h : Heap) (v : Vars) : Step :=
  let offset0 := offsetDelta + Scanner.getPosition (scanner v) in
  let sc := Scanner.scan (scanner v) in
  let kind := Scanner.token sc in
  if bool_decide (kind = SyntaxKind.EOF) then Break
  else if offset0 =? offsetDelta + Scanner.getPosition sc then
    Threw (ScannerDidNotAdvance (substr line (Scanner.getPosition sc) 3))
  else
    let offset :=
      if adjustOffset v then offset0 - numberOfInsertedCharacters else offset0 in
    let count :=
      if bool_decide (kind = SyntaxKind.OpenBraceToken)
      then openBracesCount v + 1 else 0 in
    match switchKind line languageId h sc (v_parents v) (v_lastWasColon v)
            count offset (tokens (ret v)) with
    | inl e => Threw e
    | inr sw =>
        let ty := commentType comments kind (sw_type sw) in
        let '(h2, endState') :=
          new_JSONState (sw_heap sw)
            (JSONStateOps.getStateData (sw_heap sw) state)
            (Some (Scanner.getTokenError (sw_scanner sw)))
            (sw_lastWasColon sw) (sw_parents sw) in
        let toks1 :=
          if sw_skip sw then sw_tokens sw
          else sw_tokens sw ++
               [{| startIndex := offset; scopes := ty; endIndex := None |}] in
        Continue h2
          {| scanner := sw_scanner sw;
             v_lastWasColon := sw_lastWasColon sw;
             v_parents := sw_parents sw;
             openBracesCount := count;
             adjustOffset := numberOfInsertedCharacters >? 0;
             ret := {| tokens := toks1 ++ sw_postmanVariablesInString sw;
                       endState := endState' |} |}
    end.

Fixpoint tokenize_loop (fuel : nat) (comments : bool) (line : JSString)
    (state : loc) (offsetDelta : Z) (languageId : option string)
    (numberOfInsertedCharacters : Z) (h : Heap) (v : Vars)
    : Outcome ILineTokens :=
  match fuel with
  | O => OutOfFuel h
  | S fuel' =>
      match tokenize_step comments line state offsetDelta languageId
              numberOfInsertedCharacters h v with
      | Break => Return h (ret v)
      | Threw e => Throw h e
      | Continue h' v' =>
          tokenize_loop fuel' comments line state offsetDelta languageId
            numberOfInsertedCharacters h' v'
      end
  end.

(** The synthetic prefix for a string or block comment left open by the
    previous line, with the number of inserted characters. *)
Definition prefixLine (err : option ScanError.t) (line : JSString)
    : JSString * Z :=
  match err with
  | Some ScanError.UnexpectedEndOfString => (DQ :: line, 1)
  | Some ScanError.UnexpectedEndOfComment => ("/"%char :: "*"%char :: line, 2)
  | _ => (line, 0)
  end.

(** [tokenize(comments, line, state, offsetDelta, languageId)] *)
Definition tokenize (comments : bool) (line : JSString) (h : Heap)
    (state : loc) (offsetDelta : Z) (languageId : option string)
    : Outcome ILineTokens :=
  let '(line', numberOfInsertedCharacters) :=
    prefixLine (scanError (state_at h state)) line in
  let '(h1, cloned) := JSONStateOps.clone h state in
  tokenize_loop (S (length line')) comments line' state offsetDelta languageId
    numberOfInsertedCharacters h1
    {| scanner := Scanner.createScanner line';
       v_lastWasColon := lastWasColon (state_at h state);
       v_parents := parents (state_at h state);
       openBracesCount := 0;
       adjustOffset := false;
       ret := {| tokens := []; endState := cloned |} |}.

(* ===================================================================== *)
(** * Formatter *)
(* ===================================================================== *)

Module Edit.
(** [json.Edit] *)
Record t := mk {
  offset : Z;
  length : Z;
  content : JSString
}.
End Edit.

(** [json.Range] *)
Record Range := {
  r_offset : Z;
  r_length : Z
}.

(** [json.FormattingOptions]; [None] is an absent ([undefined]) member. *)
Record FormattingOptions := {
  tabSize : option Z;
  insertSpaces : option bool;
  eol : option JSString
}.

(** [isEOL(text, offset)]: ['\r\n'.indexOf(text.charAt(offset)) !== -1] *)
Definition isEOL (text : JSString) (offset : Z) : bool :=
  negb (indexOf [CR; LF] (charAt text offset) =? -1).

(** [options.tabSize || 4] *)
Definition tabSizeOr4 (options : FormattingOptions) : Z :=
  match tabSize options with
  | Some n => if n =? 0 then 4 else n
  | None => 4
  end.

(** The loop of [computeIndentLevel]: the columns of the leading blanks. *)
Fixpoint leadingColumns (content : JSString) (tabSize nChars : Z) : Z :=
  match content with
  | [] => nChars
  | ch :: content' =>
      if Ascii.eqb ch " " then leadingColumns content' tabSize (nChars + 1)
      else if Ascii.eqb ch TAB then leadingColumns content' tabSize (nChars + tabSize)
      else nChars
  end.

(** [computeIndentLevel(content, options)] *)
Definition computeIndentLevel (content : JSString) (options : FormattingOptions)
    : Z :=
  leadingColumns content (tabSizeOr4 options) 0 / tabSizeOr4 options.

(** The [for] loop of [getEOL]: the first line terminator of [text]. *)
Fixpoint firstEOL (text : JSString) : option JSString :=
  match text with
  | [] => None
  | ch :: text' =>
      if Ascii.eqb ch CR then
        match text' with
        | ch' :: _ => if Ascii.eqb ch' LF then Some [CR; LF] else Some [CR]
        | [] => Some [CR]
        end
      else if Ascii.eqb ch LF then Some [LF]
      else firstEOL text'
  end.

(** [getEOL(options, text)] *)
Definition getEOL (options : FormattingOptions) (text : JSString) : JSString :=
  match firstEOL text with
  | Some e => e
  | None =>
      match eol options with
      | Some (c :: e) => c :: e
      | _ => [LF]
      end
  end.

(** The constants that the closures of [formatJSON] capture. *)
Record FormatEnv := {
  documentText : JSString;
  formatText : JSString;
  formatTextStart : Z;
  rangeStart : Z;
  rangeEnd : Z;
  env_eol : JSString;
  indentValue : JSString;
  initialIndentLevel : Z
}.

(** The variables that the closures of [formatJSON] share and update. *)
Record FormatState := {
  f_scanner : Scanner.t;
  lineBreak : bool;
  indentLevel : Z;
  hasError : bool;
  editOperations : list Edit.t
}.

Definition with_scanner (st : FormatState) (sc : Scanner.t) : FormatState :=
  {| f_scanner := sc; lineBreak := lineBreak st; indentLevel := indentLevel st;
     hasError := hasError st; editOperations := editOperations st |}.

Definition with_indentLevel (st : FormatState) (n : Z) : FormatState :=
  {| f_scanner := f_scanner st; lineBreak := lineBreak st; indentLevel := n;
     hasError := hasError st; editOperations := editOperations st |}.

Definition with_hasError (st : FormatState) (b : bool) : FormatState :=
  {| f_scanner := f_scanner st; lineBreak := lineBreak st;
     indentLevel := indentLevel st; hasError := b;
     editOperations := editOperations st |}.

(** [newLineAndIndent()] *)
Definition newLineAndIndent (env : FormatEnv) (st : FormatState) : JSString :=
  env_eol env ++ JS.repeat (indentValue env) (initialIndentLevel env + indentLevel st).

Definition isTrivia (k : SyntaxKind.t) : bool :=
  bool_decide (k = SyntaxKind.Trivia) || bool_decide (k = SyntaxKind.LineBreakTrivia).

Definition isComment (k : SyntaxKind.t) : bool :=
  bool_decide (k = SyntaxKind.LineCommentTrivia)
  || bool_decide (k = SyntaxKind.BlockCommentTrivia).

(** The [while] loop of [scanNext], skipping blanks and line breaks. *)
Fixpoint skipTrivia (fuel : nat) (sc : Scanner.t) (lb : bool)
    : Scanner.t * bool :=
  match fuel with
  | O => (sc, lb)
  | S fuel' =>
      if isTrivia (Scanner.token sc)
      then skipTrivia fuel' (Scanner.scan sc)
             (lb || bool_decide (Scanner.token sc = SyntaxKind.LineBreakTrivia))
      else (sc, lb)
  end.

(** [scanNext()]: the state after it, and the token it returns. *)
Definition scanNext (st : FormatState) : FormatState * SyntaxKind.t :=
  let sc0 := Scanner.scan (f_scanner st) in
  let '(sc, lb) :=
    skipTrivia (Scanner.fuelFrom (Scanner.text sc0) (Scanner.pos sc0)) sc0 false in
  ({| f_scanner := sc; lineBreak := lb; indentLevel := indentLevel st;
      hasError := bool_decide (Scanner.token sc = SyntaxKind.Unknown)
                  || negb (bool_decide (Scanner.getTokenError sc = ScanError.None));
      editOperations := editOperations st |},
   Scanner.token sc).

(** [addEdit(text, startOffset, endOffset)] *)
Definition addEdit (env : FormatEnv) (text : JSString)
    (startOffset endOffset : Z) (st : FormatState) : FormatState :=
  if negb (hasError st)
     && (startOffset <? rangeEnd env)
     && (endOffset >? rangeStart env)
     && negb (JS.eqb (substring (documentText env) startOffset endOffset) text)
  then {| f_scanner := f_scanner st; lineBreak := lineBreak st;
          indentLevel := indentLevel st; hasError := hasError st;
          editOperations :=
            editOperations st ++
            [Edit.mk startOffset (endOffset - startOffset) text] |}
  else st.

(** The first loop of [getPostmanVariablePosition]: the length of the text
    up to the first [:], [,], []] or line terminator. *)
Fixpoint delimitedLength (text : JSString) (position : Z) : Z :=
  match text with
  | [] => position
  | scanned :: text' =>
      if Ascii.eqb scanned ":" || Ascii.eqb scanned "," || Ascii.eqb scanned "]"
         || isEOL [scanned] 0
      then position
      else delimitedLength text' (position + 1)
  end.

(** The second loop of [getPostmanVariablePosition]: the number of matches
    with [minStartIndex] and [maxEndIndex] ([None] before the first match,
    for the two infinities).  The inner loop is the one of the tokenizer's
    sub-scanner. *)
Fixpoint matchPositions (text : JSString) (startPosition : Z) (fuel : nat)
    (position : Z) (stack : list Bracket) (matched : list Bracket)
    (minmax : option (Z * Z)) : list Bracket * option (Z * Z) :=
  match fuel with
  | O => (matched, minmax)
  | S fuel' =>
      if position <? len text then
        let current := charAt text position in
        if isChar "{" current then
          matchPositions text startPosition fuel' (position + 1)
            ({| b_start := startPosition + position; b_scopes := EmptyString;
                b_end := 0 |} :: stack) matched minmax
        else if isChar "}" current && (position + 1 <? len text)
                && isChar "}" (charAt text (position + 1)) then
          match popMatching stack with
          | (stack', Some toBeInsertedPop) =>
              let e := startPosition + position + 1 in
              let s := b_start toBeInsertedPop in
              matchPositions text startPosition fuel' (position + 2) stack'
                (matched ++ [{| b_start := s; b_scopes := EmptyString; b_end := e |}])
                (match minmax with
                 | Some (mn, mx) => Some (Z.min mn s, Z.max mx e)
                 | None => Some (s, e)
                 end)
          | (stack', None) =>
              matchPositions text startPosition fuel' (position + 1) stack'
                matched minmax
          end
        else
          matchPositions text startPosition fuel' (position + 1) stack matched
            minmax
      else (matched, minmax)
  end.

(** [getPostmanVariablePosition()]: the scanner after the call and the
    position found, if any. *)
Definition getPostmanVariablePosition (env : FormatEnv) (sc : Scanner.t)
    : Scanner.t * option (Z * Z) :=
  let startPosition := Scanner.getTokenOffset sc + formatTextStart env - 1 in
  let textFromCurrentPosition := substringFrom (formatText env) startPosition in
  let position := delimitedLength textFromCurrentPosition 0 in
  let text := substring textFromCurrentPosition 0 position in
  if len text =? 0 then (sc, None)
  else
    match matchPositions text startPosition (List.length text) 0 [] [] None with
    | (_ :: _, Some (minStartIndex, maxEndIndex)) =>
        if negb (minStartIndex =? startPosition) then (sc, None)
        else (Scanner.scan (Scanner.setPosition sc maxEndIndex),
              Some (startPosition, maxEndIndex))
    | _ => (sc, None)
    end.

(** The [while] loop over comments that follow a token on its line; it
    returns the state, [firstTokenEnd], [replaceContent] and
    [secondToken]. *)
Fixpoint sameLineComments (fuel : nat) (env : FormatEnv) (st : FormatState)
    (firstTokenEnd : Z) (replaceContent : JSString) (secondToken : SyntaxKind.t)
    : FormatState * Z * JSString * SyntaxKind.t :=
  match fuel with
  | O => (st, firstTokenEnd, replaceContent, secondToken)
  | S fuel' =>
      if negb (lineBreak st) && isComment secondToken then
        let commentTokenStart :=
          Scanner.getTokenOffset (f_scanner st) + formatTextStart env in
        let st1 := addEdit env [" "%char] firstTokenEnd commentTokenStart st in
        let firstTokenEnd' :=
          Scanner.getTokenOffset (f_scanner st1)
          + Scanner.getTokenLength (f_scanner st1) + formatTextStart env in
        let replaceContent' :=
          if bool_decide (secondToken = SyntaxKind.LineCommentTrivia)
          then newLineAndIndent env st1 else [] in
        let '(st2, secondToken') := scanNext st1 in
        sameLineComments fuel' env st2 firstTokenEnd' replaceContent' secondToken'
      else (st, firstTokenEnd, replaceContent, secondToken)
  end.

(** The [switch (firstToken)] with the test on comments that follows it. *)
Definition switchFirstToken (env : FormatEnv) (st : FormatState)
    (firstToken secondToken : SyntaxKind.t) (replaceContent : JSString)
    : FormatState * JSString :=
  let valueLike :=
    if isComment secondToken then (st, [" "%char])
    else if negb (bool_decide (secondToken = SyntaxKind.CommaToken))
            && negb (bool_decide (secondToken = SyntaxKind.EOF))
    then (with_hasError st true, replaceContent)
    else (st, replaceContent) in
  let '(st1, rc1) :=
    match firstToken with
    | SyntaxKind.OpenBracketToken | SyntaxKind.OpenBraceToken =>
        let st' := with_indentLevel st (indentLevel st + 1) in
        (st', newLineAndIndent env st')
    | SyntaxKind.CommaToken | SyntaxKind.LineCommentTrivia =>
        (st, newLineAndIndent env st)
    | SyntaxKind.BlockCommentTrivia =>
        if lineBreak st then (st, newLineAndIndent env st) else (st, [" "%char])
    | SyntaxKind.ColonToken => (st, [" "%char])
    | SyntaxKind.StringLiteral =>
        if bool_decide (secondToken = SyntaxKind.ColonToken) then (st, [])
        else valueLike
    | SyntaxKind.NullKeyword | SyntaxKind.TrueKeyword | SyntaxKind.FalseKeyword
    | SyntaxKind.NumericLiteral | SyntaxKind.CloseBraceToken
    | SyntaxKind.CloseBracketToken => valueLike
    | SyntaxKind.Unknown => (with_hasError st true, replaceContent)
    | _ => (st, replaceContent)
    end in
  if lineBreak st1 && isComment secondToken
  then (st1, newLineAndIndent env st1)
  else (st1, rc1).

(** The search for a Postman variable at the start of an iteration; it
    returns the state, [firstToken], [firstTokenEnd] and [secondToken]. *)
Definition searchPostmanVariable (env : FormatEnv) (st : FormatState)
    (firstToken : SyntaxKind.t) (firstTokenEnd : Z) (secondToken : SyntaxKind.t)
    : FormatState * SyntaxKind.t * Z * SyntaxKind.t :=
  if negb (lineBreak st)
     && bool_decide (firstToken = SyntaxKind.OpenBraceToken)
     && bool_decide (firstToken = secondToken)
  then
    match getPostmanVariablePosition env (f_scanner st) with
    | (sc, Some (_, endIndex)) =>
        let '(st', secondToken') := scanNext (with_scanner st sc) in
        (st', SyntaxKind.StringLiteral, endIndex + 1, secondToken')
    | (sc, None) => (with_scanner st sc, firstToken, firstTokenEnd, secondToken)
    end
  else (st, firstToken, firstTokenEnd, secondToken).

(** The choice of [replaceContent] from the two tokens. *)
Definition chooseReplaceContent (env : FormatEnv) (st : FormatState)
    (firstToken secondToken : SyntaxKind.t) (replaceContent : JSString)
    : FormatState * JSString :=
  if bool_decide (secondToken = SyntaxKind.CloseBraceToken) then
    if negb (bool_decide (firstToken = SyntaxKind.OpenBraceToken)) then
      let st' := with_indentLevel st (indentLevel st - 1) in
      (st', newLineAndIndent env st')
    else (st, replaceContent)
  else if bool_decide (secondToken = SyntaxKind.CloseBracketToken) then
    if negb (bool_decide (firstToken = SyntaxKind.OpenBracketToken)) then
      let st' := with_indentLevel st (indentLevel st - 1) in
      (st', newLineAndIndent env st')
    else (st, replaceContent)
  else switchFirstToken env st firstToken secondToken replaceContent.

(** One iteration of the main loop of [formatJSON]: the state after it and
    the next [firstToken]. *)
Definition format_step (env : FormatEnv) (st : FormatState)
    (firstToken : SyntaxKind.t) : FormatState * SyntaxKind.t :=
  let firstTokenEnd :=
    Scanner.getTokenOffset (f_scanner st) + Scanner.getTokenLength (f_scanner st)
    + formatTextStart env in
  let '(st1, secondToken) := scanNext st in
  let '(st2, firstToken2, firstTokenEnd2, secondToken2) :=
    searchPostmanVariable env st1 firstToken firstTokenEnd secondToken in
  let '(st3, firstTokenEnd3, replaceContent3, secondToken3) :=
    sameLineComments (S (List.length (Scanner.text (f_scanner st2))))
      env st2 firstTokenEnd2 [] secondToken2 in
  let '(st4, replaceContent4) :=
    chooseReplaceContent env st3 firstToken2 secondToken3 replaceContent3 in
  let secondTokenStart :=
    Scanner.getTokenOffset (f_scanner st4) + formatTextStart env in
  (addEdit env replaceContent4 firstTokenEnd3 secondTokenStart st4, secondToken3).

(** The main [while (firstToken !== EOF)] loop; [None] when the fuel runs
    out. *)
Fixpoint format_loop (fuel : nat) (env : FormatEnv) (st : FormatState)
    (firstToken : SyntaxKind.t) : option (list Edit.t) :=
  if bool_decide (firstToken = SyntaxKind.EOF) then Some (editOperations st)
  else
    match fuel with
    | O => None
    | S fuel' =>
        let '(st', firstToken') := format_step env st firstToken in
        format_loop fuel' env st' firstToken'
    end.

(** The loops of [formatJSON] that widen the range to whole lines. *)
Fixpoint lineStart (documentText : JSString) (fuel : nat) (formatTextStart : Z)
    : Z :=
  match fuel with
  | O => formatTextStart
  | S fuel' =>
      if (formatTextStart >? 0) && negb (isEOL documentText (formatTextStart - 1))
      then lineStart documentText fuel' (formatTextStart - 1)
      else formatTextStart
  end.

Fixpoint lineEnd (documentText : JSString) (fuel : nat) (endOffset : Z) : Z :=
  match fuel with
  | O => endOffset
  | S fuel' =>
      if (endOffset <? len documentText) && negb (isEOL documentText endOffset)
      then lineEnd documentText fuel' (endOffset + 1)
      else endOffset
  end.

(** The first part of [formatJSON]: the text to scan and the constants of
    the run. *)
Definition formatEnv (documentText : JSString) (range : option Range)
    (options : FormattingOptions) : FormatEnv :=
  let indentValue :=
    match insertSpaces options with
    | Some true => JS.repeat [" "%char] (tabSizeOr4 options)
    | _ => [TAB]
    end in
  match range with
  | Some r =>
      let rangeStart := r_offset r in
      let rangeEnd := rangeStart + r_length r in
      let formatTextStart :=
        lineStart documentText (Z.to_nat rangeStart) rangeStart in
      let endOffset :=
        lineEnd documentText (Z.to_nat (len documentText - rangeEnd)) rangeEnd in
      let formatText := substring documentText formatTextStart endOffset in
      {| documentText := documentText; formatText := formatText;
         formatTextStart := formatTextStart; rangeStart := rangeStart;
         rangeEnd := rangeEnd; env_eol := getEOL options documentText;
         indentValue := indentValue;
         initialIndentLevel := computeIndentLevel formatText options |}
  | None =>
      {| documentText := documentText; formatText := documentText;
         formatTextStart := 0; rangeStart := 0; rangeEnd := len documentText;
         env_eol := getEOL options documentText; indentValue := indentValue;
         initialIndentLevel := 0 |}
  end.

(** [formatJSON(documentText, range, options)] *)
Definition formatJSON (documentText : JSString) (range : option Range)
    (options : FormattingOptions) : option (list Edit.t) :=
  let env := formatEnv documentText range options in
  let st0 :=
    {| f_scanner := Scanner.createScanner (formatText env); lineBreak := false;
       indentLevel := 0; hasError := false; editOperations := [] |} in
  let '(st1, firstToken) := scanNext st0 in
  let st2 :=
    if negb (bool_decide (firstToken = SyntaxKind.EOF)) then
      let firstTokenStart :=
        Scanner.getTokenOffset (f_scanner st1) + formatTextStart env in
      let initialIndent := JS.repeat (indentValue env) (initialIndentLevel env) in
      addEdit env initialIndent (formatTextStart env) firstTokenStart st1
    else st1 in
  format_loop (S (S (List.length (formatText env)))) env st2 firstToken.

(** The [tabSize] and [insertSpaces] members of the caller's options. *)
Record CallerOptions := {
  o_tabSize : option Z;
  o_insertSpaces : option bool
}.

(** [format(d, r, o)], with the document given by its text and the range by
    the offsets of its two ends ([d.offsetAt(r.start)], [d.offsetAt(r.end)]);
    the edits are returned by offset. *)
Definition format (d : JSString) (r : option (Z * Z)) (o : option CallerOptions)
    : option (list Edit.t) :=
  let range :=
    match r with
    | Some (startOffset, endOffset) =>
        Some {| r_offset := startOffset; r_length := endOffset - startOffset |}
    | None => None
    end in
  let options :=
    {| tabSize := match o with Some o' => o_tabSize o' | None => Some 4 end;
       insertSpaces :=
         match o with Some o' => o_insertSpaces o' | None => Some true end;
       eol := Some [LF] |} in
  formatJSON d range options.

(* ===================================================================== *)
(** * Worker: paths and the document given to validation *)
(* ===================================================================== *)

(** [parts.join(sep)] *)
Fixpoint join (sep : JSString) (parts : list JSString) : JSString :=
  match parts with
  | [] => []
  | p :: parts' =>
      match parts' with
      | [] => p
      | _ :: _ => p ++ sep ++ join sep parts'
      end
  end.

(** The loop of [s.split(sep)] for a separator that is not empty: cut at
    the first occurrence of [sep], go on after it. *)
Fixpoint splitBy (fuel : nat) (sep s : JSString) : list JSString :=
  match fuel with
  | O => [s]
  | S fuel' =>
      let i := indexOf s sep in
      if i <? 0 then [s]
      else substring s 0 i :: splitBy fuel' sep (substringFrom s (i + len sep))
  end.

(** [s.split(sep)] *)
Definition split (sep s : JSString) : list JSString :=
  splitBy (length s) sep s.

Definition Slash : ascii := "/"%char.
Definition Dot : ascii := "."%char.

(** The three cases of the loop of [normalizePath]. *)
Definition ignoredPart (part : JSString) : bool :=
  (len part =? 0)
  || ((len part =? 1) && bool_decide (charCodeAt part 0 = Some Dot)).

Definition parentPart (part : JSString) : bool :=
  (len part =? 2) && bool_decide (charCodeAt part 0 = Some Dot)
  && bool_decide (charCodeAt part 1 = Some Dot).

(** The [for] loop of [normalizePath]; [newParts.pop()] leaves an empty
    array as it is. *)
Fixpoint normalizeParts (parts newParts : list JSString) : list JSString :=
  match parts with
  | [] => newParts
  | part :: parts' =>
      if ignoredPart part then normalizeParts parts' newParts
      else if parentPart part then normalizeParts parts' (removelast newParts)
      else normalizeParts parts' (newParts ++ [part])
  end.

(** [normalizePath(parts)]; [None] is the [TypeError] of [parts[0].length]
    on an empty array. *)
Definition normalizePath (parts : list JSString) : option JSString :=
  let newParts := normalizeParts parts [] in
  let newParts' :=
    if (Z.of_nat (length parts) >? 1) && (len (List.last parts []) =? 0)
    then newParts ++ [[]] else newParts in
  let res := join [Slash] newParts' in
  match parts with
  | [] => None
  | first :: _ => Some (if len first =? 0 then Slash :: res else res)
  end.

(** [isAbsolutePath(path)] *)
Definition isAbsolutePath (path : JSString) : bool :=
  bool_decide (charCodeAt path 0 = Some Slash).

(** A model of the worker context: [model.uri.toString()], [model.version]
    and [model.getValue()]. *)
Record MirrorModel := {
  m_uri : string;
  m_version : Z;
  m_value : JSString
}.

(** What [jsonService.TextDocument.create(uri, languageId, version,
    content)] is given. *)
Record TextDocument := {
  d_uri : string;
  d_languageId : string;
  d_version : Z;
  d_content : JSString
}.

(** The characters that [trim] removes, among the 8-bit ones. *)
Definition isTrimmed (c : ascii) : bool :=
  let n := Z.of_N (N_of_ascii c) in
  ((9 <=? n) && (n <=? 13)) || (n =? 32) || (n =? 160).

(** [content.trim() === ''] *)
Definition isBlank (content : JSString) : bool := forallb isTrimmed content.

(** [returnObj.tokens.filter((token) => token.scopes === TOKEN_POSTMAN_VARIABLE)] *)
Definition postmanVariables (toks : list IToken) : list IToken :=
  List.filter (fun token => String.eqb (scopes token) TOKEN_POSTMAN_VARIABLE) toks.

(** The assignment to [array[lineIndex]] for one variable: a quote before
    its start and one after its end.  An [undefined] end index makes the
    second argument of [substring] [NaN], which counts as 0. *)
Definition quoteVariable (variable : IToken) (offset : Z)
    (lineToBeReplaced : JSString) : JSString :=
  let s := startIndex variable + offset in
  let e := match endIndex variable with
           | Some e => e + offset + 1
           | None => 0
           end in
  substring lineToBeReplaced 0 s ++ [DQ] ++ substring lineToBeReplaced s e
    ++ [DQ] ++ substringFrom lineToBeReplaced e.

(** [variable.startIndex < prevVariable.endIndex]; false when the end
    index is [undefined]. *)
Definition startsBefore (variable prevVariable : IToken) : bool :=
  match endIndex prevVariable with
  | Some e => startIndex variable <? e
  | None => false
  end.

(** The [for] loop over [postmanVariables], from [i = 1] on. *)
Fixpoint quoteVariables (variables : list IToken) (prevVariable : IToken)
    (offset : Z) (line : JSString) : JSString :=
  match variables with
  | [] => line
  | variable :: variables' =>
      if startsBefore variable prevVariable
      then quoteVariables variables' prevVariable offset line
      else quoteVariables variables' variable (offset + 2)
             (quoteVariable variable offset line)
  end.

(** The body of the [forEach] after [tokenize]: the new [array[lineIndex]]. *)
Definition quoteLine (toks : list IToken) (line : JSString) : JSString :=
  match postmanVariables toks with
  | [] => line
  | first :: variables =>
      quoteVariables variables first 2 (quoteVariable first 0 line)
  end.

(** [lines.forEach(...)]: every line tokenized from the end state of the
    line before it, and rewritten. *)
Fixpoint modifyLines (lines : list JSString) (h : Heap) (state : loc)
    : Outcome (list JSString) :=
  match lines with
  | [] => Return h []
  | line :: lines' =>
      match tokenize true line h state 0 (Some "postman_json"%string) with
      | Return h1 returnObj =>
          match modifyLines lines' h1 (endState returnObj) with
          | Return h2 out => Return h2 (quoteLine (tokens returnObj) line :: out)
          | Throw h2 e => Throw h2 e
          | OutOfFuel h2 => OutOfFuel h2
          end
      | Throw h1 e => Throw h1 e
      | OutOfFuel h1 => OutOfFuel h1
      end
  end.

(** The [content] that [_getModifiedTextDocument] gives to the document;
    [h] is the heap when the method is called. *)
Definition modifiedContent (h : Heap) (content : JSString)
    : Outcome JSString :=
  if negb (bool_decide (content = [])) && negb (isBlank content) then
    let eol := if indexOf content [CR; LF] >? -1 then [CR; LF] else [LF] in
    let lines := split eol content in
    let '(h0, state) := new_JSONState h None None false None in
    match modifyLines lines h0 state with
    | Return h' out => Return h' (join eol out)
    | Throw h' e => Throw h' e
    | OutOfFuel h' => OutOfFuel h'
    end
  else Return h content.

(** [_getTextDocument(uri)] *)
Fixpoint _getTextDocument (languageId : string) (models : list MirrorModel)
    (uri : string) : option TextDocument :=
  match models with
  | [] => None
  | model :: models' =>
      if String.eqb (m_uri model) uri
      then Some {| d_uri := uri; d_languageId := languageId;
                   d_version := m_version model; d_content := m_value model |}
      else _getTextDocument languageId models' uri
  end.

(** [_getModifiedTextDocument(uri)], called in the heap [h]. *)
Fixpoint _getModifiedTextDocument (h : Heap) (languageId : string)
    (models : list MirrorModel) (uri : string) : Outcome TextDocument :=
  match models with
  | [] => Return h {| d_uri := EmptyString; d_languageId := EmptyString;
                      d_version := 0; d_content := [] |}
  | model :: models' =>
      if String.eqb (m_uri model) uri
      then match modifiedContent h (m_value model) with
           | Return h' content =>
               Return h' {| d_uri := uri; d_languageId := languageId;
                            d_version := m_version model; d_content := content |}
           | Throw h' e => Throw h' e
           | OutOfFuel h' => OutOfFuel h'
           end
      else _getModifiedTextDocument h languageId models' uri
  end.

(* ===================================================================== *)
(** * Language service defaults *)
(* ===================================================================== *)

Module Defaults.

(** [DiagnosticsOptions], [ModeConfiguration] and [LanguageConfiguration]
    objects are only stored and handed out by the defaults object; they
    are opaque here. *)
Definition DiagnosticsOptions := nat.
Definition ModeConfiguration := nat.
Definition LanguageConfiguration := nat.

(** The object behind [InstanceSettings.settings]: its own properties, and
    its prototype when that is no longer [Object.prototype] (an
    assignment to the key [__proto__] replaces the prototype and adds no
    property).  The configuration objects themselves are plain objects,
    with [Object.prototype] for their prototype. *)
Record Settings := {
  own : gmap string LanguageConfiguration;
  proto : option LanguageConfiguration
}.

(** [interface InstanceSettings { settings?: ... }] *)
Record InstanceSettings := {
  settings : option Settings
}.

(** [class LanguageServiceDefaultsImpl], with the number of times that
    [_onDidChange] has fired.  [None] in the two options fields is the
    object made by [Object.create(null)]. *)
Record LanguageServiceDefaultsImpl := {
  _languageId : string;
  _diagnosticsOptions : option DiagnosticsOptions;
  _modeConfiguration : option ModeConfiguration;
  _instanceSettings : InstanceSettings;
  fired : nat
}.

(** [this._onDidChange.fire(this)] *)
Definition fire (this : LanguageServiceDefaultsImpl) : LanguageServiceDefaultsImpl :=
  {| _languageId := _languageId this;
     _diagnosticsOptions := _diagnosticsOptions this;
     _modeConfiguration := _modeConfiguration this;
     _instanceSettings := _instanceSettings this;
     fired := S (fired this) |}.

Definition with_instanceSettings (this : LanguageServiceDefaultsImpl)
    (s : InstanceSettings) : LanguageServiceDefaultsImpl :=
  {| _languageId := _languageId this;
     _diagnosticsOptions := _diagnosticsOptions this;
     _modeConfiguration := _modeConfiguration this;
     _instanceSettings := s;
     fired := fired this |}.

(** [setDiagnosticsOptions(options)]: [options || Object.create(null)] *)
Definition setDiagnosticsOptions (this : LanguageServiceDefaultsImpl)
    (options : option DiagnosticsOptions) : LanguageServiceDefaultsImpl :=
  fire {| _languageId := _languageId this;
          _diagnosticsOptions := options;
          _modeConfiguration := _modeConfiguration this;
          _instanceSettings := _instanceSettings this;
          fired := fired this |}.

(** [setModeConfiguration(modeConfiguration)] *)
Definition setModeConfiguration (this : LanguageServiceDefaultsImpl)
    (modeConfiguration : option ModeConfiguration) : LanguageServiceDefaultsImpl :=
  fire {| _languageId := _languageId this;
          _diagnosticsOptions := _diagnosticsOptions this;
          _modeConfiguration := modeConfiguration;
          _instanceSettings := _instanceSettings this;
          fired := fired this |}.

(** The constructor. *)
Definition new (languageId : string) (diagnosticsOptions : option DiagnosticsOptions)
    (modeConfiguration : option ModeConfiguration)
    (instanceSettings : InstanceSettings) : LanguageServiceDefaultsImpl :=
  setModeConfiguration
    (setDiagnosticsOptions
       {| _languageId := languageId; _diagnosticsOptions := None;
          _modeConfiguration := None; _instanceSettings := instanceSettings;
          fired := 0 |}
       diagnosticsOptions)
    modeConfiguration.

(** [settings[uri] = setting]: for the key [__proto__] the setter of
    [Object.prototype] is reached, unless the object has an own property
    of that name. *)
Definition assign (s : Settings) (uri : string) (setting : LanguageConfiguration)
    : Settings :=
  if String.eqb uri "__proto__" && bool_decide (own s !! uri = None)
  then {| own := own s; proto := Some setting |}
  else {| own := <[uri := setting]> (own s); proto := proto s |}.

(** [delete settings[uri]] *)
Definition remove (s : Settings) (uri : string) : Settings :=
  {| own := delete uri (own s); proto := proto s |}.

(** The [dispose] of the object that [setInstanceSettings(uri, ...)]
    returns. *)
Definition dispose (uri : string) (this : LanguageServiceDefaultsImpl)
    : LanguageServiceDefaultsImpl :=
  fire (match settings (_instanceSettings this) with
        | Some s =>
            with_instanceSettings this {| settings := Some (remove s uri) |}
        | None => this
        end).

(** [setInstanceSettings(uri, setting)]: the object after the call, and
    the [dispose] of the returned [IDisposable]. *)
Definition setInstanceSettings (this : LanguageServiceDefaultsImpl)
    (uri : string) (setting : LanguageConfiguration)
    : LanguageServiceDefaultsImpl
      * (LanguageServiceDefaultsImpl -> LanguageServiceDefaultsImpl) :=
  (fire (match settings (_instanceSettings this) with
         | Some s =>
             with_instanceSettings this
               {| settings := Some (assign s uri setting) |}
         | None => this
         end),
   dispose uri).

(** What the expression [settings[uri]] evaluates to: an own property of
    the object; or, for the key [__proto__], what the getter of
    [Object.prototype] answers, the prototype of the object ([None] for
    [Object.prototype] itself); or whatever the prototype, a configuration
    or [Object.prototype], has under the key along its own chain
    ([undefined] when it has nothing). *)
Inductive Lookup :=
| Own (setting : LanguageConfiguration)
| Prototype (p : option LanguageConfiguration)
| Inherited (p : option LanguageConfiguration) (key : string).

(** [settings[uri]] *)
Definition get (s : Settings) (uri : string) : Lookup :=
  match own s !! uri with
  | Some setting => Own setting
  | None =>
      if String.eqb uri "__proto__" then Prototype (proto s)
      else Inherited (proto s) uri
  end.

(** [!!this._instanceSettings.settings &&
    this._instanceSettings.settings[uri]], the read of the setting of a
    uri; [None] is the [false] of a [settings] that is [undefined]. *)
Definition setting_of (this : LanguageServiceDefaultsImpl) (uri : string)
    : option Lookup :=
  match settings (_instanceSettings this) with
  | Some s => Some (get s uri)
  | None => None
  end.

(** The own property of [settings] under the key [uri], if the object is
    there and has one ([hasOwnProperty]). *)
Definition ownSetting (this : LanguageServiceDefaultsImpl) (uri : string)
    : option LanguageConfiguration :=
  match settings (_instanceSettings this) with
  | Some s => own s !! uri
  | None => None
  end.

End Defaults.

(* ===================================================================== *)
(** * Specification predicates *)
(* ===================================================================== *)

(** Every object of [h] is still there in [h'], with the same fields. *)
Definition unchanged (h h' : Heap) : Prop :=
  (forall a s, states h !! a = Some s -> states h' !! a = Some s) /\
  (forall a f, frames h !! a = Some f -> frames h' !! a = Some f).

(** The reference [a] is to a [JSONState] that [h'] has and [h] has not. *)
Definition newly_constructed (h h' : Heap) (a : loc) : Prop :=
  states h !! a = None /\ is_Some (states h' !! a).

Definition outcome_heap {A : Type} (o : Outcome A) : Heap :=
  match o with
  | Return h _ | Throw h _ | OutOfFuel h => h
  end.

Definition heap_extends (h h' : Heap) : Prop :=
  frames h `prefix_of` frames h' /\ states h `prefix_of` states h'.

(** The lines of a document tokenized from top to bottom, each line from
    the end state of the line before (as the callers of [tokenize] do). *)
Fixpoint tokenizeLines (comments : bool) (languageId : option string)
    (lines : list JSString) (h : Heap) (state : loc) : option (Heap * loc) :=
  match lines with
  | [] => Some (h, state)
  | line :: lines' =>
      match tokenize comments line h state 0 languageId with
      | Return h' r => tokenizeLines comments languageId lines' h' (endState r)
      | _ => None
      end
  end.

(** The sequence of Object/Array markers of a parent stack, top first. *)
Fixpoint stackTypes (fuel : nat) (h : Heap) (ps : option loc)
    : list JSONParent.t :=
  match ps, fuel with
  | Some a, S fuel' => frame_type h a :: stackTypes fuel' h (frame_parent h a)
  | _, _ => []
  end.

Definition markers (h : Heap) (ps : option loc) : list JSONParent.t :=
  stackTypes (length (frames h)) h ps.

(** The end-of-line string as the specification words it: the first
    literal [\r\n] or [\n] of the text, else the caller-supplied option,
    else [\n]. *)
Fixpoint spec_firstEOL (text : JSString) : option JSString :=
  match text with
  | [] => None
  | ch :: text' =>
      if Ascii.eqb ch CR && startsWith text' [LF] then Some [CR; LF]
      else if Ascii.eqb ch LF then Some [LF]
      else spec_firstEOL text'
  end.

Definition spec_getEOL (options : FormattingOptions) (text : JSString)
    : JSString :=
  match spec_firstEOL text with
  | Some e => e
  | None => match eol options with Some e => e | None => [LF] end
  end.

Definition noTerminator (text : JSString) : Prop :=
  Forall (fun ch => ch <> CR /\ ch <> LF) text.

(** The first line terminator of a text: [\r\n], a lone [\r], or [\n],
    whichever comes first; none when the text has neither character. *)
Inductive FirstTerminator : JSString -> option JSString -> Prop :=
| FT_crlf pre post :
    noTerminator pre -> FirstTerminator (pre ++ CR :: LF :: post) (Some [CR; LF])
| FT_cr pre post :
    noTerminator pre -> head post <> Some LF ->
    FirstTerminator (pre ++ CR :: post) (Some [CR])
| FT_lf pre post :
    noTerminator pre -> FirstTerminator (pre ++ LF :: post) (Some [LF])
| FT_none text :
    noTerminator text -> FirstTerminator text None.

(** The caller-supplied end of line when there is one and it is not the
    empty string, else [\n]. *)
Definition eolOrDefault (options : FormattingOptions) : JSString :=
  match eol options with
  | Some [] | None => [LF]
  | Some e => e
  end.

(** An edit whose span lies within [rangeStart, rangeEnd). *)
Definition edit_within (rangeStart rangeEnd : Z) (e : Edit.t) : Prop :=
  rangeStart <= Edit.offset e /\ Edit.offset e + Edit.length e <= rangeEnd.

(** An edit whose span starts before [rangeEnd] and ends after
    [rangeStart]. *)
Definition edit_overlaps (rangeStart rangeEnd : Z) (e : Edit.t) : Prop :=
  Edit.offset e < rangeEnd /\ rangeStart < Edit.offset e + Edit.length e.

(** An edit whose text differs from the text it replaces. *)
Definition edit_changes (documentText : JSString) (e : Edit.t) : Prop :=
  substring documentText (Edit.offset e) (Edit.offset e + Edit.length e)
  <> Edit.content e.

Definition defaultOptions : option CallerOptions := None.

(** What [addEdit] checks before it emits an edit. *)
Definition emitted_ok (env : FormatEnv) (e : Edit.t) : Prop :=
  edit_overlaps (rangeStart env) (rangeEnd env) e /\
  edit_changes (documentText env) e.

Definition edits_ok (env : FormatEnv) (st : FormatState) : Prop :=
  Forall (emitted_ok env) (editOperations st).

Definition postman_json : option string := Some "postman_json"%string.

Definition hasScope (scope : string) (t : IToken) : bool :=
  String.eqb (scopes t) scope.

Definition startsIn (lo hi : Z) (t : IToken) : bool :=
  (lo <=? startIndex t) && (startIndex t <=? hi).

(** [tokenize] of the placeholder-aware variant on a line of a document,
    the lines [before] it tokenized first, from the initial state, in a
    browser page (where the tokens provider of the editor runs). *)
Definition tokenizeAfter (comments : bool) (before : list JSString)
    (line : JSString) : option (Heap * ILineTokens) :=
  let '(h0, s0) := JSONStateOps.getInitialState pageHeap in
  match tokenizeLines comments postman_json before h0 s0 with
  | Some (h, s) =>
      match tokenize comments line h s 0 postman_json with
      | Return h' r => Some (h', r)
      | _ => None
      end
  | None => None
  end.

(** C1 on the line [pre ++ "{{envVar}}" ++ post]: one placeholder token
    over the ten characters, no object-delimiter token that starts in
    them, and the parent stack at the end of the line is the one of the
    line with the atomic value [null] in the placeholder's place. *)
Definition placeholder_is_one_token (comments : bool) (before : list JSString)
    (pre post : JSString) : Prop :=
  match tokenizeAfter comments before (pre ++ lit "{{envVar}}" ++ post),
        tokenizeAfter comments before (pre ++ lit "null" ++ post) with
  | Some (h1, r1), Some (h2, r2) =>
      List.filter (hasScope TOKEN_POSTMAN_VARIABLE) (tokens r1) =
        [{| startIndex := len pre; scopes := TOKEN_POSTMAN_VARIABLE;
            endIndex := Some (len pre + 9) |}] /\
      substring (pre ++ lit "{{envVar}}" ++ post) (len pre) (len pre + 9 + 1)
        = lit "{{envVar}}" /\
      List.filter (fun t => hasScope TOKEN_DELIM_OBJECT t
                            && startsIn (len pre) (len pre + 9) t)
        (tokens r1) = [] /\
      List.length (List.filter (hasScope TOKEN_DELIM_OBJECT) (tokens r1)) =
        List.length (List.filter (hasScope TOKEN_DELIM_OBJECT) (tokens r2)) /\
      markers h1 (parents (state_at h1 (endState r1))) =
        markers h2 (parents (state_at h2 (endState r2)))
  | _, _ => False
  end.

(** The characters of [line] that the [i]-th token of [toks] spans: from
    its [startIndex] to its [endIndex] when it has one and, for a token
    without an end of its own (the editor's [IToken] has a start only),
    to the start of the token after it, or to the end of the line when it
    is the last one. *)
Definition tokenSpan (line : JSString) (toks : list IToken) (i : nat)
    : option JSString :=
  match toks !! i with
  | None => None
  | Some t =>
      let stop :=
        match endIndex t, toks !! S i with
        | Some e, _ => e + 1
        | None, Some next => startIndex next
        | None, None => len line
        end in
      Some (substring line (startIndex t) stop)
  end.

(** The spans of all tokens of a line, in the order of the tokens. *)
Definition tokenSpans (line : JSString) (toks : list IToken)
    : list (option JSString) :=
  map (tokenSpan line toks) (seq 0 (length toks)).

(** C2 on the line [pre ++ json "'{{baseUrl}}/api'" ++ post], the opening
    quote at [len pre] and the closing one sixteen characters on: the
    tokens that start in the literal are the [k]-th and the two after it,
    namely the container, the variable over the eleven characters of
    [{{baseUrl}}] and the filler that starts at the [/] right after it;
    the container spans the opening quote, the variable [{{baseUrl}}],
    and the filler [/api] and the closing quote. *)
Definition string_value_tokens (comments : bool) (before : list JSString)
    (pre post : JSString) (k : nat) : Prop :=
  let line := pre ++ json "'{{baseUrl}}/api'" ++ post in
  let q := len pre in
  match tokenizeAfter comments before line with
  | Some (h1, r1) =>
      List.filter (startsIn q (q + 16)) (tokens r1) =
        [{| startIndex := q; scopes := TOKEN_VALUE_STRING; endIndex := None |};
         {| startIndex := q + 1; scopes := TOKEN_POSTMAN_VARIABLE_IN_STRING;
            endIndex := Some (q + 11) |};
         {| startIndex := q + 12; scopes := TOKEN_VALUE_STRING;
            endIndex := None |}] /\
      take 3 (drop k (tokens r1)) = List.filter (startsIn q (q + 16)) (tokens r1) /\
      take 3 (drop k (tokenSpans line (tokens r1))) =
        [Some [DQ]; Some (lit "{{baseUrl}}"); Some (json "/api'")] /\
      charAt line q = [DQ] /\
      charAt line (q + 16) = [DQ]
  | None => False
  end.

(** [Number.MAX_SAFE_INTEGER]: up to it the integers are exact in
    JavaScript's numbers, and so are the sums that do not exceed it. *)
Definition MAX_SAFE_INTEGER : Z := 2 ^ 53 - 1.

(** The offsets that [tokenize] computes on [line] with [offsetDelta] are
    safe integers: the scanner's position is at most one past the end of
    the line with its synthetic prefix of up to two characters, and the
    sub-scanner adds at most one more. *)
Definition safeOffsets (offsetDelta : Z) (line : JSString) : Prop :=
  - MAX_SAFE_INTEGER <= offsetDelta /\
  offsetDelta + len line + 4 <= MAX_SAFE_INTEGER.

(** The global object has a property [length]. *)
Definition lengthDeclared (h : Heap) : Prop := is_Some (global_length h).

(** An entry of the sub-scanner's stack, while its loop is at [pos]: it
    was pushed for a character of the text before [pos]. *)
Definition pushedBefore (offset pos : Z) (b : Bracket) : Prop :=
  offset <= b_start b < offset + pos.

(** A matched bracket: it starts in the text and ends at least three
    characters after the start of the text. *)
Definition wellMatched (offset : Z) (b : Bracket) : Prop :=
  offset <= b_start b /\ offset + 3 <= b_end b.

(** A token of the sub-scanner that is a variable: it has an end index,
    at least three characters after the start of the text. *)
Definition variableToken (offset : Z) (t : IToken) : Prop :=
  exists e, endIndex t = Some e /\ offset + 3 <= e.

(** The loop of [tokenize] is at a position of [line], past the first
    token once the offsets are being adjusted. *)
Definition scanning (line : JSString) (v : Vars) : Prop :=
  Scanner.text (scanner v) = line /\
  0 <= Scanner.pos (scanner v) /\
  (adjustOffset v = true -> 1 <= Scanner.pos (scanner v)).

(** When the loop of [tokenize] has just counted a first open brace, the
    scanner stands right after that brace. *)
Definition afterOpenBrace (line : JSString) (v : Vars) : Prop :=
  openBracesCount v = 1 ->
  charAt line (Scanner.pos (scanner v) - 1) = ["{"%char].

(** The characters that the scanner has not read yet. *)
Definition remaining (sc : Scanner.t) : nat :=
  Z.to_nat (len (Scanner.text sc) - Scanner.pos sc).

(** A scanner as [scan] leaves it. *)
Definition scanned (sc : Scanner.t) : Prop :=
  exists sc0, sc = Scanner.scan sc0.

(** The positions at which the scanner finds the tokens of its text, from
    the state [sc] on. *)
Fixpoint tokenStarts (fuel : nat) (sc : Scanner.t) : list Z :=
  match fuel with
  | O => []
  | S fuel' =>
      if bool_decide (Scanner.token (Scanner.scan sc) = SyntaxKind.EOF) then []
      else Scanner.pos sc :: tokenStarts fuel' (Scanner.scan sc)
  end.

(** The start offsets that C5 describes: the first token keeps its
    position, the inserted characters are subtracted from all others. *)
Definition correctedStarts (offsetDelta inserted : Z) (starts : list Z)
    : list Z :=
  match starts with
  | [] => []
  | p :: ps => (offsetDelta + p) :: map (fun q => offsetDelta + q - inserted) ps
  end.

(** Every frame was created after its parent. *)
Definition wellFormed (h : Heap) : Prop :=
  forall a f p, frames h !! a = Some f -> parent f = Some p -> (p < a)%nat.

(** A reference to a frame of the heap, or [null]. *)
Definition allocated (h : Heap) (ps : option loc) : Prop :=
  match ps with
  | Some a => (a < length (frames h))%nat
  | None => True
  end.

(** One of the two sequences of markers begins with the other. *)
Definition prefixRelated (l1 l2 : list JSONParent.t) : Prop :=
  l1 `prefix_of` l2 \/ l2 `prefix_of` l1.

(** A heap as [tokenize] builds it: every frame was created after its
    parent, and the parent stack of every state is a frame of the heap. *)
Definition closed (h : Heap) : Prop :=
  wellFormed h /\
  forall a s, states h !! a = Some s -> allocated h (parents s).

(** The line state is inside a string or a block comment that the line
    before left open. *)
Definition openConstruct (err : option ScanError.t) : bool :=
  bool_decide (err = Some ScanError.UnexpectedEndOfString)
  || bool_decide (err = Some ScanError.UnexpectedEndOfComment).

(** The text has [{{] at [i] and [}}] ending at [j]. *)
Definition bracesAt (s : JSString) (i j : Z) : Prop :=
  charAt s i = ["{"%char] /\ charAt s (i + 1) = ["{"%char] /\
  charAt s (j - 1) = ["}"%char] /\ charAt s j = ["}"%char].

(** A bracket of the sub-scanner that spans a variable of the text: from a
    [{{] to a later [}}], both inside the text, with the scope of the
    mode. *)
Definition variableBracket (s : JSString) (offset : Z) (inString : bool)
    (b : Bracket) : Prop :=
  b_scopes b = (if inString then TOKEN_POSTMAN_VARIABLE_IN_STRING
                else TOKEN_POSTMAN_VARIABLE) /\
  offset <= b_start b /\ b_start b + 3 <= b_end b /\
  b_end b < offset + len s /\
  bracesAt s (b_start b - offset) (b_end b - offset).

(** An entry of the sub-scanner's stack, while its loop is at [pos]: the
    offset of a [{] of the text before [pos]. *)
Definition openBraceAt (s : JSString) (offset pos : Z) (b : Bracket) : Prop :=
  offset <= b_start b < offset + pos /\
  charAt s (b_start b - offset) = ["{"%char].

(** Brackets in increasing order that do not overlap, the first after
    [e]. *)
Fixpoint chained (e : Z) (l : list Bracket) : Prop :=
  match l with
  | [] => True
  | b :: l' => e < b_start b /\ chained (b_end b) l'
  end.

(** Tokens with an end index that follow each other without a gap, from
    [start] to just before [next]. *)
Fixpoint abut (start : Z) (toks : list IToken) (next : Z) : Prop :=
  match toks with
  | [] => start = next
  | t :: rest =>
      startIndex t = start /\
      exists e, endIndex t = Some e /\ start <= e /\ abut (e + 1) rest next
  end.

(** Tokens that cover the text from [offset] on without a gap or an
    overlap, the last one open-ended. *)
Definition tilesFrom (offset : Z) (toks : list IToken) : Prop :=
  exists body final,
    toks = body ++ [final] /\ abut offset body (startIndex final) /\
    endIndex final = None.

(** A token of the plain variant: no scope of a variable, no end index. *)
Definition plainToken (t : IToken) : Prop :=
  scopes t <> TOKEN_POSTMAN_VARIABLE /\
  scopes t <> TOKEN_POSTMAN_VARIABLE_IN_STRING /\
  endIndex t = None.

(** The offset right after an edit. *)
Definition editEnd (e : Edit.t) : Z := Edit.offset e + Edit.length e.

(** Edits in the order of the document that do not overlap: the first
    starts at [lo] or later, each next one where the one before it ends or
    later, none has a negative length and the last ends at [hi] or
    earlier. *)
Fixpoint orderedWithin (lo : Z) (es : list Edit.t) (hi : Z) : Prop :=
  match es with
  | [] => lo <= hi
  | e :: es' =>
      lo <= Edit.offset e /\ 0 <= Edit.length e /\
      orderedWithin (editEnd e) es' hi
  end.

(** The edits so far are in order and end before [firstTokenEnd], from
    which the next one would start; the scanner stands at the token at
    which it would end. *)
Definition editsBefore (env : FormatEnv) (st : FormatState)
    (firstTokenEnd : Z) : Prop :=
  scanned (f_scanner st) /\
  Scanner.text (f_scanner st) = formatText env /\
  firstTokenEnd <= Scanner.pos (f_scanner st) + formatTextStart env /\
  (firstTokenEnd < rangeEnd env ->
   firstTokenEnd <= Scanner.tokenOffset (f_scanner st) + formatTextStart env) /\
  exists bound,
    orderedWithin (formatTextStart env) (editOperations st) bound /\
    bound <= firstTokenEnd /\
    bound <= formatTextStart env + len (formatText env).

(** A path segment that [normalizePath] keeps: not empty, not [.] and not
    [..]. *)
Definition keptPart (part : JSString) : Prop :=
  ignoredPart part = false /\ parentPart part = false.

(** A path segment as [split] makes it: without a slash. *)
Definition noSlash (part : JSString) : Prop := Forall (fun c => c <> Slash) part.

(** No two [{] in a row. *)
Definition noDoubleBrace (s : JSString) : Prop :=
  forall i, ~ (charAt s i = ["{"%char] /\ charAt s (i + 1) = ["{"%char]).

(** A token that is not a top-level variable. *)
Definition notVariable (t : IToken) : Prop :=
  scopes t <> TOKEN_POSTMAN_VARIABLE.

(** The text from position [pos] of a line on, with a quote before the
    start and one after the end of each variable. *)
Fixpoint quoted (pos : Z) (text : JSString) (variables : list IToken)
    : JSString :=
  match variables with
  | [] => text
  | v :: variables' =>
      match endIndex v with
      | Some e =>
          take (Z.to_nat (startIndex v - pos)) text ++ [DQ]
          ++ take (Z.to_nat (e + 1 - startIndex v))
               (drop (Z.to_nat (startIndex v - pos)) text)
          ++ [DQ]
          ++ quoted (e + 1) (drop (Z.to_nat (e + 1 - pos)) text) variables'
      | None => text
      end
  end.

(** Variables that follow each other from [pos] on and end before [hi]. *)
Fixpoint inOrder (pos hi : Z) (variables : list IToken) : Prop :=
  match variables with
  | [] => True
  | v :: variables' =>
      exists e, endIndex v = Some e /\ pos <= startIndex v <= e + 1 /\
                e + 1 <= hi /\ inOrder (e + 1) hi variables'
  end.


(** A text without braces. *)
Definition braceFree (name : JSString) : Prop :=
  Forall (fun c => c <> "{"%char /\ c <> "}"%char) name.

(** Two brackets that lie apart, or one strictly inside the other. *)
Definition laminar (x y : Bracket) : Prop :=
  b_end x < b_start y \/ b_end y < b_start x \/
  (b_start x < b_start y /\ b_end y < b_end x) \/
  (b_start y < b_start x /\ b_end x < b_end y).

(** The stack of the sub-scanner, top first: offsets below [bound], in
    strictly decreasing order. *)
Fixpoint decreasing (bound : Z) (stack : list Bracket) : Prop :=
  match stack with
  | [] => True
  | e :: stack' => b_start e < bound /\ decreasing (b_start e) stack'
  end.

(** Brackets in the order of their starts, none before [lo]. *)
Fixpoint ascending (lo : Z) (l : list Bracket) : Prop :=
  match l with
  | [] => True
  | b :: l' => lo <= b_start b /\ ascending (b_start b) l'
  end.

(** The first loop of the sub-scanner at [pos]: the stack is in order, the
    matched brackets end before [pos], no entry of the stack lies within a
    matched bracket, and any two matched brackets lie apart or one inside
    the other. *)
Definition matching (offset pos : Z) (stack matched : list Bracket) : Prop :=
  decreasing (offset + pos) stack /\
  (forall m, m ∈ matched -> b_start m < b_end m /\ b_end m < offset + pos) /\
  (forall m e, m ∈ matched -> e ∈ stack ->
               b_start e < b_start m \/ b_end m < b_start e) /\
  (forall x y, x ∈ matched -> y ∈ matched -> x = y \/ laminar x y).

(** The bracket [c] encloses the bracket [b]. *)
Definition encloses (c b : Bracket) : Prop :=
  b_start c <= b_start b /\ b_end b <= b_end c.

(** The loop of the sub-scanner on its way to the variable at [p], whose
    closing braces are at [q]: before the variable, after its first
    brace, or between its opening and its closing braces. *)
Definition approaching (offset p q pos : Z) (stack : list Bracket) : Prop :=
  0 <= pos <= p \/
  (pos = p + 1 /\ exists rest,
      stack = {| b_start := offset + p; b_scopes := EmptyString; b_end := 0 |}
              :: rest) \/
  (p + 2 <= pos <= q /\ exists rest,
      stack = {| b_start := offset + p + 1; b_scopes := EmptyString; b_end := 0 |}
              :: {| b_start := offset + p; b_scopes := EmptyString; b_end := 0 |}
              :: rest).


(* ===================================================================== *)
(** * Properties: the scanner moves forward *)
(* ===================================================================== *)

Section ScannerProgress.

Import Scanner.

Lemma skipWhile_ge test txt limit fuel :
  forall p, p <= skipWhile test txt limit fuel p.
Proof.
  induction fuel as [|fuel IH]; intros p; cbn [skipWhile]; [lia |].
  destruct (_ && _); [specialize (IH (p + 1)); lia | lia].
Qed.

Lemma scanHexDigits_ge txt count :
  forall p, p <= (scanHexDigits txt count p).1.
Proof.
  induction count as [|count IH]; intros p; cbn [scanHexDigits]; [simpl; lia |].
  destruct (isHexDigit _); [specialize (IH (p + 1)); lia | simpl; lia].
Qed.

Lemma scanString_ge txt fuel :
  forall p err, p <= (scanString txt fuel p err).1.
Proof.
  induction fuel as [|fuel IH]; intros p err; cbn [scanString]; [simpl; lia |].
  pose proof (scanHexDigits_ge txt 4 (p + 1 + 1)) as Hhex.
  destruct (scanHexDigits txt 4 (p + 1 + 1)) as [p3 ok]. cbn [fst] in Hhex.
  repeat match goal with
         | |- context [if ?b then _ else _] => destruct b
         end;
    cbn [fst]; try lia;
    match goal with
    | |- _ <= (scanString _ _ ?q ?e).1 => specialize (IH q e); lia
    end.
Qed.

Lemma skipDigits_ge txt p : p <= skipDigits txt p.
Proof. apply skipWhile_ge. Qed.

Ltac note_skipDigits txt :=
  repeat match goal with
         | |- context [skipDigits txt ?q] =>
             lazymatch goal with
             | _ : q <= skipDigits txt q |- _ => fail
             | _ => pose proof (skipDigits_ge txt q)
             end
         end.

Lemma scanNumber_gt txt p : p < (scanNumber txt p).1.
Proof.
  unfold scanNumber.
  repeat match goal with
         | |- context [if ?b then _ else _] => destruct b
         end; cbn [fst]; note_skipDigits txt; lia.
Qed.

Lemma scanBlockComment_ge txt fuel :
  forall p, p <= (scanBlockComment txt fuel p).1.
Proof.
  induction fuel as [|fuel IH]; intros p; cbn [scanBlockComment]; [simpl; lia |].
  repeat match goal with
         | |- context [if ?b then _ else _] => destruct b
         end;
    cbn [fst]; try lia;
    match goal with
    | |- _ <= (scanBlockComment _ _ ?q).1 => specialize (IH q); lia
    end.
Qed.

Lemma keywordOf_not_structural word :
  keywordOf word <> SyntaxKind.EOF /\
  keywordOf word <> SyntaxKind.OpenBraceToken.
Proof.
  unfold keywordOf.
  repeat match goal with
         | |- context [if ?b then _ else _] => destruct b
         end; split; discriminate.
Qed.

Ltac scan_cases sc :=
  unfold scan;
  pose proof (skipWhile_ge isWhiteSpace (text sc) (len (text sc) + 1)
                (fuelFrom (text sc) (pos sc)) (pos sc + 1));
  pose proof (skipWhile_ge (fun c => negb (isLineBreak c)) (text sc)
                (len (text sc)) (fuelFrom (text sc) (pos sc)) (pos sc + 2));
  pose proof (skipWhile_ge isUnknownContentCharacter (text sc) (len (text sc))
                (fuelFrom (text sc) (pos sc)) (pos sc));
  pose proof (scanString_ge (text sc) (fuelFrom (text sc) (pos sc)) (pos sc + 1)
                ScanError.None);
  pose proof (scanBlockComment_ge (text sc) (fuelFrom (text sc) (pos sc))
                (pos sc + 2));
  pose proof (scanNumber_gt (text sc) (pos sc + 1));
  pose proof (scanNumber_gt (text sc) (pos sc));
  pose proof (keywordOf_not_structural
                (substring (text sc) (pos sc)
                   (skipWhile isUnknownContentCharacter (text sc) (len (text sc))
                      (fuelFrom (text sc) (pos sc)) (pos sc))));
  destruct (scanString (text sc) (fuelFrom (text sc) (pos sc)) (pos sc + 1)
              ScanError.None);
  destruct (scanBlockComment (text sc) (fuelFrom (text sc) (pos sc)) (pos sc + 2));
  destruct (scanNumber (text sc) (pos sc + 1));
  destruct (scanNumber (text sc) (pos sc));
  cbn [fst] in *;
  repeat match goal with
         | |- context [if ?b then _ else _] => destruct b eqn:?
         end;
  cbn [text pos tokenOffset token].

Lemma scan_text sc : text (scan sc) = text sc.
Proof. scan_cases sc; reflexivity. Qed.

Lemma scan_at_end sc :
  len (text sc) <= pos sc ->
  pos (scan sc) = pos sc /\ token (scan sc) = SyntaxKind.EOF.
Proof.
  intros H. unfold scan.
  replace (pos sc >=? len (text sc)) with true by (symmetry; lia).
  split; reflexivity.
Qed.

Lemma scan_advances sc :
  pos sc < len (text sc) ->
  pos sc < pos (scan sc) /\
  tokenOffset (scan sc) = pos sc /\
  token (scan sc) <> SyntaxKind.EOF.
Proof.
  intros Hlt. scan_cases sc;
    try (exfalso; lia);
    (split; [lia | split; [reflexivity | try discriminate; tauto]]).
Qed.

Lemma scan_monotone sc : pos sc <= pos (scan sc).
Proof.
  destruct (Z.lt_ge_cases (pos sc) (len (text sc))) as [H | H].
  - apply scan_advances in H. lia.
  - apply scan_at_end in H. lia.
Qed.

Lemma scan_open_brace sc :
  token (scan sc) = SyntaxKind.OpenBraceToken ->
  pos (scan sc) = tokenOffset (scan sc) + 1.
Proof.
  scan_cases sc; try discriminate; try reflexivity.
  intros. exfalso. tauto.
Qed.

Lemma chr_charAt c s i : chr c (charCodeAt s i) = true -> charAt s i = [c].
Proof.
  unfold chr, charAt. destruct (charCodeAt s i) as [a|]; [| discriminate].
  intros H. apply Ascii.eqb_eq in H. subst a. reflexivity.
Qed.

(** An open-brace token is one character, a [{], at the position at which
    the scanner stood. *)
Lemma scan_open_brace_char sc :
  token (scan sc) = SyntaxKind.OpenBraceToken ->
  charAt (text sc) (pos sc) = ["{"%char] /\ pos (scan sc) = pos sc + 1.
Proof.
  scan_cases sc; try discriminate; try (intros; exfalso; tauto).
  intros _. split; [apply chr_charAt; assumption | reflexivity].
Qed.

End ScannerProgress.

(* ===================================================================== *)
(** * Properties: the matches of the sub-scanner *)
(* ===================================================================== *)

Section SubScanner.

Variable offset : Z.

Lemma popAdjacent_spec pos stack :
  forall cur,
    pushedBefore offset pos cur -> Forall (pushedBefore offset pos) stack ->
    Forall (pushedBefore offset pos) (popAdjacent cur stack).1 /\
    match (popAdjacent cur stack).2 with
    | Some found => offset <= b_start found /\ 2 <= pos
    | None => True
    end.
Proof.
  induction stack as [|next rest IH]; intros cur Hcur Hstack; cbn [popAdjacent].
  - split; [constructor | exact I].
  - apply Forall_cons in Hstack as [Hnext Hrest].
    destruct (b_start cur =? b_start next + 1) eqn:E; cbn [fst snd].
    + split; [exact Hrest |]. unfold pushedBefore in *. lia.
    + apply IH; assumption.
Qed.

Lemma popMatching_spec pos stack :
  Forall (pushedBefore offset pos) stack ->
  Forall (pushedBefore offset pos) (popMatching stack).1 /\
  match (popMatching stack).2 with
  | Some found => offset <= b_start found /\ 2 <= pos
  | None => True
  end.
Proof.
  destruct stack as [|cur rest]; intros H; cbn [popMatching].
  - split; [constructor | exact I].
  - apply Forall_cons in H as [Hcur Hrest]. apply popAdjacent_spec; assumption.
Qed.

Lemma pushedBefore_later pos pos' stack :
  pos <= pos' -> Forall (pushedBefore offset pos) stack -> Forall (pushedBefore offset pos') stack.
Proof.
  intros Hle H. eapply Forall_impl; [exact H |].
  unfold pushedBefore. intros b ?. lia.
Qed.

Lemma matchBrackets_wellMatched stringLiteral inString fuel :
  forall pos stack matched,
    0 <= pos ->
    Forall (pushedBefore offset pos) stack ->
    Forall (wellMatched offset) matched ->
    Forall (wellMatched offset)
      (matchBrackets stringLiteral offset inString fuel pos stack matched).
Proof.
  induction fuel as [|fuel IH]; intros pos stack matched Hpos Hstack Hm;
    cbn [matchBrackets]; [exact Hm |].
  destruct (pos <? len stringLiteral); [| exact Hm].
  destruct (isChar "{" (charAt stringLiteral pos)).
  - apply IH; [lia | | exact Hm].
    apply Forall_cons. split.
    + unfold pushedBefore. cbn. lia.
    + eapply pushedBefore_later; [| exact Hstack]. lia.
  - destruct (_ && _).
    + pose proof (popMatching_spec pos stack Hstack) as [Hs Hf].
      destruct (popMatching stack) as [stack' [found|]]; cbn [fst snd] in Hs, Hf.
      * apply IH; [lia | eapply pushedBefore_later; [| exact Hs]; lia |].
        apply Forall_app. split; [exact Hm |].
        apply Forall_cons. split; [| constructor].
        unfold wellMatched. cbn. lia.
      * apply IH; [lia | eapply pushedBefore_later; [| exact Hs]; lia | exact Hm].
    + apply IH; [lia | eapply pushedBefore_later; [| exact Hstack]; lia | exact Hm].
Qed.

Lemma insertSorted_Forall (P : Bracket -> Prop) b l :
  P b -> Forall P l -> Forall P (insertSorted b l).
Proof.
  intros Hb. induction 1 as [|x l Hx Hl IH]; cbn [insertSorted].
  - repeat constructor. exact Hb.
  - destruct (_ <? _); repeat (constructor; try assumption).
Qed.

Lemma insertSorted_nonempty b l : insertSorted b l <> [].
Proof. destruct l; cbn [insertSorted]; [| destruct (_ <? _)]; discriminate. Qed.

Lemma sortByStart_Forall (P : Bracket -> Prop) l :
  Forall P l -> Forall P (sortByStart l).
Proof.
  unfold sortByStart. assert (Forall P []) as Hacc by constructor.
  revert Hacc. generalize (@nil Bracket) as acc.
  induction l as [|b l IH]; intros acc Hacc Hl; cbn [fold_left]; [exact Hacc |].
  apply Forall_cons in Hl as [Hb Hl].
  apply IH; [apply insertSorted_Forall; assumption | exact Hl].
Qed.

Lemma fold_insertSorted_nonempty l :
  forall acc, acc <> [] -> fold_left (fun acc b => insertSorted b acc) l acc <> [].
Proof.
  induction l as [|b l IH]; intros acc Hacc; cbn [fold_left]; [exact Hacc |].
  apply IH, insertSorted_nonempty.
Qed.

Lemma sortByStart_nonempty l : l <> [] -> sortByStart l <> [].
Proof.
  destruct l as [|b l]; [congruence |]. intros _. unfold sortByStart.
  cbn [fold_left]. apply fold_insertSorted_nonempty, insertSorted_nonempty.
Qed.

Lemma filterNested_Forall (P : Bracket -> Prop) l :
  forall e, Forall P l -> Forall P (filterNested l e).
Proof.
  induction l as [|b l IH]; intros e Hl; cbn [filterNested]; [constructor |].
  apply Forall_cons in Hl as [Hb Hl].
  destruct (_ >? _); [constructor; [exact Hb |] |]; apply IH; exact Hl.
Qed.

Lemma pushBrackets_variableTokens inValue l :
  forall e acc,
    Forall (wellMatched offset) l -> Forall (variableToken offset) acc ->
    Forall (variableToken offset) (pushBrackets inValue false l e acc).1.
Proof.
  induction l as [|current l IH]; intros e acc Hl Hacc; cbn [pushBrackets];
    [exact Hacc |].
  apply Forall_cons in Hl as [[Hs He] Hl].
  assert (Forall (variableToken offset) (acc ++ [token_of_bracket current])) as Hacc'.
  { apply Forall_app. split; [exact Hacc |]. repeat constructor.
    exists (b_end current). split; [reflexivity | exact He]. }
  destruct (e <? b_start current); destruct l as [|next l'];
    try destruct (b_start next =? b_end current + 1);
    apply IH; assumption.
Qed.

Lemma createPostmanVariableScanner_top stringLiteral inValue :
  exists toks,
    createPostmanVariableScanner stringLiteral offset inValue false = Some toks /\
    Forall (variableToken offset) toks.
Proof.
  unfold createPostmanVariableScanner.
  pose proof (matchBrackets_wellMatched stringLiteral false
                (length stringLiteral) 0 [] [] ltac:(lia)
                ltac:(constructor) ltac:(constructor)) as Hm.
  destruct (matchBrackets _ _ _ _ _ _ _) as [|b m]; [eexists; split; [reflexivity | constructor] |].
  pose proof (pushBrackets_variableTokens inValue
                (filterNested (sortByStart (b :: m)) (-1)) (-1) []
                (filterNested_Forall _ _ _ (sortByStart_Forall _ _ Hm))
                ltac:(constructor)) as Hp.
  destruct (pushBrackets _ _ _ _ _) as [res1 end1]. cbn [fst] in Hp.
  rewrite andb_false_r. eexists; split; [reflexivity | exact Hp].
Qed.

Lemma createPostmanVariableScanner_inString stringLiteral inValue :
  0 <= offset ->
  is_Some (createPostmanVariableScanner stringLiteral offset inValue true).
Proof.
  intros Hoff. unfold createPostmanVariableScanner.
  pose proof (matchBrackets_wellMatched stringLiteral true
                (length stringLiteral) 0 [] [] ltac:(lia)
                ltac:(constructor) ltac:(constructor)) as Hm.
  destruct (matchBrackets _ _ _ _ _ _ _) as [|b m]; [eexists; reflexivity |].
  pose proof (sortByStart_Forall _ _ Hm) as Hs.
  pose proof (sortByStart_nonempty (b :: m) ltac:(discriminate)) as Hne.
  destruct (sortByStart (b :: m)) as [|b' s]; [congruence |].
  apply Forall_cons in Hs as [[Hb' _] _].
  cbn [filterNested].
  replace (b_start b' >? -1) with true by (symmetry; lia).
  destruct (negb _); destruct (pushBrackets _ _ _ _ _); destruct (_ && _);
    eexists; reflexivity.
Qed.

End SubScanner.

(* ===================================================================== *)
(** * Properties: the fuel of the bounded loops is enough *)
(* ===================================================================== *)

(** The loops over the characters of a text are given as many steps as
    the text has characters left; more steps change nothing. *)
Section EnoughFuel.

Lemma matchBrackets_enough_fuel stringLiteral offset inString fuel :
  forall extra pos stack matched,
    (Z.to_nat (len stringLiteral - pos) <= fuel)%nat ->
    matchBrackets stringLiteral offset inString (fuel + extra) pos stack matched
    = matchBrackets stringLiteral offset inString fuel pos stack matched.
Proof.
  induction fuel as [|fuel IH]; intros extra pos stack matched Hfuel.
  - destruct extra as [|extra]; [reflexivity |]. cbn [Nat.add matchBrackets].
    replace (pos <? len stringLiteral) with false by (symmetry; lia).
    reflexivity.
  - cbn [Nat.add matchBrackets].
    destruct (pos <? len stringLiteral) eqn:E; [| reflexivity].
    repeat match goal with
           | |- context [if ?b then _ else _] => destruct b
           | |- context [match popMatching ?s with _ => _ end] =>
               destruct (popMatching s) as [? [?|]]
           end; apply IH; lia.
Qed.

Lemma matchPositions_enough_fuel text startPosition fuel :
  forall extra position stack matched minmax,
    (Z.to_nat (len text - position) <= fuel)%nat ->
    matchPositions text startPosition (fuel + extra) position stack matched minmax
    = matchPositions text startPosition fuel position stack matched minmax.
Proof.
  induction fuel as [|fuel IH]; intros extra position stack matched minmax Hfuel.
  - destruct extra as [|extra]; [reflexivity |]. cbn [Nat.add matchPositions].
    replace (position <? len text) with false by (symmetry; lia).
    reflexivity.
  - cbn [Nat.add matchPositions].
    destruct (position <? len text) eqn:E; [| reflexivity].
    repeat match goal with
           | |- context [if ?b then _ else _] => destruct b
           | |- context [match popMatching ?s with _ => _ end] =>
               destruct (popMatching s) as [? [?|]]
           end; apply IH; lia.
Qed.

Lemma lineStart_enough_fuel documentText fuel :
  forall extra x,
    (Z.to_nat x <= fuel)%nat ->
    lineStart documentText (fuel + extra) x = lineStart documentText fuel x.
Proof.
  induction fuel as [|fuel IH]; intros extra x Hfuel.
  - destruct extra as [|extra]; [reflexivity |]. cbn [Nat.add lineStart].
    replace (x >? 0) with false by (symmetry; lia). reflexivity.
  - cbn [Nat.add lineStart].
    destruct ((x >? 0) && _); [apply IH; lia | reflexivity].
Qed.

Lemma lineEnd_enough_fuel documentText fuel :
  forall extra x,
    (Z.to_nat (len documentText - x) <= fuel)%nat ->
    lineEnd documentText (fuel + extra) x = lineEnd documentText fuel x.
Proof.
  induction fuel as [|fuel IH]; intros extra x Hfuel.
  - destruct extra as [|extra]; [reflexivity |]. cbn [Nat.add lineEnd].
    replace (x <? len documentText) with false by (symmetry; lia). reflexivity.
  - cbn [Nat.add lineEnd].
    destruct (x <? len documentText) eqn:E; cbn [andb]; [| reflexivity].
    destruct (negb _); [apply IH; lia | reflexivity].
Qed.

End EnoughFuel.

(* ===================================================================== *)
(** * Properties: the global variable of the delimiter search *)
(* ===================================================================== *)

(** The assignment to [length] in [findClosestDelimiter]: the one way in
    which the call fails, and what it leaves in the heap. *)
Lemma findClosestDelimiter_outcome h stringLiteral delimiter :
  match findClosestDelimiter h stringLiteral delimiter with
  | inl e => e = ReferenceError /\ global_length h = None
  | inr (h', _) =>
      lengthDeclared h /\ h' = assign_length h (Z.of_nat (length delimiter))
  end.
Proof.
  unfold findClosestDelimiter, lengthDeclared.
  destruct (global_length h) as [g|]; [| split; reflexivity].
  cbn [assign_length global_length].
  destruct (Z.of_nat (length delimiter)); try destruct (leastIndexOf _ _ _);
    (split; [eexists; reflexivity | reflexivity]).
Qed.

(** Where the global [length] exists, the call returns what its loop
    finds, and [length] is left with the number of delimiters. *)
Lemma findClosestDelimiter_declared h g stringLiteral delimiter :
  global_length h = Some g ->
  findClosestDelimiter h stringLiteral delimiter =
    inr (assign_length h (Z.of_nat (length delimiter)),
         match delimiter with
         | [] => -1
         | _ :: _ =>
             match leastIndexOf stringLiteral delimiter None with
             | Some l => l
             | None => -1
             end
         end).
Proof.
  intros Hg. unfold findClosestDelimiter. rewrite Hg.
  cbn [assign_length global_length].
  destruct delimiter as [|d ds]; [reflexivity |].
  cbn [length]. rewrite Nat2Z.inj_succ.
  destruct (Z.succ (Z.of_nat (length ds))) eqn:E; [lia | | lia].
  rewrite <- E, <- Nat2Z.inj_succ, Nat2Z.id.
  change (S (length ds)) with (length (d :: ds)). rewrite firstn_all.
  destruct (leastIndexOf _ _ _); reflexivity.
Qed.

(** Case analysis on a call of [findClosestDelimiter] in the goal: it
    threw, or it returned in the heap with [length] assigned. *)
Ltac destruct_findClosestDelimiter :=
  match goal with
  | |- context [findClosestDelimiter ?hh ?s ?d] =>
      let Hf := fresh "Hf" in
      pose proof (findClosestDelimiter_outcome hh s d) as Hf;
      destruct (findClosestDelimiter hh s d) as [? | [? ?]];
      [| destruct Hf as [_ ->]]
  end.

Lemma assign_length_frames h v : frames (assign_length h v) = frames h.
Proof. reflexivity. Qed.

Lemma assign_length_states h v : states (assign_length h v) = states h.
Proof. reflexivity. Qed.

(* ===================================================================== *)
(** * Properties: [tokenize] returns *)
(* ===================================================================== *)

Section TokenizeReturns.

Lemma Forall_last {A : Type} (P : A -> Prop) (ts : list A) :
  forall t, P t -> Forall P ts -> P (List.last ts t).
Proof.
  induction ts as [|a ts IH]; intros t Ht Hts; [exact Ht |].
  apply Forall_cons in Hts as [Ha Hts].
  destruct ts as [|b ts]; [exact Ha |].
  change (P (List.last (b :: ts) t)). apply IH; assumption.
Qed.

Lemma caseOpenBrace_outcome line languageId h sc ps lwc count offset toks :
  match caseOpenBrace line languageId h sc ps lwc count offset toks with
  | inr sw =>
      Scanner.text (sw_scanner sw) = Scanner.text sc /\
      (sw_scanner sw = sc \/ offset + 3 <= Scanner.pos (sw_scanner sw)) /\
      (global_length (sw_heap sw) = None <-> global_length h = None)
  | inl e =>
      e = ReferenceError /\ global_length h = None /\
      isPostman languageId = true
  end.
Proof.
  unfold caseOpenBrace, ParentsStackOps.push, new_ParentsStack, delimiterIndex.
  destruct ((count =? 2) && isPostman languageId) eqn:Hc;
    [| cbn; split; [reflexivity | split; [left; reflexivity | reflexivity]]].
  apply andb_prop in Hc as [_ Hp].
  match goal with
  | |- context [findClosestDelimiter ?hh ?s ?d] =>
      pose proof (findClosestDelimiter_outcome hh s d) as Hf;
      destruct (findClosestDelimiter hh s d) as [e | [h2 index]]
  end.
  - destruct Hf as [-> Hg]. cbn in Hg. auto.
  - destruct Hf as [[g Hg] ->]. cbn [global_length] in Hg.
    assert (Some (Z.of_nat (length delimiters)) = None <-> global_length h = None)
      as Hiff by (rewrite Hg; split; discriminate).
    destruct (index >=? 0);
      [| cbn; split; [reflexivity | split; [left; reflexivity | exact Hiff]]].
    destruct (createPostmanVariableScanner_top (offset - 1)
                (substring (stringFromDoubleBraces line (Scanner.getPosition sc)) 0
                   index) lwc)
      as [tokens [-> Htokens]].
    destruct tokens as [|t ts];
      [cbn; split; [reflexivity | split; [left; reflexivity | exact Hiff]] |].
    apply Forall_cons in Htokens as [Ht Hts].
    destruct (Forall_last _ ts t Ht Hts) as [e [-> He]].
    cbn. split; [reflexivity | split; [right; lia | exact Hiff]].
Qed.

Lemma caseStringLiteral_returns line languageId h sc ps lwc offset toks :
  -1 <= offset ->
  exists sw,
    caseStringLiteral line languageId h sc ps lwc offset toks = inr sw /\
    sw_scanner sw = sc /\ sw_heap sw = h.
Proof.
  intros Hoff. unfold caseStringLiteral.
  destruct (isPostman languageId); [| eexists; repeat split; reflexivity].
  match goal with
  | |- context [createPostmanVariableScanner ?s ?o ?v true] =>
      destruct (createPostmanVariableScanner_inString o s v ltac:(lia))
        as [pv ->]
  end.
  eexists; repeat split; reflexivity.
Qed.

Lemma switchKind_outcome line languageId h sc ps lwc count offset toks :
  -1 <= offset ->
  match switchKind line languageId h sc ps lwc count offset toks with
  | inr sw =>
      Scanner.text (sw_scanner sw) = Scanner.text sc /\
      (sw_scanner sw = sc \/ offset + 3 <= Scanner.pos (sw_scanner sw)) /\
      (global_length (sw_heap sw) = None <-> global_length h = None)
  | inl e =>
      e = ReferenceError /\ global_length h = None /\
      isPostman languageId = true
  end.
Proof.
  intros Hoff. unfold switchKind.
  destruct (Scanner.token sc);
    try (cbn; split; [reflexivity | split; [left; reflexivity | reflexivity]]).
  - apply caseOpenBrace_outcome.
  - destruct (caseStringLiteral_returns line languageId h sc ps lwc offset toks
                Hoff) as [sw [-> [Hsw Hh]]].
    rewrite Hsw, Hh. split; [reflexivity | split; [left; reflexivity | reflexivity]].
Qed.

Variables (comments : bool) (line : JSString) (state : loc).
Variables (offsetDelta : Z) (languageId : option string) (n : Z).
Hypothesis offsetDelta_nonneg : 0 <= offsetDelta.
Hypothesis n_range : 0 <= n <= 2.

(** An iteration ends the loop at the end of the line, or moves the
    scanner forward, or throws the [ReferenceError] of the delimiter
    search, which takes the placeholder-aware variant and a realm without
    a global [length]. *)
Lemma tokenize_step_progress h v :
  scanning line v ->
  match tokenize_step comments line state offsetDelta languageId n h v with
  | Break => len line <= Scanner.pos (scanner v)
  | Continue h' v' =>
      scanning line v' /\
      Scanner.pos (scanner v) < Scanner.pos (scanner v') /\
      Scanner.pos (scanner v) < len line /\
      (global_length h' = None <-> global_length h = None)
  | Threw e =>
      e = ReferenceError /\ global_length h = None /\
      isPostman languageId = true
  end.
Proof.
  intros [Htext [Hpos Hadj]]. unfold tokenize_step.
  destruct (Z.lt_ge_cases (Scanner.pos (scanner v)) (len line)) as [Hlt | Hge].
  - rewrite <- Htext in Hlt.
    destruct (scan_advances (scanner v) Hlt) as [Hadv [Hoff Htok]].
    rewrite bool_decide_eq_false_2 by exact Htok.
    unfold Scanner.getPosition.
    replace (offsetDelta + Scanner.pos (scanner v)
             =? offsetDelta + Scanner.pos (Scanner.scan (scanner v)))
      with false by (symmetry; lia).
    match goal with
    | |- context [switchKind ?l ?lang ?hh ?sc ?ps ?lwc ?c ?o ?tk] =>
        pose proof (switchKind_outcome l lang hh sc ps lwc c o tk) as Hsw;
        destruct (switchKind l lang hh sc ps lwc c o tk) as [e | sw]
    end.
    { apply Hsw. destruct (adjustOffset v); [specialize (Hadj eq_refl) |]; lia. }
    destruct Hsw as [Hswt [Hswp Hswg]].
    { destruct (adjustOffset v); [specialize (Hadj eq_refl) |]; lia. }
    unfold new_JSONState.
    cbn [scanner adjustOffset global_length].
    assert (Scanner.pos (scanner v) < Scanner.pos (sw_scanner sw)) as Hnew.
    { destruct Hswp as [-> | Hswp]; [exact Hadv |].
      destruct (adjustOffset v); [specialize (Hadj eq_refl) |]; lia. }
    rewrite Htext in Hlt.
    unfold scanning. cbn [scanner adjustOffset].
    split; [split; [rewrite Hswt, scan_text; exact Htext | split; lia] |].
    split; [lia | split; [lia | exact Hswg]].
  - rewrite <- Htext in Hge.
    destruct (scan_at_end (scanner v) Hge) as [_ Htok].
    rewrite bool_decide_eq_true_2 by exact Htok. rewrite <- Htext. exact Hge.
Qed.

(** The loop ends: it returns, or throws that [ReferenceError]. *)
Lemma tokenize_loop_outcome fuel :
  forall h v,
    scanning line v ->
    (Z.to_nat (len line - Scanner.pos (scanner v)) < fuel)%nat ->
    match tokenize_loop fuel comments line state offsetDelta languageId n h v with
    | Return h' _ => global_length h' = None <-> global_length h = None
    | Throw _ e =>
        e = ReferenceError /\ global_length h = None /\
        isPostman languageId = true
    | OutOfFuel _ => False
    end.
Proof.
  induction fuel as [|fuel IH]; intros h v Hv Hfuel; [lia |].
  cbn [tokenize_loop].
  pose proof (tokenize_step_progress h v Hv) as Hstep.
  destruct (tokenize_step _ _ _ _ _ _ _ _) as [h1 v1 | | e].
  - destruct Hstep as [Hv1 [Hadv [Hlt Hg]]].
    specialize (IH h1 v1 Hv1 ltac:(lia)).
    destruct (tokenize_loop _ _ _ _ _ _ _ _ _) as [h' r | h' e | h'];
      [rewrite <- Hg; exact IH | | exact IH].
    destruct IH as [He [Hn Hp]]. rewrite <- Hg. auto.
  - reflexivity.
  - exact Hstep.
Qed.

Lemma tokenize_loop_returns fuel h v :
  lengthDeclared h \/ isPostman languageId = false ->
  scanning line v ->
  (Z.to_nat (len line - Scanner.pos (scanner v)) < fuel)%nat ->
  exists h' r,
    tokenize_loop fuel comments line state offsetDelta languageId n h v
      = Return h' r.
Proof.
  intros Hrealm Hv Hfuel.
  pose proof (tokenize_loop_outcome fuel h v Hv Hfuel) as H.
  destruct (tokenize_loop _ _ _ _ _ _ _ _ _) as [h' r | h' e | h'];
    [do 2 eexists; reflexivity | | contradiction].
  destruct H as [_ [Hn Hp]].
  destruct Hrealm as [[g Hg] | Hplain]; congruence.
Qed.

End TokenizeReturns.

Lemma prefixLine_inserted err line :
  0 <= (prefixLine err line).2 <= 2.
Proof.
  unfold prefixLine. destruct err as [[]|]; cbn; lia.
Qed.

(** With an offset that is not negative, [tokenize] returns, or it throws
    the [ReferenceError] of the delimiter search; the latter takes the
    placeholder-aware variant and a realm without a global [length]. *)
Lemma tokenize_outcome comments line h state offsetDelta languageId :
  0 <= offsetDelta ->
  match tokenize comments line h state offsetDelta languageId with
  | Return h' _ => global_length h' = None <-> global_length h = None
  | Throw _ e =>
      e = ReferenceError /\ global_length h = None /\
      isPostman languageId = true
  | OutOfFuel _ => False
  end.
Proof.
  intros Hdelta. unfold tokenize.
  pose proof (prefixLine_inserted (scanError (state_at h state)) line) as Hn.
  destruct (prefixLine _ line) as [line' n]. cbn [snd] in Hn.
  unfold JSONStateOps.clone, new_JSONState.
  match goal with
  | |- context [tokenize_loop ?f ?c ?l ?s ?o ?lang ?k ?hh ?v] =>
      pose proof (tokenize_loop_outcome c l s o lang k Hdelta Hn f hh v) as H;
      destruct (tokenize_loop f c l s o lang k hh v) as [h' r | h' e | h']
  end.
  - apply H.
    + repeat split; cbn; [lia | discriminate].
    + cbn. unfold len. lia.
  - apply H.
    + repeat split; cbn; [lia | discriminate].
    + cbn. unfold len. lia.
  - apply H.
    + repeat split; cbn; [lia | discriminate].
    + cbn. unfold len. lia.
Qed.

Theorem tokenize_returns comments line h state offsetDelta languageId :
  0 <= offsetDelta ->
  lengthDeclared h \/ isPostman languageId = false ->
  exists h' r, tokenize comments line h state offsetDelta languageId = Return h' r.
Proof.
  intros Hdelta Hrealm.
  pose proof (tokenize_outcome comments line h state offsetDelta languageId
                Hdelta) as H.
  destruct (tokenize _ _ _ _ _ _) as [h' r | h' e | h'];
    [do 2 eexists; reflexivity | | contradiction].
  destruct H as [_ [Hn Hp]].
  destruct Hrealm as [[g Hg] | Hplain]; congruence.
Qed.

(* ===================================================================== *)
(** * Properties: [formatJSON] returns *)
(* ===================================================================== *)

Section FormatterTermination.

Lemma skipTrivia_spec fuel :
  forall sc lb,
    scanned sc ->
    let r := skipTrivia fuel sc lb in
    scanned r.1 /\
    Scanner.text r.1 = Scanner.text sc /\
    Scanner.pos sc <= Scanner.pos r.1 /\
    ((remaining sc < fuel)%nat -> isTrivia (Scanner.token r.1) = false) /\
    (Scanner.token sc = SyntaxKind.EOF -> r.1 = sc).
Proof.
  induction fuel as [|fuel IH]; intros sc lb Hsc; cbn [skipTrivia].
  - cbn [fst].
    repeat split; try (intros; first [assumption | reflexivity | lia]).
  - destruct (isTrivia (Scanner.token sc)) eqn:Htriv.
    + specialize (IH (Scanner.scan sc)
                    (lb || bool_decide (Scanner.token sc = SyntaxKind.LineBreakTrivia))
                    ltac:(eexists; reflexivity)).
      cbn zeta in IH. destruct IH as [H1 [H2 [H3 [H4 H5]]]].
      pose proof (scan_monotone sc) as Hmono.
      repeat split.
      * exact H1.
      * rewrite H2. apply scan_text.
      * lia.
      * intros Hfuel.
        destruct (Z.lt_ge_cases (Scanner.pos sc) (len (Scanner.text sc)))
          as [Hlt | Hge].
        -- apply H4. unfold remaining in *. rewrite scan_text.
           pose proof (scan_advances sc Hlt) as [Hadv _]. lia.
        -- apply scan_at_end in Hge as [_ Heof].
           rewrite (H5 Heof), Heof. reflexivity.
      * intros Heof. rewrite Heof in Htriv. discriminate.
    + cbn [fst].
      repeat split; try (intros; first [assumption | reflexivity | lia]).
Qed.

Lemma scanNext_spec st :
  let r := scanNext st in
  r.2 = Scanner.token (f_scanner r.1) /\
  scanned (f_scanner r.1) /\
  Scanner.text (f_scanner r.1) = Scanner.text (f_scanner st) /\
  Scanner.pos (f_scanner st) <= Scanner.pos (f_scanner r.1) /\
  isTrivia r.2 = false /\
  (r.2 <> SyntaxKind.EOF ->
   Scanner.pos (f_scanner st) < Scanner.pos (f_scanner r.1) /\
   Scanner.pos (f_scanner st) < len (Scanner.text (f_scanner st))).
Proof.
  unfold scanNext.
  pose proof (skipTrivia_spec
                (Scanner.fuelFrom (Scanner.text (Scanner.scan (f_scanner st)))
                   (Scanner.pos (Scanner.scan (f_scanner st))))
                (Scanner.scan (f_scanner st)) false
                ltac:(eexists; reflexivity)) as H.
  cbn zeta in H. destruct H as [H1 [H2 [H3 [H4 H5]]]].
  destruct (skipTrivia _ _ _) as [sc lb]. cbn [fst snd f_scanner] in *.
  pose proof (scan_monotone (f_scanner st)) as Hmono.
  rewrite scan_text in H2.
  repeat split; try assumption; try lia.
  - apply H4. unfold remaining, Scanner.fuelFrom. lia.
  - destruct (Z.lt_ge_cases (Scanner.pos (f_scanner st))
                (len (Scanner.text (f_scanner st)))) as [Hlt | Hge].
    + pose proof (scan_advances _ Hlt) as [Hadv _]. lia.
    + apply scan_at_end in Hge as [_ Heof]. rewrite (H5 Heof) in H.
      contradiction.
  - destruct (Z.lt_ge_cases (Scanner.pos (f_scanner st))
                (len (Scanner.text (f_scanner st)))) as [Hlt | Hge]; [exact Hlt |].
    apply scan_at_end in Hge as [_ Heof]. rewrite (H5 Heof) in H.
    contradiction.
Qed.

Lemma matchPositions_max text startPosition fuel :
  forall position stack matched minmax,
    0 <= position ->
    Forall (pushedBefore startPosition position) stack ->
    (forall mn mx, minmax = Some (mn, mx) -> startPosition + 3 <= mx) ->
    forall mn mx,
      (matchPositions text startPosition fuel position stack matched minmax).2
        = Some (mn, mx) ->
      startPosition + 3 <= mx.
Proof.
  induction fuel as [|fuel IH]; intros position stack matched minmax Hpos Hstack Hmm;
    cbn [matchPositions]; [exact Hmm |].
  destruct (position <? len text); [| exact Hmm].
  destruct (isChar "{" (charAt text position)).
  - apply IH; [lia | | exact Hmm].
    apply Forall_cons. split.
    + unfold pushedBefore. cbn. lia.
    + eapply pushedBefore_later; [| exact Hstack]. lia.
  - destruct (_ && _).
    + pose proof (popMatching_spec startPosition position stack Hstack) as [Hs Hf].
      destruct (popMatching stack) as [stack' [found|]]; cbn [fst snd] in Hs, Hf.
      * apply IH; [lia | eapply pushedBefore_later; [| exact Hs]; lia |].
        intros mn mx. destruct minmax as [[mn0 mx0]|]; intros [= <- <-].
        -- specialize (Hmm mn0 mx0 eq_refl). lia.
        -- lia.
      * apply IH; [lia | eapply pushedBefore_later; [| exact Hs]; lia | exact Hmm].
    + apply IH; [lia | eapply pushedBefore_later; [| exact Hstack]; lia | exact Hmm].
Qed.

Lemma getPostmanVariablePosition_spec env sc :
  match (getPostmanVariablePosition env sc).2 with
  | Some (s, e) =>
      Scanner.getTokenOffset sc + formatTextStart env + 2 <= e /\
      (getPostmanVariablePosition env sc).1
        = Scanner.scan (Scanner.setPosition sc e)
  | None => (getPostmanVariablePosition env sc).1 = sc
  end.
Proof.
  unfold getPostmanVariablePosition.
  destruct (len _ =? 0); [reflexivity |].
  match goal with
  | |- context [matchPositions ?t ?sp ?f 0 [] [] None] =>
      pose proof (matchPositions_max t sp f 0 [] [] None ltac:(lia)
                    ltac:(constructor) ltac:(discriminate)) as Hmax;
      destruct (matchPositions t sp f 0 [] [] None) as [[|m ms] [[mn mx]|]]
  end; try reflexivity.
  cbn [snd] in Hmax. specialize (Hmax mn mx eq_refl).
  destruct (negb _); [reflexivity |].
  cbn [fst snd]. split; [lia | reflexivity].
Qed.

Section Step.

Variable env : FormatEnv.
Hypothesis formatTextStart_nonneg : 0 <= formatTextStart env.

Lemma searchPostmanVariable_spec st firstToken firstTokenEnd secondToken :
  scanned (f_scanner st) ->
  secondToken = Scanner.token (f_scanner st) ->
  let r := searchPostmanVariable env st firstToken firstTokenEnd secondToken in
  Scanner.text (f_scanner r.1.1.1) = Scanner.text (f_scanner st) /\
  Scanner.pos (f_scanner st) <= Scanner.pos (f_scanner r.1.1.1) /\
  (secondToken = SyntaxKind.EOF -> r.2 = SyntaxKind.EOF).
Proof.
  intros [sc0 Hsc] Htok. unfold searchPostmanVariable.
  destruct (negb (lineBreak st)
            && bool_decide (firstToken = SyntaxKind.OpenBraceToken)
            && bool_decide (firstToken = secondToken)) eqn:Hcond;
    [| cbn; repeat split; [lia | trivial]].
  apply andb_prop in Hcond as [Hcond H2]. apply andb_prop in Hcond as [_ H1].
  apply bool_decide_eq_true in H1, H2. subst firstToken.
  pose proof (getPostmanVariablePosition_spec env (f_scanner st)) as Hpv.
  destruct (getPostmanVariablePosition env (f_scanner st)) as [sc [[s e]|]];
    cbn [fst snd] in Hpv.
  - destruct Hpv as [He ->].
    pose proof (scanNext_spec
                  (with_scanner st (Scanner.scan (Scanner.setPosition (f_scanner st) e))))
      as Hnext.
    cbn zeta in Hnext. destruct Hnext as [_ [_ [Htext [Hpos _]]]].
    destruct (scanNext _) as [st' tok']. cbn [fst snd f_scanner with_scanner] in *.
    pose proof (scan_monotone (Scanner.setPosition (f_scanner st) e)) as Hmono.
    rewrite scan_text in Htext. cbn [Scanner.setPosition Scanner.text Scanner.pos] in *.
    assert (Scanner.pos (f_scanner st) = Scanner.tokenOffset (f_scanner st) + 1)
      as Hlen.
    { rewrite Hsc. apply scan_open_brace. rewrite <- Hsc, <- Htok. symmetry.
      exact H2. }
    unfold Scanner.getTokenOffset in He.
    repeat split; [exact Htext | lia |].
    intros Heof. rewrite Heof in H2. discriminate.
  - subst sc. cbn. repeat split; [lia |].
    intros Heof. rewrite Heof in H2. discriminate.
Qed.

Lemma addEdit_scanner text startOffset endOffset st :
  f_scanner (addEdit env text startOffset endOffset st) = f_scanner st /\
  lineBreak (addEdit env text startOffset endOffset st) = lineBreak st.
Proof. unfold addEdit. destruct (_ && _); split; reflexivity. Qed.

Lemma sameLineComments_spec fuel :
  forall st firstTokenEnd replaceContent secondToken,
    let r := sameLineComments fuel env st firstTokenEnd replaceContent
               secondToken in
    Scanner.text (f_scanner r.1.1.1) = Scanner.text (f_scanner st) /\
    Scanner.pos (f_scanner st) <= Scanner.pos (f_scanner r.1.1.1) /\
    (secondToken = SyntaxKind.EOF -> r.2 = SyntaxKind.EOF) /\
    ((remaining (f_scanner st) < fuel)%nat ->
     negb (lineBreak r.1.1.1) && isComment r.2 = false).
Proof.
  induction fuel as [|fuel IH]; intros st fte rc tok; cbn [sameLineComments].
  - cbn [fst snd]. repeat split; try (intros; first [assumption | lia]).
  - destruct (negb (lineBreak st) && isComment tok) eqn:Hcond;
      [| cbn [fst snd]; repeat split; try (intros; first [assumption | lia])].
    destruct (addEdit_scanner [" "%char] fte
                (Scanner.getTokenOffset (f_scanner st) + formatTextStart env) st)
      as [Hsc Hlb].
    set (st1 := addEdit env [" "%char] fte
                  (Scanner.getTokenOffset (f_scanner st) + formatTextStart env) st)
      in *.
    pose proof (scanNext_spec st1) as Hnext. cbn zeta in Hnext.
    destruct Hnext as [_ [_ [Htext [Hpos [_ Hadv]]]]].
    destruct (scanNext st1) as [st2 tok2]. cbn [fst snd] in *.
    match goal with
    | |- context [sameLineComments fuel env st2 ?a ?b tok2] =>
        specialize (IH st2 a b tok2); cbn zeta in IH;
        destruct IH as [I1 [I2 [I3 I4]]];
        destruct (sameLineComments fuel env st2 a b tok2) as [[[st3 fte3] rc3] tok3]
    end.
    cbn [fst snd] in *. rewrite Hsc in *.
    repeat split.
    + congruence.
    + lia.
    + intros Heof. rewrite Heof in Hcond. rewrite andb_false_r in Hcond.
      discriminate.
    + intros Hfuel.
      destruct (bool_decide (tok2 = SyntaxKind.EOF)) eqn:Heof.
      * apply bool_decide_eq_true in Heof. rewrite (I3 Heof).
        apply andb_false_r.
      * apply bool_decide_eq_false in Heof. destruct (Hadv Heof) as [Hlt Hlen].
        apply I4. unfold remaining in *. rewrite Htext. lia.
Qed.

Lemma switchFirstToken_scanner st firstToken secondToken replaceContent :
  f_scanner (switchFirstToken env st firstToken secondToken replaceContent).1
  = f_scanner st.
Proof.
  unfold switchFirstToken.
  destruct firstToken;
    repeat match goal with
           | |- context [if ?b then _ else _] => destruct b
           end; reflexivity.
Qed.

Lemma chooseReplaceContent_scanner st firstToken secondToken replaceContent :
  f_scanner (chooseReplaceContent env st firstToken secondToken replaceContent).1
  = f_scanner st.
Proof.
  unfold chooseReplaceContent.
  repeat match goal with
         | |- context [if ?b then _ else _] => destruct b
         end; try reflexivity.
  apply switchFirstToken_scanner.
Qed.

Lemma format_step_progress st firstToken :
  let r := format_step env st firstToken in
  Scanner.text (f_scanner r.1) = Scanner.text (f_scanner st) /\
  (r.2 <> SyntaxKind.EOF ->
   Scanner.pos (f_scanner st) < Scanner.pos (f_scanner r.1) /\
   Scanner.pos (f_scanner st) < len (Scanner.text (f_scanner st))).
Proof.
  unfold format_step.
  pose proof (scanNext_spec st) as H1. cbn zeta in H1.
  destruct H1 as [Htok1 [Hscanned1 [Htext1 [Hpos1 [_ Hadv1]]]]].
  destruct (scanNext st) as [st1 secondToken]. cbn [fst snd] in *.
  pose proof (searchPostmanVariable_spec st1 firstToken
                (Scanner.getTokenOffset (f_scanner st)
                 + Scanner.getTokenLength (f_scanner st) + formatTextStart env)
                secondToken Hscanned1 Htok1) as H2.
  cbn zeta in H2. destruct H2 as [Htext2 [Hpos2 Heof2]].
  destruct (searchPostmanVariable _ _ _ _ _) as [[[st2 ft2] fte2] tok2].
  cbn [fst snd] in *.
  pose proof (sameLineComments_spec
                (S (List.length (Scanner.text (f_scanner st2))))
                st2 fte2 [] tok2) as H3.
  cbn zeta in H3. destruct H3 as [Htext3 [Hpos3 [Heof3 _]]].
  destruct (sameLineComments _ _ _ _ _ _) as [[[st3 fte3] rc3] tok3].
  cbn [fst snd] in *.
  pose proof (chooseReplaceContent_scanner st3 ft2 tok3 rc3) as H4.
  destruct (chooseReplaceContent _ _ _ _ _) as [st4 rc4].
  cbn [fst snd] in *.
  destruct (addEdit_scanner rc4 fte3
              (Scanner.getTokenOffset (f_scanner st4) + formatTextStart env) st4)
    as [-> _].
  rewrite H4. split; [congruence |].
  intros Hne.
  assert (secondToken <> SyntaxKind.EOF) as Hne1 by auto.
  destruct (Hadv1 Hne1). lia.
Qed.

Lemma format_loop_returns fuel :
  forall st firstToken,
    (firstToken <> SyntaxKind.EOF -> (remaining (f_scanner st) < fuel)%nat) ->
    is_Some (format_loop fuel env st firstToken).
Proof.
  induction fuel as [|fuel IH]; intros st tok Hfuel; cbn [format_loop].
  - destruct (bool_decide (tok = SyntaxKind.EOF)) eqn:E; [eexists; reflexivity |].
    apply bool_decide_eq_false in E. specialize (Hfuel E). lia.
  - destruct (bool_decide (tok = SyntaxKind.EOF)) eqn:E; [eexists; reflexivity |].
    apply bool_decide_eq_false in E. specialize (Hfuel E).
    pose proof (format_step_progress st tok) as Hstep. cbn zeta in Hstep.
    destruct Hstep as [Htext Hadv].
    destruct (format_step env st tok) as [st' tok']. cbn [fst snd] in *.
    apply IH. intros Hne. destruct (Hadv Hne) as [Hlt Hlen].
    unfold remaining in *. rewrite Htext. lia.
Qed.

End Step.

Lemma lineStart_nonneg documentText fuel :
  forall x, 0 <= x -> 0 <= lineStart documentText fuel x.
Proof.
  induction fuel as [|fuel IH]; intros x Hx; cbn [lineStart]; [exact Hx |].
  destruct ((x >? 0) && _) eqn:E; [| exact Hx].
  apply andb_prop in E as [E _]. apply IH. lia.
Qed.

(** X15: [formatJSON] returns its edits for every text and options when
    there is no range or the range starts at a non-negative offset: its
    main loop ends (every iteration moves the scanner forward). *)
Theorem formatJSON_returns documentText range options :
  match range with Some r => 0 <= r_offset r | None => True end ->
  is_Some (formatJSON documentText range options).
Proof.
  intros Hrange. unfold formatJSON.
  set (env := formatEnv documentText range options).
  assert (0 <= formatTextStart env) as Hfts.
  { subst env. unfold formatEnv. destruct range as [r|]; cbn [formatTextStart].
    - apply lineStart_nonneg. exact Hrange.
    - lia. }
  match goal with
  | |- context [scanNext ?s] =>
      pose proof (scanNext_spec s) as H1; cbn zeta in H1;
      destruct H1 as [_ [_ [Htext [Hpos _]]]];
      destruct (scanNext s) as [st1 firstToken]
  end.
  cbn [fst snd f_scanner Scanner.createScanner Scanner.text Scanner.pos] in *.
  apply format_loop_returns; [exact Hfts |].
  intros _.
  assert (f_scanner
            (if negb (bool_decide (firstToken = SyntaxKind.EOF))
             then addEdit env (JS.repeat (indentValue env) (initialIndentLevel env))
                    (formatTextStart env)
                    (Scanner.getTokenOffset (f_scanner st1) + formatTextStart env)
                    st1
             else st1) = f_scanner st1) as ->.
  { destruct (negb _); [apply addEdit_scanner | reflexivity]. }
  unfold remaining. rewrite Htext. unfold len. lia.
Qed.

End FormatterTermination.

(* ===================================================================== *)
(** * Properties: the delimiter search of the double-brace path *)
(* ===================================================================== *)

Section ClosestDelimiter.

Lemma indexOf_from_line_feed (s : JSString) (i : Z) :
  i <= indexOf_from (s ++ [LF]) [LF] i.
Proof.
  revert i. induction s as [|c s IH]; intros i.
  - cbn [app indexOf_from startsWith]. rewrite Ascii.eqb_refl. cbn [andb]. lia.
  - cbn [app indexOf_from startsWith].
    destruct (Ascii.eqb LF c); cbn [andb]; [lia |].
    specialize (IH (i + 1)). lia.
Qed.

Lemma leastIndexOf_nonneg (s : JSString) (ds : list JSString) :
  forall acc l,
    (forall a, acc = Some a -> 0 <= a) ->
    leastIndexOf s ds acc = Some l -> 0 <= l.
Proof.
  induction ds as [|d ds IH]; intros acc l Hacc; simpl.
  - intros ->. apply Hacc. reflexivity.
  - apply IH. intros a.
    destruct ((match acc with Some l0 => l0 >? indexOf s d | None => true end)
              && (indexOf s d >? -1)) eqn:E.
    + intros [= <-]. apply andb_prop in E as [_ E]. lia.
    + apply Hacc.
Qed.

Lemma leastIndexOf_keeps (s : JSString) (ds : list JSString) :
  forall acc, is_Some acc -> is_Some (leastIndexOf s ds acc).
Proof.
  induction ds as [|d ds IH]; intros acc Hacc; simpl; [exact Hacc |].
  apply IH. destruct (_ && _); [eexists; reflexivity | exact Hacc].
Qed.

Lemma leastIndexOf_finds (s : JSString) (ds : list JSString) (d : JSString) :
  forall acc, d ∈ ds -> 0 <= indexOf s d -> is_Some (leastIndexOf s ds acc).
Proof.
  induction ds as [|d' ds IH]; intros acc Hin Hd.
  - inversion Hin.
  - simpl. apply elem_of_cons in Hin as [<- | Hin].
    + apply leastIndexOf_keeps.
      destruct acc as [a|]; simpl.
      * destruct ((a >? indexOf s d) && (indexOf s d >? -1));
          eexists; reflexivity.
      * replace (indexOf s d >? -1) with true by (symmetry; lia).
        eexists; reflexivity.
    + apply IH; assumption.
Qed.

Lemma findClosestDelimiter_line_feed (h : Heap) (s : JSString) :
  match findClosestDelimiter h (s ++ [LF]) delimiters with
  | inl _ => True
  | inr (_, index) => 0 <= index
  end.
Proof.
  destruct (global_length h) as [g|] eqn:Hg.
  - rewrite (findClosestDelimiter_declared h g _ _ Hg). unfold delimiters.
    destruct (leastIndexOf_finds (s ++ [LF])
                [[","%char]; [":"%char]; ["]"%char]; [LF]] [LF] None)
      as [l Hl].
    + repeat constructor.
    + unfold indexOf. apply indexOf_from_line_feed.
    + rewrite Hl. eapply leastIndexOf_nonneg; [| exact Hl]. discriminate.
  - unfold findClosestDelimiter. rewrite Hg. exact I.
Qed.

End ClosestDelimiter.

(** C10 (first half): in the double-brace path of [tokenize] the line feed
    appended to the lookahead string is among the delimiters searched for,
    so an index that [findClosestDelimiter] returns there is not
    negative, for every line, every scanner position and every heap. *)
Lemma delimiterIndex_nonneg (h h' : Heap) (line : JSString)
    (position index : Z) :
  delimiterIndex h line position = inr (h', index) -> 0 <= index.
Proof.
  unfold delimiterIndex, stringFromDoubleBraces. intros H.
  pose proof (findClosestDelimiter_line_feed h (substrFrom line (position - 2)))
    as Hf.
  rewrite H in Hf. exact Hf.
Qed.

Lemma caseOpenBrace_double_brace_type
    (line : JSString) (languageId : option string) (h : Heap)
    (sc : Scanner.t) (parents0 : option loc) (lastWasColon0 : bool)
    (offset : Z) (toks : list IToken) (sw : Switched) :
  isPostman languageId = true ->
  caseOpenBrace line languageId h sc parents0 lastWasColon0 2 offset toks
    = inr sw ->
  sw_type sw = EmptyString.
Proof.
  intros Hp. unfold caseOpenBrace.
  destruct (ParentsStackOps.push h parents0 JSONParent.Object) as [h1 p1].
  rewrite Hp. cbn [andb Z.eqb Pos.eqb].
  destruct (delimiterIndex h1 line (Scanner.getPosition sc))
    as [e | [h2 index]] eqn:Hd; [discriminate |].
  apply delimiterIndex_nonneg in Hd.
  replace (index >=? 0) with true by (symmetry; lia).
  destruct (createPostmanVariableScanner _ _ _ _) as [[|t ts]|];
    [| |discriminate].
  - intros [= <-]. reflexivity.
  - destruct (endIndex (List.last ts t)); [| discriminate].
    intros [= <-]. reflexivity.
Qed.



(* ===================================================================== *)
(** * Properties: [tokenize] leaves the objects it is given alone *)
(* ===================================================================== *)

Section HeapExtension.

Lemma heap_extends_refl h : heap_extends h h.
Proof. split; reflexivity. Qed.

Lemma heap_extends_trans h1 h2 h3 :
  heap_extends h1 h2 -> heap_extends h2 h3 -> heap_extends h1 h3.
Proof. intros [? ?] [? ?]. split; etransitivity; eassumption. Qed.

Lemma heap_extends_unchanged h h' : heap_extends h h' -> unchanged h h'.
Proof.
  intros [Hf Hs]. split; intros a x Hx.
  - eapply prefix_lookup_Some; eassumption.
  - eapply prefix_lookup_Some; eassumption.
Qed.

Lemma heap_extends_states_length h h' :
  heap_extends h h' -> (length (states h) <= length (states h'))%nat.
Proof. intros [_ Hs]. apply prefix_length, Hs. Qed.

Lemma new_JSONState_extends h st err lwc ps :
  heap_extends h (new_JSONState h st err lwc ps).1.
Proof. split; simpl; [reflexivity | apply prefix_app_r; reflexivity]. Qed.

Lemma new_JSONState_loc h st err lwc ps :
  (new_JSONState h st err lwc ps).2 = length (states h) /\
  length (states (new_JSONState h st err lwc ps).1) = S (length (states h)).
Proof. simpl. rewrite length_app. simpl. lia. Qed.

Lemma push_extends h ps ty :
  heap_extends h (ParentsStackOps.push h ps ty).1.
Proof. split; simpl; [apply prefix_app_r; reflexivity | reflexivity]. Qed.

Lemma caseOpenBrace_extends line languageId h sc ps lwc count offset toks sw :
  caseOpenBrace line languageId h sc ps lwc count offset toks = inr sw ->
  heap_extends h (sw_heap sw).
Proof.
  unfold caseOpenBrace, delimiterIndex.
  pose proof (push_extends h ps JSONParent.Object) as He.
  destruct (ParentsStackOps.push h ps JSONParent.Object) as [h1 p1].
  simpl in He.
  destruct (_ && _); [| intros [= <-]; exact He].
  destruct_findClosestDelimiter; [discriminate |].
  repeat match goal with
         | |- context [if ?b then _ else _] => destruct b
         | |- context [match ?x with _ => _ end] => destruct x
         end;
    try discriminate; intros [= <-]; exact He.
Qed.

Lemma caseStringLiteral_heap line languageId h sc ps lwc offset toks sw :
  caseStringLiteral line languageId h sc ps lwc offset toks = inr sw ->
  sw_heap sw = h.
Proof.
  unfold caseStringLiteral.
  destruct (isPostman languageId);
    [destruct (createPostmanVariableScanner _ _ _ _); [| discriminate] |];
    intros [= <-]; reflexivity.
Qed.

Lemma switchKind_extends line languageId h sc ps lwc count offset toks sw :
  switchKind line languageId h sc ps lwc count offset toks = inr sw ->
  heap_extends h (sw_heap sw).
Proof.
  unfold switchKind.
  destruct (Scanner.token sc);
    try (intros [= <-]; apply heap_extends_refl).
  - apply caseOpenBrace_extends.
  - pose proof (push_extends h ps JSONParent.Array) as He.
    destruct (ParentsStackOps.push h ps JSONParent.Array) as [h1 p1].
    intros [= <-]. exact He.
  - intros H. apply caseStringLiteral_heap in H. rewrite H.
    apply heap_extends_refl.
Qed.

Lemma tokenize_step_extends comments line state offsetDelta languageId n h v h' v' :
  tokenize_step comments line state offsetDelta languageId n h v
    = Continue h' v' ->
  heap_extends h h' /\
  (length (states h) <= endState (ret v') < length (states h'))%nat.
Proof.
  unfold tokenize_step.
  destruct (bool_decide _); [discriminate |].
  destruct (_ =? _); [discriminate |].
  destruct (switchKind _ _ _ _ _ _ _ _ _) as [e | sw] eqn:Hsw; [discriminate |].
  apply switchKind_extends in Hsw.
  pose proof (new_JSONState_extends (sw_heap sw)
                (JSONStateOps.getStateData (sw_heap sw) state)
                (Some (Scanner.getTokenError (sw_scanner sw)))
                (sw_lastWasColon sw) (sw_parents sw)) as He.
  pose proof (new_JSONState_loc (sw_heap sw)
                (JSONStateOps.getStateData (sw_heap sw) state)
                (Some (Scanner.getTokenError (sw_scanner sw)))
                (sw_lastWasColon sw) (sw_parents sw)) as [Hl Hn].
  destruct (new_JSONState _ _ _ _ _) as [h2 e2]. simpl in He, Hl, Hn.
  intros [= <- <-]. simpl.
  split; [eapply heap_extends_trans; eassumption |].
  apply heap_extends_states_length in Hsw. lia.
Qed.

Lemma tokenize_loop_extends fuel comments line state offsetDelta languageId n :
  forall h v,
    heap_extends h (outcome_heap
      (tokenize_loop fuel comments line state offsetDelta languageId n h v)) /\
    forall h' r,
      tokenize_loop fuel comments line state offsetDelta languageId n h v
        = Return h' r ->
      endState r = endState (ret v) /\ h' = h \/
      (length (states h) <= endState r < length (states h'))%nat.
Proof.
  induction fuel as [|fuel IH]; intros h v; simpl.
  - split; [apply heap_extends_refl | discriminate].
  - destruct (tokenize_step _ _ _ _ _ _ _ _) as [h1 v1 | | e] eqn:Hstep; simpl.
    + apply tokenize_step_extends in Hstep as [He Hfresh].
      destruct (IH h1 v1) as [IH1 IH2]. split.
      * eapply heap_extends_trans; eassumption.
      * intros h' r Hr. right.
        pose proof IH1 as IH1'. rewrite Hr in IH1'. simpl in IH1'.
        apply heap_extends_states_length in IH1'.
        apply heap_extends_states_length in He.
        destruct (IH2 h' r Hr) as [[-> ->] | ?]; lia.
    + split; [apply heap_extends_refl |].
      intros h' r [= <- <-]. left. split; reflexivity.
    + split; [apply heap_extends_refl | discriminate].
Qed.

End HeapExtension.

(** C8: [tokenize] never writes to an object it was given.  Whatever the
    call does (return or throw), every [JSONState] of the heap before the
    call, the input state among them, has the same [scanError],
    [lastWasColon] and [parents] (and embedded state) after it, and every
    [ParentsStack] frame has the same [parent] and [type]; and when the
    call returns, [endState] is a [JSONState] that did not exist before. *)
Theorem tokenize_never_mutates_its_input
    (comments : bool) (line : JSString) (h : Heap) (state : loc)
    (offsetDelta : Z) (languageId : option string) :
  unchanged h
    (outcome_heap (tokenize comments line h state offsetDelta languageId)) /\
  match tokenize comments line h state offsetDelta languageId with
  | Return h' r => newly_constructed h h' (endState r)
  | _ => True
  end.
Proof.
  unfold tokenize.
  destruct (prefixLine _ line) as [line' n].
  pose proof (new_JSONState_extends h (_state (state_at h state))
                (scanError (state_at h state)) (lastWasColon (state_at h state))
                (parents (state_at h state))) as He.
  pose proof (new_JSONState_loc h (_state (state_at h state))
                (scanError (state_at h state)) (lastWasColon (state_at h state))
                (parents (state_at h state))) as [Hl Hn].
  unfold JSONStateOps.clone.
  destruct (new_JSONState _ _ _ _ _) as [h1 cloned]. simpl in He, Hl, Hn.
  match goal with
  | |- context [tokenize_loop ?f ?c ?l ?s ?o ?lang ?k ?hh ?v] =>
      destruct (tokenize_loop_extends f c l s o lang k hh v) as [H1 H2];
      destruct (tokenize_loop f c l s o lang k hh v) as [h' r | h' e | h'] eqn:Hrun
  end; simpl in H1.
  - split.
    + apply heap_extends_unchanged. eapply heap_extends_trans; eassumption.
    + pose proof (heap_extends_states_length _ _ H1) as Hlen.
      assert (length (states h) <= endState r < length (states h'))%nat as Hr.
      { destruct (H2 h' r eq_refl) as [[-> ->] | ?]; simpl; lia. }
      split.
      * apply lookup_ge_None. lia.
      * apply lookup_lt_is_Some. lia.
  - split; [| exact I].
    apply heap_extends_unchanged. eapply heap_extends_trans; eassumption.
  - split; [| exact I].
    apply heap_extends_unchanged. eapply heap_extends_trans; eassumption.
Qed.

(* ===================================================================== *)
(** * Properties: equality of line states *)
(* ===================================================================== *)

Section StackEquality.

Variable h : Heap.
Hypothesis h_wellFormed : wellFormed h.

Lemma frame_parent_lt (a p : loc) : frame_parent h a = Some p -> (p < a)%nat.
Proof.
  unfold frame_parent. destruct (frames h !! a) as [f|] eqn:E; [| discriminate].
  intros Hp. eapply h_wellFormed; eassumption.
Qed.

Lemma frame_parent_allocated (a : loc) :
  (a < length (frames h))%nat -> allocated h (frame_parent h a).
Proof.
  intros Ha. destruct (frame_parent h a) as [p|] eqn:E; [| exact I].
  apply frame_parent_lt in E. cbn. lia.
Qed.

Lemma stackTypes_enough_fuel fuel :
  forall ps,
    match ps with Some a => (a < fuel)%nat | None => True end ->
    stackTypes (S fuel) h ps = stackTypes fuel h ps.
Proof.
  induction fuel as [|fuel IH]; intros [a|] Ha; try reflexivity; [lia |].
  change (frame_type h a :: stackTypes (S fuel) h (frame_parent h a)
          = frame_type h a :: stackTypes fuel h (frame_parent h a)).
  f_equal. apply IH.
  destruct (frame_parent h a) as [p|] eqn:E; [| exact I].
  apply frame_parent_lt in E. lia.
Qed.

Lemma markers_cons (a : loc) :
  (a < length (frames h))%nat ->
  markers h (Some a) = frame_type h a :: markers h (frame_parent h a).
Proof.
  intros Ha. unfold markers.
  destruct (length (frames h)) as [|n] eqn:E; [lia |].
  cbn [stackTypes]. f_equal. symmetry. apply stackTypes_enough_fuel.
  destruct (frame_parent h a) as [p|] eqn:Ep; [| exact I].
  apply frame_parent_lt in Ep. lia.
Qed.

Lemma prefixRelated_cons t1 t2 l1 l2 :
  prefixRelated (t1 :: l1) (t2 :: l2) <-> t1 = t2 /\ prefixRelated l1 l2.
Proof.
  unfold prefixRelated. split.
  - intros [H | H]; pose proof (prefix_cons_inv_1 _ _ _ _ H);
      pose proof (prefix_cons_inv_2 _ _ _ _ H); subst; auto.
  - intros [-> [H | H]]; [left | right]; apply prefix_cons; exact H.
Qed.

Lemma prefixRelated_nil_l l : prefixRelated [] l.
Proof. left. apply prefix_nil. Qed.

Lemma prefixRelated_nil_r l : prefixRelated l [].
Proof. right. apply prefix_nil. Qed.

Lemma markers_null : markers h None = [].
Proof. unfold markers. destruct (length (frames h)); reflexivity. Qed.

Lemma equals_loop_spec fuel :
  forall a b,
    allocated h a -> allocated h b ->
    (forall la lb, a = Some la -> b = Some lb -> (Nat.min la lb < fuel)%nat) ->
    exists r,
      ParentsStackOps.equals_loop fuel h a b = Some r /\
      (r = true <-> prefixRelated (markers h a) (markers h b)).
Proof.
  induction fuel as [|fuel IH]; intros a b Ha Hb Hfuel;
    (destruct a as [la|]; [destruct b as [lb|] |]).
  - specialize (Hfuel la lb eq_refl eq_refl). lia.
  - exists true. split; [reflexivity |]. rewrite markers_null.
    split; [intros _; apply prefixRelated_nil_r | reflexivity].
  - exists true. split; [destruct b; reflexivity |]. rewrite markers_null.
    split; [intros _; apply prefixRelated_nil_l | reflexivity].
  - cbn [ParentsStackOps.equals_loop].
    pose proof (markers_cons la Ha) as Hla.
    pose proof (markers_cons lb Hb) as Hlb.
    destruct (bool_decide (la = lb)) eqn:Eab.
    + apply bool_decide_eq_true in Eab. subst lb.
      exists true. split; [reflexivity |]. split; [intros _ | reflexivity].
      left. reflexivity.
    + destruct (bool_decide (frame_type h la = frame_type h lb)) eqn:Et;
        cbn [negb].
      * apply bool_decide_eq_true in Et.
        destruct (IH (frame_parent h la) (frame_parent h lb)
                    (frame_parent_allocated la Ha)
                    (frame_parent_allocated lb Hb)) as [r [Hr Hiff]].
        { intros pa pb Epa Epb. apply frame_parent_lt in Epa, Epb.
          specialize (Hfuel la lb eq_refl eq_refl). lia. }
        exists r. split; [exact Hr |].
        rewrite Hla, Hlb, prefixRelated_cons, Hiff. tauto.
      * apply bool_decide_eq_false in Et.
        exists false. split; [reflexivity |].
        rewrite Hla, Hlb, prefixRelated_cons. split; [discriminate | tauto].
  - exists true. split; [reflexivity |]. rewrite markers_null.
    split; [intros _; apply prefixRelated_nil_r | reflexivity].
  - exists true. split; [destruct b; reflexivity |]. rewrite markers_null.
    split; [intros _; apply prefixRelated_nil_l | reflexivity].
Qed.

(** [ParentsStack.equals] on two stacks of a well-formed heap: it returns,
    and it returns true exactly when both stacks are empty, or neither is
    and the markers of one are the first markers of the other. *)
Lemma ParentsStack_equals_spec a b :
  allocated h a -> allocated h b ->
  exists r,
    ParentsStackOps.equals h a b = Some r /\
    (r = true <->
     (a = None <-> b = None) /\ prefixRelated (markers h a) (markers h b)).
Proof.
  intros Ha Hb. unfold ParentsStackOps.equals.
  destruct a as [la|], b as [lb|].
  - destruct (equals_loop_spec (length (frames h)) (Some la) (Some lb) Ha Hb)
      as [r [Hr Hiff]].
    { intros la' lb' [= <-] [= <-]. cbn in Ha, Hb. lia. }
    exists r. split; [exact Hr |]. rewrite Hiff.
    split; [intros H; split; [split; discriminate | exact H] | tauto].
  - exists false. split; [reflexivity |].
    split; [discriminate |]. intros [[_ H] _]. discriminate (H eq_refl).
  - exists false. split; [reflexivity |].
    split; [discriminate |]. intros [[H _] _]. discriminate (H eq_refl).
  - exists true. split; [reflexivity |].
    split; [intros _ | reflexivity]. split; [tauto |].
    rewrite markers_null. apply prefixRelated_nil_l.
Qed.

(** X8: [JSONState.equals] on two states of a well-formed heap: it returns,
    and it returns true exactly when the two states have the same
    [scanError] and [lastWasColon] and their parent stacks are both empty,
    or both not and the markers of one are the first markers of the
    other. *)
Lemma JSONState_equals_spec (this other : loc) :
  allocated h (parents (state_at h this)) ->
  allocated h (parents (state_at h other)) ->
  exists r,
    JSONStateOps.equals h this other = Some r /\
    (r = true <->
     scanError (state_at h this) = scanError (state_at h other) /\
     lastWasColon (state_at h this) = lastWasColon (state_at h other) /\
     (parents (state_at h this) = None <-> parents (state_at h other) = None) /\
     prefixRelated (markers h (parents (state_at h this)))
       (markers h (parents (state_at h other)))).
Proof.
  intros Hs Ho. unfold JSONStateOps.equals.
  destruct (bool_decide (other = this)) eqn:E.
  - apply bool_decide_eq_true in E. subst other.
    exists true. split; [reflexivity |]. split; [intros _ | reflexivity].
    repeat split; try tauto. left. reflexivity.
  - destruct (ParentsStack_equals_spec _ _ Hs Ho) as [r [Hr Hiff]].
    destruct (bool_decide (scanError (state_at h this)
                           = scanError (state_at h other))) eqn:E1;
      [apply bool_decide_eq_true in E1 | apply bool_decide_eq_false in E1];
      cbn [andb].
    + destruct (bool_decide (lastWasColon (state_at h this)
                             = lastWasColon (state_at h other))) eqn:E2;
        [apply bool_decide_eq_true in E2 | apply bool_decide_eq_false in E2].
      * exists r. split; [exact Hr |]. rewrite Hiff. tauto.
      * exists false. split; [reflexivity |]. split; [discriminate | tauto].
    + exists false. split; [reflexivity |]. split; [discriminate | tauto].
Qed.

End StackEquality.

Section ClosedHeaps.

Lemma allocated_extends h h' ps :
  heap_extends h h' -> allocated h ps -> allocated h' ps.
Proof.
  intros [Hf _] Hps. destruct ps as [a|]; [| exact I].
  cbn in *. apply prefix_length in Hf. lia.
Qed.

Lemma closed_state_at h a : closed h -> allocated h (parents (state_at h a)).
Proof.
  intros [_ Hs]. unfold state_at.
  destruct (states h !! a) as [s|] eqn:E; [eapply Hs; exact E | exact I].
Qed.

Lemma closed_new_JSONState h st err lwc ps :
  closed h -> allocated h ps -> closed (new_JSONState h st err lwc ps).1.
Proof.
  intros [Hw Hs] Hps. split; [exact Hw |].
  intros a s. cbn [new_JSONState fst states].
  intros Hlook. apply lookup_app_Some in Hlook as [Hold | [_ Hnew]].
  - exact (Hs a s Hold).
  - destruct (a - length (states h))%nat; [| discriminate].
    cbn in Hnew. injection Hnew as <-. exact Hps.
Qed.

Lemma closed_push h ps ty :
  closed h -> allocated h ps ->
  closed (ParentsStackOps.push h ps ty).1 /\
  allocated (ParentsStackOps.push h ps ty).1 (ParentsStackOps.push h ps ty).2.
Proof.
  intros [Hw Hs] Hps. pose proof (push_extends h ps ty) as Hext.
  cbn [ParentsStackOps.push new_ParentsStack fst snd] in *.
  split; [split |].
  - intros a f p. cbn [frames].
    intros Hlook Hp. apply lookup_app_Some in Hlook as [Hold | [Hge Hnew]].
    + exact (Hw a f p Hold Hp).
    + destruct (a - length (frames h))%nat eqn:E; [| discriminate].
      cbn in Hnew. injection Hnew as <-. cbn in Hp. subst ps. cbn in Hps. lia.
  - intros a s Hlook. eapply allocated_extends; [exact Hext |].
    exact (Hs a s Hlook).
  - cbn. rewrite length_app. cbn. lia.
Qed.

Lemma allocated_pop h ps :
  closed h -> allocated h ps -> allocated h (ParentsStackOps.pop h ps).
Proof.
  intros [Hw _] Hps. destruct ps as [a|]; [| exact I].
  apply frame_parent_allocated; assumption.
Qed.

Lemma caseOpenBrace_closed line languageId h sc ps lwc count offset toks sw :
  closed h -> allocated h ps ->
  caseOpenBrace line languageId h sc ps lwc count offset toks = inr sw ->
  closed (sw_heap sw) /\ allocated (sw_heap sw) (sw_parents sw).
Proof.
  intros Hc Hps. unfold caseOpenBrace, delimiterIndex.
  destruct (closed_push h ps JSONParent.Object Hc Hps) as [Hc1 Hp1].
  destruct (ParentsStackOps.push h ps JSONParent.Object) as [h1 p1].
  cbn [fst snd] in Hc1, Hp1.
  destruct (_ && _); [| intros [= <-]; split; assumption].
  destruct_findClosestDelimiter; [discriminate |].
  repeat match goal with
         | |- context [if ?b then _ else _] => destruct b
         | |- context [match ?x with _ => _ end] => destruct x
         end;
    try discriminate; intros [= <-]; cbn [sw_heap sw_parents];
    (split; [exact Hc1 |]); try exact Hp1.
  apply allocated_pop; [exact Hc1 |]. apply allocated_pop; assumption.
Qed.

Lemma switchKind_closed line languageId h sc ps lwc count offset toks sw :
  closed h -> allocated h ps ->
  switchKind line languageId h sc ps lwc count offset toks = inr sw ->
  closed (sw_heap sw) /\ allocated (sw_heap sw) (sw_parents sw).
Proof.
  intros Hc Hps. unfold switchKind.
  destruct (Scanner.token sc);
    try (intros [= <-]; cbn [sw_heap sw_parents]; split;
         [exact Hc | first [exact Hps | apply allocated_pop; assumption]]).
  - apply caseOpenBrace_closed; assumption.
  - destruct (closed_push h ps JSONParent.Array Hc Hps) as [Hc1 Hp1].
    destruct (ParentsStackOps.push h ps JSONParent.Array) as [h1 p1].
    intros [= <-]. split; assumption.
  - unfold caseStringLiteral.
    destruct (isPostman languageId);
      [destruct (createPostmanVariableScanner _ _ _ _); [| discriminate] |];
      intros [= <-]; split; assumption.
Qed.

Lemma tokenize_step_closed comments line state offsetDelta languageId n h v h' v' :
  closed h -> allocated h (v_parents v) ->
  tokenize_step comments line state offsetDelta languageId n h v
    = Continue h' v' ->
  closed h' /\ allocated h' (v_parents v').
Proof.
  intros Hc Hps. unfold tokenize_step.
  destruct (bool_decide _); [discriminate |].
  destruct (_ =? _)%Z; [discriminate |].
  destruct (switchKind _ _ _ _ _ _ _ _ _) as [e | sw] eqn:Hsw; [discriminate |].
  apply switchKind_closed in Hsw as [Hc1 Hp1]; [| assumption | assumption].
  pose proof (closed_new_JSONState (sw_heap sw)
                (JSONStateOps.getStateData (sw_heap sw) state)
                (Some (Scanner.getTokenError (sw_scanner sw)))
                (sw_lastWasColon sw) (sw_parents sw) Hc1 Hp1) as Hc2.
  pose proof (new_JSONState_extends (sw_heap sw)
                (JSONStateOps.getStateData (sw_heap sw) state)
                (Some (Scanner.getTokenError (sw_scanner sw)))
                (sw_lastWasColon sw) (sw_parents sw)) as Hext.
  destruct (new_JSONState _ _ _ _ _) as [h2 e2]. cbn [fst] in Hc2, Hext.
  intros [= <- <-]. cbn [v_parents].
  split; [exact Hc2 |]. eapply allocated_extends; eassumption.
Qed.

Lemma tokenize_loop_closed fuel comments line state offsetDelta languageId n :
  forall h v,
    closed h -> allocated h (v_parents v) ->
    closed (outcome_heap
      (tokenize_loop fuel comments line state offsetDelta languageId n h v)).
Proof.
  induction fuel as [|fuel IH]; intros h v Hc Hps; cbn [tokenize_loop];
    [exact Hc |].
  destruct (tokenize_step _ _ _ _ _ _ _ _) as [h1 v1 | | e] eqn:Hstep;
    [| exact Hc | exact Hc].
  apply tokenize_step_closed in Hstep as [Hc1 Hp1]; [| assumption | assumption].
  apply IH; assumption.
Qed.

(** X9: [tokenize] keeps heaps closed (every frame created after its
    parent, the parent stack of every state a frame of the heap), whether
    it returns or throws, so the heaps that the tokenizer builds from the
    initial state are closed. *)
Lemma tokenize_closed comments line h state offsetDelta languageId :
  closed h ->
  closed (outcome_heap (tokenize comments line h state offsetDelta languageId)).
Proof.
  intros Hc. unfold tokenize.
  destruct (prefixLine _ line) as [line' n].
  pose proof (closed_state_at h state Hc) as Hps.
  pose proof (closed_new_JSONState h (_state (state_at h state))
                (scanError (state_at h state)) (lastWasColon (state_at h state))
                (parents (state_at h state)) Hc Hps) as Hc1.
  pose proof (new_JSONState_extends h (_state (state_at h state))
                (scanError (state_at h state)) (lastWasColon (state_at h state))
                (parents (state_at h state))) as Hext.
  unfold JSONStateOps.clone.
  destruct (new_JSONState _ _ _ _ _) as [h1 cloned]. cbn [fst] in Hc1, Hext.
  apply tokenize_loop_closed; [exact Hc1 |].
  cbn [v_parents]. eapply allocated_extends; eassumption.
Qed.

Lemma closed_initial : closed (JSONStateOps.getInitialState emptyHeap).1.
Proof.
  apply closed_new_JSONState; [| exact I].
  split; [intros a f p H; discriminate | intros a s H; discriminate].
Qed.

End ClosedHeaps.

(** C6, at an input where it fails: the state after the line [{] and the
    state after the line [{{] (plain variant) have the same [scanError] and
    [lastWasColon] and parent stacks of depth one and two, and
    [JSONState.equals] returns true on them: the loop of
    [ParentsStack.equals] stops when the shorter chain ends and the
    [return true] after it does not look at the rest of the longer one. *)
Lemma equals_accepts_stacks_of_different_depth :
  exists h0 s0 h1 a h b,
    JSONStateOps.getInitialState emptyHeap = (h0, s0) /\
    tokenizeLines true None [lit "{"] h0 s0 = Some (h1, a) /\
    tokenizeLines true None [lit "{{"] h1 s0 = Some (h, b) /\
    scanError (state_at h a) = scanError (state_at h b) /\
    lastWasColon (state_at h a) = lastWasColon (state_at h b) /\
    markers h (parents (state_at h a)) = [JSONParent.Object] /\
    markers h (parents (state_at h b)) = [JSONParent.Object; JSONParent.Object] /\
    JSONStateOps.equals h a b = Some true.
Proof.
  do 6 eexists.
  split; [reflexivity |].
  split; [vm_compute; reflexivity |].
  split; [vm_compute; reflexivity |].
  repeat split; vm_compute; reflexivity.
Qed.

(* ===================================================================== *)
(** * Properties: the end of line used by the formatter *)
(* ===================================================================== *)

Section EndOfLine.

Lemma eqb_CR_false ch : ch <> CR -> Ascii.eqb ch CR = false.
Proof. intros H. apply Ascii.eqb_neq. exact H. Qed.

Lemma eqb_LF_false ch : ch <> LF -> Ascii.eqb ch LF = false.
Proof. intros H. apply Ascii.eqb_neq. exact H. Qed.

Lemma firstEOL_skips (pre rest : JSString) :
  noTerminator pre -> firstEOL (pre ++ rest) = firstEOL rest.
Proof.
  induction 1 as [|ch pre [Hcr Hlf] _ IH]; [reflexivity |].
  cbn [app firstEOL].
  rewrite (eqb_CR_false ch Hcr), (eqb_LF_false ch Hlf). exact IH.
Qed.

Lemma firstEOL_none (text : JSString) :
  noTerminator text -> firstEOL text = None.
Proof.
  intros H. rewrite <- (app_nil_r text). rewrite firstEOL_skips by exact H.
  reflexivity.
Qed.

Lemma firstEOL_FirstTerminator (text : JSString) (t : option JSString) :
  FirstTerminator text t -> firstEOL text = t.
Proof.
  destruct 1 as [pre post Hpre | pre post Hpre Hpost | pre post Hpre | text Hno].
  - rewrite firstEOL_skips by exact Hpre. reflexivity.
  - rewrite firstEOL_skips by exact Hpre. cbn [firstEOL].
    change (Ascii.eqb CR CR) with true. cbn iota.
    destruct post as [|ch' post]; [reflexivity |].
    destruct (Ascii.eqb ch' LF) eqn:E; [| reflexivity].
    apply Ascii.eqb_eq in E. subst ch'. exfalso. apply Hpost. reflexivity.
  - rewrite firstEOL_skips by exact Hpre. reflexivity.
  - apply firstEOL_none. exact Hno.
Qed.

Lemma FirstTerminator_total (text : JSString) :
  exists t, FirstTerminator text t.
Proof.
  induction text as [|ch text [t IH]].
  - exists None. apply FT_none. constructor.
  - destruct (decide (ch = CR)) as [-> | Hcr].
    + destruct text as [|ch' text'].
      * exists (Some [CR]). apply (FT_cr [] []); [constructor | discriminate].
      * destruct (decide (ch' = LF)) as [-> | Hlf].
        -- exists (Some [CR; LF]). apply (FT_crlf [] text'). constructor.
        -- exists (Some [CR]). apply (FT_cr [] (ch' :: text')); [constructor |].
           cbn. congruence.
    + destruct (decide (ch = LF)) as [-> | Hlf].
      * exists (Some [LF]). apply (FT_lf [] text). constructor.
      * exists t.
        assert (forall pre, noTerminator pre -> noTerminator (ch :: pre)) as Hext.
        { intros pre Hpre. constructor; [split; assumption | exact Hpre]. }
        destruct IH as [pre post Hpre | pre post Hpre Hpost | pre post Hpre
                       | text Hno].
        -- apply (FT_crlf (ch :: pre) post). auto.
        -- apply (FT_cr (ch :: pre) post); auto.
        -- apply (FT_lf (ch :: pre) post). auto.
        -- apply FT_none. auto.
Qed.

End EndOfLine.

(** C9, as the specification words it, fails: in a text whose first line
    terminator is a lone [\r], [getEOL] returns [\r], while the first
    literal [\r\n] or [\n] of the text is the [\n] further on. *)
Lemma getEOL_lone_carriage_return :
  let options := {| tabSize := None; insertSpaces := None; eol := None |} in
  let text := ["a"%char; CR; "b"%char; LF] in
  spec_getEOL options text = [LF] /\
  getEOL options text = [CR] /\
  getEOL options text <> spec_getEOL options text.
Proof. repeat split. discriminate. Qed.

(** C9, amended: the end of line of the formatter is the first line
    terminator of the source text, where a terminator is [\r\n], a lone
    [\r] or [\n]; when the text has none, it is the caller-supplied [eol]
    if that is present and not empty, and [\n] otherwise. *)
Theorem getEOL_first_terminator
    (options : FormattingOptions) (text : JSString) (t : option JSString) :
  FirstTerminator text t ->
  getEOL options text =
    match t with
    | Some e => e
    | None => eolOrDefault options
    end.
Proof.
  intros H. unfold getEOL. rewrite (firstEOL_FirstTerminator text t H).
  destruct t as [e|]; [reflexivity |].
  unfold eolOrDefault. destruct (eol options) as [[|c e]|]; reflexivity.
Qed.

Lemma getEOL_first_terminator_witness :
  FirstTerminator (lit "{" ++ CR :: LF :: lit "}") (Some [CR; LF]) /\
  getEOL {| tabSize := None; insertSpaces := None; eol := Some [LF] |}
    (lit "{" ++ CR :: LF :: lit "}") = [CR; LF].
Proof.
  assert (FirstTerminator (lit "{" ++ CR :: LF :: lit "}") (Some [CR; LF])) as H.
  { apply FT_crlf. repeat constructor; discriminate. }
  split; [exact H |].
  exact (getEOL_first_terminator
           {| tabSize := None; insertSpaces := None; eol := Some [LF] |}
           (lit "{" ++ CR :: LF :: lit "}") (Some [CR; LF]) H).
Defined.

(* ===================================================================== *)
(** * Properties: formatting malformed input *)
(* ===================================================================== *)

(** C3, as stated, fails: formatting [{"a":1 2}] does not return the empty
    edit list. *)
Lemma format_malformed_not_empty :
  format (json "{'a':1 2}") None defaultOptions <> Some [].
Proof. vm_compute. discriminate. Qed.

(** C3, amended: formatting [{"a":1 2}] (no sub-range, default options)
    returns three edits: a line break and four blanks after the open brace,
    a blank after the colon, and a line break before the close brace.  Only
    the replacement between [1] and [2], where the missing comma is seen,
    is dropped: [hasError] is computed anew by each [scanNext]. *)
Theorem format_malformed_edits :
  format (json "{'a':1 2}") None defaultOptions =
    Some [Edit.mk 1 0 (LF :: lit "    "); Edit.mk 5 0 (lit " "); Edit.mk 8 0 [LF]].
Proof. vm_compute. reflexivity. Qed.

Lemma scanNext_forgets_error (st : FormatState) (b : bool) :
  scanNext (with_hasError st b) = scanNext st.
Proof. reflexivity. Qed.

Lemma addEdit_after_error (env : FormatEnv) (text : JSString)
    (startOffset endOffset : Z) (st : FormatState) :
  hasError st = true -> addEdit env text startOffset endOffset st = st.
Proof. intros H. unfold addEdit. rewrite H. reflexivity. Qed.

(* ===================================================================== *)
(** * Properties: the edits of a range *)
(* ===================================================================== *)

Section EmittedEdits.

Variable env : FormatEnv.

Lemma addEdit_ok text startOffset endOffset st :
  edits_ok env st -> edits_ok env (addEdit env text startOffset endOffset st).
Proof.
  intros Hst. unfold addEdit.
  destruct (negb (hasError st) && (startOffset <? rangeEnd env)
            && (endOffset >? rangeStart env)
            && negb (JS.eqb (substring (documentText env) startOffset endOffset)
                       text)) eqn:Hguard; [| exact Hst].
  apply andb_prop in Hguard as [Hguard Hneq].
  apply andb_prop in Hguard as [Hguard Hend].
  apply andb_prop in Hguard as [_ Hstart].
  unfold edits_ok. cbn [editOperations].
  apply Forall_app. split; [exact Hst |].
  apply Forall_cons. split; [| apply Forall_nil; exact I].
  split.
  - unfold edit_overlaps. cbn [Edit.offset Edit.length]. lia.
  - unfold edit_changes. cbn [Edit.offset Edit.length Edit.content].
    replace (startOffset + (endOffset - startOffset)) with endOffset by lia.
    apply negb_true_iff in Hneq. unfold JS.eqb in Hneq.
    apply bool_decide_eq_false in Hneq. exact Hneq.
Qed.

Lemma scanNext_edits st :
  editOperations (scanNext st).1 = editOperations st.
Proof.
  unfold scanNext. destruct (skipTrivia _ _ _) as [sc lb]. reflexivity.
Qed.

Lemma scanNext_ok st : edits_ok env st -> edits_ok env (scanNext st).1.
Proof. unfold edits_ok. rewrite scanNext_edits. trivial. Qed.

Lemma sameLineComments_ok fuel :
  forall st firstTokenEnd replaceContent secondToken,
    edits_ok env st ->
    edits_ok env (sameLineComments fuel env st firstTokenEnd replaceContent
                    secondToken).1.1.1.
Proof.
  induction fuel as [|fuel IH]; intros st fte rc tok Hst; cbn [sameLineComments].
  - exact Hst.
  - destruct (negb (lineBreak st) && isComment tok); [| exact Hst].
    pose proof (scanNext_ok _ (addEdit_ok [" "%char] fte
      (Scanner.getTokenOffset (f_scanner st) + formatTextStart env) st Hst))
      as Hnext.
    destruct (scanNext _) as [st2 tok2]. apply IH. exact Hnext.
Qed.

Lemma switchFirstToken_edits st firstToken secondToken replaceContent :
  editOperations (switchFirstToken env st firstToken secondToken
                    replaceContent).1 = editOperations st.
Proof.
  unfold switchFirstToken.
  destruct firstToken;
    repeat match goal with
           | |- context [if ?b then _ else _] => destruct b
           end; reflexivity.
Qed.

Lemma searchPostmanVariable_ok st firstToken firstTokenEnd secondToken :
  edits_ok env st ->
  edits_ok env
    (searchPostmanVariable env st firstToken firstTokenEnd secondToken).1.1.1.
Proof.
  intros Hst. unfold searchPostmanVariable.
  destruct (negb (lineBreak st)
            && bool_decide (firstToken = SyntaxKind.OpenBraceToken)
            && bool_decide (firstToken = secondToken)); [| exact Hst].
  destruct (getPostmanVariablePosition env (f_scanner st))
    as [sc [[s e]|]]; [| exact Hst].
  pose proof (scanNext_ok (with_scanner st sc) Hst) as H.
  destruct (scanNext (with_scanner st sc)) as [st' tok']. exact H.
Qed.

Lemma chooseReplaceContent_ok st firstToken secondToken replaceContent :
  edits_ok env st ->
  edits_ok env
    (chooseReplaceContent env st firstToken secondToken replaceContent).1.
Proof.
  intros Hst. unfold chooseReplaceContent.
  repeat match goal with
         | |- context [if ?b then _ else _] => destruct b
         end; try exact Hst.
  unfold edits_ok. rewrite switchFirstToken_edits. exact Hst.
Qed.

Lemma format_step_ok st firstToken :
  edits_ok env st -> edits_ok env (format_step env st firstToken).1.
Proof.
  intros Hst. unfold format_step.
  pose proof (scanNext_ok st Hst) as H1.
  destruct (scanNext st) as [st1 secondToken]. cbn [fst] in H1.
  pose proof (searchPostmanVariable_ok st1 firstToken
                (Scanner.getTokenOffset (f_scanner st)
                 + Scanner.getTokenLength (f_scanner st) + formatTextStart env)
                secondToken H1) as H2.
  destruct (searchPostmanVariable _ _ _ _ _) as [[[st2 ft2] fte2] tok2].
  cbn [fst] in H2.
  pose proof (sameLineComments_ok
                (S (List.length (Scanner.text (f_scanner st2))))
                st2 fte2 [] tok2 H2) as H3.
  destruct (sameLineComments _ _ _ _ _ _) as [[[st3 fte3] rc3] tok3].
  cbn [fst] in H3.
  pose proof (chooseReplaceContent_ok st3 ft2 tok3 rc3 H3) as H4.
  destruct (chooseReplaceContent _ _ _ _ _) as [st4 rc4].
  cbn [fst] in H4 |- *. apply addEdit_ok. exact H4.
Qed.

Lemma format_loop_ok fuel :
  forall st firstToken edits,
    edits_ok env st ->
    format_loop fuel env st firstToken = Some edits ->
    Forall (emitted_ok env) edits.
Proof.
  induction fuel as [|fuel IH]; intros st tok edits Hst; cbn [format_loop].
  - destruct (bool_decide _); [| discriminate].
    intros [= <-]. exact Hst.
  - destruct (bool_decide _); [intros [= <-]; exact Hst |].
    pose proof (format_step_ok st tok Hst) as Hstep.
    destruct (format_step env st tok) as [st' tok']. apply IH. exact Hstep.
Qed.

End EmittedEdits.

Lemma formatJSON_edits_ok (documentText : JSString) (range : option Range)
    (options : FormattingOptions) (edits : list Edit.t) :
  formatJSON documentText range options = Some edits ->
  Forall (emitted_ok (formatEnv documentText range options)) edits.
Proof.
  unfold formatJSON. set (env := formatEnv documentText range options).
  set (st0 := {| f_scanner := _; lineBreak := false; indentLevel := 0;
                 hasError := false; editOperations := [] |}).
  assert (edits_ok env st0) as H0 by apply Forall_nil_2.
  pose proof (scanNext_ok env st0 H0) as H1.
  destruct (scanNext st0) as [st1 firstToken]. cbn [fst] in H1.
  apply format_loop_ok.
  destruct (negb _); [apply addEdit_ok |]; exact H1.
Qed.

(** C7, as stated, fails: with the range [2, 9) of [{  "a":1}], [format]
    emits the replacement of the two blanks at [1, 3), a span that begins
    before the range does. *)
Lemma format_range_edit_not_within :
  exists e edits,
    format (json "{  'a':1}") (Some (2, 9)) defaultOptions = Some (e :: edits) /\
    ~ edit_within 2 9 e.
Proof.
  do 2 eexists. split; [vm_compute; reflexivity |].
  unfold edit_within. cbn. lia.
Qed.

(** C7, amended: when [format] is called with a sub-range, every emitted
    edit has a span that starts before [rangeEnd] and ends after
    [rangeStart] (it is never wholly outside the range, but it may begin
    before the range or end after it), and its text differs from the
    document text at that span. *)
Theorem format_range_edits_overlap_and_change
    (d : JSString) (startOffset endOffset : Z) (o : option CallerOptions)
    (edits : list Edit.t) :
  format d (Some (startOffset, endOffset)) o = Some edits ->
  Forall (fun e => edit_overlaps startOffset endOffset e /\ edit_changes d e)
    edits.
Proof.
  unfold format. intros H. apply formatJSON_edits_ok in H.
  eapply Forall_impl; [exact H |].
  intros e [Hover Hchange]. cbn in Hover, Hchange.
  replace (startOffset + (endOffset - startOffset)) with endOffset in Hover by lia.
  split; assumption.
Qed.

Lemma format_range_edits_overlap_and_change_witness :
  format (json "{  'a':1}") (Some (2, 9)) defaultOptions =
    Some [Edit.mk 1 2 (LF :: lit "    "); Edit.mk 7 0 (lit " "); Edit.mk 8 0 [LF]] /\
  Forall (fun e => edit_overlaps 2 9 e /\ edit_changes (json "{  'a':1}") e)
    [Edit.mk 1 2 (LF :: lit "    "); Edit.mk 7 0 (lit " "); Edit.mk 8 0 [LF]].
Proof.
  assert (format (json "{  'a':1}") (Some (2, 9)) defaultOptions =
          Some [Edit.mk 1 2 (LF :: lit "    "); Edit.mk 7 0 (lit " ");
                Edit.mk 8 0 [LF]]) as H by (vm_compute; reflexivity).
  split; [exact H |].
  exact (format_range_edits_overlap_and_change (json "{  'a':1}") 2 9
           defaultOptions _ H).
Defined.

(* ===================================================================== *)
(** * Properties: placeholders in the token stream *)
(* ===================================================================== *)

Ltac evaluate_line :=
  match goal with
  | |- _ /\ _ => split; [evaluate_line | evaluate_line]
  | |- _ => vm_compute; repeat split; reflexivity
  end.

(** C1, on lines that are tokenized as they are (no string or block
    comment left open by the line before): where [{{envVar}}] is the whole
    value of a property, outside quotes, the placeholder-aware [tokenize]
    emits one [postman.variable.json] token from the first open brace to
    the last close brace and no object-delimiter token for the braces, and
    the two frames pushed for the open braces are popped again: the parent
    stack at the end of the line is that of the same line with an atomic
    value.  Shown for the property alone on its line, for an object written
    on one line, and for a property on its own line inside an object and
    inside an object that is an array element. *)
Lemma placeholder_value_is_one_token (comments : bool) :
  placeholder_is_one_token comments [] (json "'key': ") [] /\
  placeholder_is_one_token comments [] (json "{'key': ") (lit "}") /\
  placeholder_is_one_token comments [] (json "{'a':1,'key':") (json ",'b':[2]}") /\
  placeholder_is_one_token comments [lit "{"] (json "  'key': ") (lit ",") /\
  placeholder_is_one_token comments [lit "["; lit "  {"] (json "    'key': ") [].
Proof.
  destruct comments; evaluate_line.
Qed.

(** C1, at an input where it fails: the line [ */ "key": {{envVar}}] that
    follows the line [{ /* c], whose block comment is left open.  The
    variable is found and its token runs from 11 to 20 of the line, but
    the scanner is then set to the variable's end index plus one as an
    offset of the line without the two inserted characters, which is two
    characters short in the text it scans: the two close braces are
    scanned after all, each gets an object-delimiter token (at 19 and 20)
    and each pops a frame, so the stack of the enclosing object is empty
    at the end of the line, where the same line with [null] for the
    variable leaves the object's frame. *)
Lemma placeholder_after_open_comment_rescans_braces :
  exists h r h2 r2,
    tokenizeAfter true [lit "{ /* c"] (json " */ 'key': {{envVar}}")
      = Some (h, r) /\
    tokenizeAfter true [lit "{ /* c"] (json " */ 'key': null") = Some (h2, r2) /\
    map (fun t => (startIndex t, scopes t, endIndex t)) (tokens r) =
      [(0, TOKEN_COMMENT_BLOCK, None); (3, EmptyString, None);
       (4, TOKEN_PROPERTY_NAME, None); (9, TOKEN_DELIM_COLON, None);
       (10, EmptyString, None); (11, TOKEN_POSTMAN_VARIABLE, Some 20);
       (19, TOKEN_DELIM_OBJECT, None); (20, TOKEN_DELIM_OBJECT, None)] /\
    substring (json " */ 'key': {{envVar}}") 11 21 = lit "{{envVar}}" /\
    markers h (parents (state_at h (endState r))) = [] /\
    markers h2 (parents (state_at h2 (endState r2))) = [JSONParent.Object].
Proof.
  do 4 eexists.
  split; [vm_compute; reflexivity |].
  split; [vm_compute; reflexivity |].
  repeat split; vm_compute; reflexivity.
Qed.

Lemma prefixLine_none (err : option ScanError.t) (line : JSString) :
  err <> Some ScanError.UnexpectedEndOfString ->
  err <> Some ScanError.UnexpectedEndOfComment ->
  prefixLine err line = (line, 0).
Proof. intros Hs Hc. destruct err as [[]|]; try reflexivity; congruence. Qed.

(** C2, at an input where it fails: the line ["url": "{{baseUrl}}/api"].
    After the token of the string itself come the variable, from 8 to 18,
    and the filler, which starts at the [/] at 19 and has no end index.
    No token starts on the closing quote, so the filler runs to the end of
    the line: it spans [/api] and the closing quote, and the token of the
    string itself is left with the opening quote alone.  No token of the
    line spans [/api]. *)
Lemma string_value_filler_spans_closing_quote :
  exists h r,
    tokenizeAfter true [] (json "'url': '{{baseUrl}}/api'") = Some (h, r) /\
    drop 3 (tokens r) =
      [{| startIndex := 7; scopes := TOKEN_VALUE_STRING; endIndex := None |};
       {| startIndex := 8; scopes := TOKEN_POSTMAN_VARIABLE_IN_STRING;
          endIndex := Some 18 |};
       {| startIndex := 19; scopes := TOKEN_VALUE_STRING; endIndex := None |}] /\
    tokenSpans (json "'url': '{{baseUrl}}/api'") (tokens r) =
      [Some (json "'url'"); Some (lit ":"); Some (lit " "); Some [DQ];
       Some (lit "{{baseUrl}}"); Some (json "/api'")] /\
    json "/api'" <> lit "/api" /\
    ~ In (Some (lit "/api"))
        (tokenSpans (json "'url': '{{baseUrl}}/api'") (tokens r)).
Proof.
  do 2 eexists.
  split; [vm_compute; reflexivity |].
  split; [vm_compute; reflexivity |].
  split; [vm_compute; reflexivity |].
  split; [discriminate |].
  vm_compute. intros H.
  repeat (destruct H as [H | H]; [discriminate H |]). exact H.
Qed.

(** C2, as the code has it: for the property value ['{{baseUrl}}/api']
    (the apostrophes are the quotes) the placeholder-aware [tokenize]
    emits, after the token of the string itself, a
    [postman.variable.string.json] token over exactly [{{baseUrl}}] and
    then a [string.value.json] token that starts at the [/] of [/api], the
    character right after the variable, and has no end index: it runs to
    the next token of the line, or to the end of the line, and spans
    [/api] and the closing quote.  The token of the string itself spans
    the opening quote.  This holds for the literal at the start of a line
    in every heap and state that expects a property value (the colon was
    the last token, no string or comment is open), and it is shown for
    the property alone on its line, in an object on one line, and on its
    own line inside an object. *)
Theorem string_value_with_placeholder
    (comments : bool) (h : Heap) (state : loc) :
  lastWasColon (state_at h state) = true ->
  scanError (state_at h state) <> Some ScanError.UnexpectedEndOfString ->
  scanError (state_at h state) <> Some ScanError.UnexpectedEndOfComment ->
  (exists h' r,
      tokenize comments (json "'{{baseUrl}}/api'") h state 0 postman_json
        = Return h' r /\
      tokens r =
        [{| startIndex := 0; scopes := TOKEN_VALUE_STRING; endIndex := None |};
         {| startIndex := 1; scopes := TOKEN_POSTMAN_VARIABLE_IN_STRING;
            endIndex := Some 11 |};
         {| startIndex := 12; scopes := TOKEN_VALUE_STRING;
            endIndex := None |}] /\
      tokenSpans (json "'{{baseUrl}}/api'") (tokens r) =
        [Some [DQ]; Some (lit "{{baseUrl}}"); Some (json "/api'")]) /\
  string_value_tokens comments [] (json "'url': ") [] 3 /\
  string_value_tokens comments [] (json "{'url':") (lit "}") 3 /\
  string_value_tokens comments [lit "{"] (json "  'url': ") (lit ",") 4.
Proof.
  intros Hlwc Hs Hc. split.
  - unfold tokenize.
    rewrite (prefixLine_none _ _ Hs Hc), Hlwc.
    destruct (JSONStateOps.clone h state) as [h1 cloned].
    generalize (parents (state_at h state)) as ps. intros ps.
    destruct h1 as [fr sts g].
    destruct comments; vm_compute; do 2 eexists;
      (split; [reflexivity | split; reflexivity]).
  - destruct comments; evaluate_line.
Qed.

Lemma string_value_with_placeholder_witness :
  let h := (new_JSONState emptyHeap None (Some ScanError.None) true None).1 in
  lastWasColon (state_at h 0%nat) = true /\
  scanError (state_at h 0%nat) <> Some ScanError.UnexpectedEndOfString /\
  scanError (state_at h 0%nat) <> Some ScanError.UnexpectedEndOfComment /\
  ((exists h' r,
       tokenize true (json "'{{baseUrl}}/api'") h 0%nat 0 postman_json
         = Return h' r /\
       tokens r =
         [{| startIndex := 0; scopes := TOKEN_VALUE_STRING; endIndex := None |};
          {| startIndex := 1; scopes := TOKEN_POSTMAN_VARIABLE_IN_STRING;
             endIndex := Some 11 |};
          {| startIndex := 12; scopes := TOKEN_VALUE_STRING;
             endIndex := None |}] /\
       tokenSpans (json "'{{baseUrl}}/api'") (tokens r) =
         [Some [DQ]; Some (lit "{{baseUrl}}"); Some (json "/api'")]) /\
   string_value_tokens true [] (json "'url': ") [] 3 /\
   string_value_tokens true [] (json "{'url':") (lit "}") 3 /\
   string_value_tokens true [lit "{"] (json "  'url': ") (lit ",") 4).
Proof.
  cbv zeta.
  split; [reflexivity |]. split; [discriminate |]. split; [discriminate |].
  apply (string_value_with_placeholder true
           (new_JSONState emptyHeap None (Some ScanError.None) true None).1 0%nat);
    [reflexivity | discriminate | discriminate].
Defined.

(** C4, at an input where it fails: on the line [{{a} {{b}}] the
    tokenizer's detection call finds the one match [{{b}}], which begins
    at the sixth character of the lookahead span, and accepts it (the
    tokens of the line are that single placeholder token, and both pushed
    frames are popped), while the formatter's detection call on the same
    text rejects it, its first match not being at the start. *)
Lemma tokenizer_accepts_match_after_stray_content :
  delimiterIndex pageHeap (lit "{{a} {{b}}") 2
    = inr (assign_length pageHeap 4, 10) /\
  createPostmanVariableScanner (lit "{{a} {{b}}") 0 false false =
    Some [{| startIndex := 5; scopes := TOKEN_POSTMAN_VARIABLE;
             endIndex := Some 9 |}] /\
  (exists h r,
      tokenizeAfter true [] (lit "{{a} {{b}}") = Some (h, r) /\
      tokens r = [{| startIndex := 5; scopes := TOKEN_POSTMAN_VARIABLE;
                     endIndex := Some 9 |}] /\
      markers h (parents (state_at h (endState r))) = []) /\
  (getPostmanVariablePosition
     (formatEnv (lit "{{a} {{b}}") None
        {| tabSize := Some 4; insertSpaces := Some true; eol := Some [LF] |})
     (Scanner.scan (Scanner.scan (Scanner.createScanner (lit "{{a} {{b}}"))))).2
  = None.
Proof.
  split; [vm_compute; reflexivity |].
  split; [vm_compute; reflexivity |].
  split; [| vm_compute; reflexivity].
  do 2 eexists. split; [vm_compute; reflexivity |].
  split; vm_compute; reflexivity.
Qed.

(** C5, at an input where it fails: the line [{{x}}"] that follows the
    line ["abc], whose string is left open.  The first token starts at 0,
    but the two tokens that the sub-scanner makes for the inside of that
    first string keep offsets into the line with the synthetic quote in
    front of it: the variable, which is at 0 to 4 of the line, is given
    the start 1 and the end 5, and the filler the start 6, which is not a
    position of the six-character line. *)
Lemma continued_string_tokens_not_corrected :
  exists h0 s0 h1 s1 h r,
    JSONStateOps.getInitialState emptyHeap = (h0, s0) /\
    tokenizeLines true postman_json [json "'abc"] h0 s0 = Some (h1, s1) /\
    scanError (state_at h1 s1) = Some ScanError.UnexpectedEndOfString /\
    tokenize true (json "{{x}}'") h1 s1 0 postman_json = Return h r /\
    tokens r =
      [{| startIndex := 0; scopes := TOKEN_PROPERTY_NAME; endIndex := None |};
       {| startIndex := 1; scopes := TOKEN_POSTMAN_VARIABLE_IN_STRING;
          endIndex := Some 5 |};
       {| startIndex := 6; scopes := TOKEN_PROPERTY_NAME; endIndex := None |}] /\
    substring (json "{{x}}'") 0 5 = lit "{{x}}" /\
    len (json "{{x}}'") = 6.
Proof.
  do 6 eexists.
  split; [reflexivity |].
  split; [vm_compute; reflexivity |].
  split; [vm_compute; reflexivity |].
  split; [vm_compute; reflexivity |].
  repeat split; vm_compute; reflexivity.
Qed.

(* ===================================================================== *)
(** * Properties: the offsets after a synthetic prefix, plain variant *)
(* ===================================================================== *)

Section PlainOffsets.

Variables (comments : bool) (line : JSString) (state : loc).
Variables (offsetDelta : Z) (languageId : option string) (n : Z).
Hypothesis plain : isPostman languageId = false.
Hypothesis n_nonneg : 0 <= n.

Lemma switchKind_plain h sc ps lwc count offset toks sw :
  switchKind line languageId h sc ps lwc count offset toks = inr sw ->
  sw_scanner sw = sc /\ sw_skip sw = false /\ sw_tokens sw = toks /\
  sw_postmanVariablesInString sw = [].
Proof.
  unfold switchKind, caseOpenBrace, caseStringLiteral. rewrite plain.
  rewrite andb_false_r.
  destruct (Scanner.token sc); cbn; intros [= <-]; cbn; auto.
Qed.

Lemma tokenize_loop_plain_starts fuel :
  forall h v h' r,
    tokenize_loop fuel comments line state offsetDelta languageId n h v
      = Return h' r ->
    map startIndex (tokens r) =
      map startIndex (tokens (ret v)) ++
      match tokenStarts fuel (scanner v) with
      | [] => []
      | p :: ps =>
          (offsetDelta + p - (if adjustOffset v then n else 0))
          :: map (fun q => offsetDelta + q - n) ps
      end.
Proof.
  induction fuel as [|fuel IH]; intros h v h' r; cbn [tokenize_loop tokenStarts];
    [discriminate |].
  unfold tokenize_step.
  destruct (bool_decide (Scanner.token (Scanner.scan (scanner v)) = SyntaxKind.EOF)).
  - intros [= <- <-]. rewrite app_nil_r. reflexivity.
  - destruct (_ =? _); [discriminate |].
    destruct (switchKind _ _ _ _ _ _ _ _ _) as [e | sw] eqn:Hsw; [discriminate |].
    apply switchKind_plain in Hsw as [Hsc [Hskip [Htoks Hpv]]].
    destruct (new_JSONState _ _ _ _ _) as [h2 e2].
    rewrite Hsc, Hskip, Htoks, Hpv. intros Hrun.
    apply IH in Hrun. rewrite Hrun. cbn [ret tokens scanner adjustOffset].
    rewrite app_nil_r, map_app, <- app_assoc. cbn [map startIndex app].
    unfold Scanner.getPosition.
    f_equal. f_equal.
    + destruct (adjustOffset v); lia.
    + destruct (tokenStarts fuel (Scanner.scan (scanner v))) as [|p ps];
        [reflexivity |].
      cbn [map]. f_equal.
      destruct (n >? 0) eqn:E; lia.
Qed.

End PlainOffsets.


(* ===================================================================== *)
(** * Properties: the objects of the line state *)
(* ===================================================================== *)

(** X5: [ParentsStack.pop] undoes [ParentsStack.push]: the stack popped
    from a freshly pushed frame is the stack that was pushed on, whatever
    it is ([null] included); the new frame has the type that was pushed,
    is an object that the heap did not have, and every older object is
    still there. *)
Theorem pop_after_push (h : Heap) (ps : option loc) (ty : JSONParent.t) :
  let '(h', top) := ParentsStackOps.push h ps ty in
  ParentsStackOps.pop h' top = ps /\
  (exists a, top = Some a /\ frame_type h' a = ty /\ frames h !! a = None) /\
  heap_extends h h'.
Proof.
  unfold ParentsStackOps.push, new_ParentsStack, ParentsStackOps.pop.
  cbn. unfold frame_parent, frame_type. cbn.
  split; [| split].
  - rewrite lookup_app_r by lia. rewrite Nat.sub_diag. reflexivity.
  - eexists. split; [reflexivity |]. split.
    + rewrite lookup_app_r by lia. rewrite Nat.sub_diag. reflexivity.
    + apply lookup_ge_None. lia.
  - split; cbn; [apply prefix_app_r; reflexivity | reflexivity].
Qed.

Lemma bool_decide_sym {A : Type} `{EqDecision A} (x y : A) :
  bool_decide (x = y) = bool_decide (y = x).
Proof. apply bool_decide_ext. split; congruence. Qed.

Lemma equals_loop_sym fuel h :
  forall a b, ParentsStackOps.equals_loop fuel h a b = ParentsStackOps.equals_loop fuel h b a.
Proof.
  induction fuel as [|fuel IH]; intros [la|] [lb|];
    cbn [ParentsStackOps.equals_loop]; try reflexivity;
    rewrite (bool_decide_sym lb la),
      (bool_decide_sym (frame_type h lb) (frame_type h la));
    [reflexivity |].
  rewrite (IH (frame_parent h la)). reflexivity.
Qed.

(** X7: [JSONState.equals] is symmetric: on every heap, cyclic or not,
    [a.equals(b)] and [b.equals(a)] do the same (return the same value, or
    both run out of fuel). *)
Theorem JSONState_equals_symmetric (h : Heap) (a b : loc) :
  JSONStateOps.equals h a b = JSONStateOps.equals h b a.
Proof.
  unfold JSONStateOps.equals.
  rewrite (bool_decide_sym a b),
    (bool_decide_sym (scanError (state_at h b)) (scanError (state_at h a))),
    (bool_decide_sym (lastWasColon (state_at h b)) (lastWasColon (state_at h a))).
  destruct (bool_decide (b = a)); [reflexivity |].
  destruct (_ && _); [| reflexivity].
  unfold ParentsStackOps.equals.
  destruct (parents (state_at h a)), (parents (state_at h b)); try reflexivity.
  apply equals_loop_sym.
Qed.

Lemma equals_loop_refl fuel h a : ParentsStackOps.equals_loop fuel h a a = Some true.
Proof.
  destruct fuel, a; cbn; try reflexivity; rewrite bool_decide_eq_true_2; reflexivity.
Qed.

Lemma equals_same_fields (h : Heap) (a b : loc) :
  scanError (state_at h a) = scanError (state_at h b) ->
  lastWasColon (state_at h a) = lastWasColon (state_at h b) ->
  parents (state_at h a) = parents (state_at h b) ->
  JSONStateOps.equals h a b = Some true.
Proof.
  intros E1 E2 E3. unfold JSONStateOps.equals.
  destruct (bool_decide (b = a)); [reflexivity |].
  rewrite E1, E2, E3, !bool_decide_eq_true_2 by reflexivity. cbn [andb].
  unfold ParentsStackOps.equals.
  destruct (parents (state_at h b)); [| reflexivity].
  apply equals_loop_refl.
Qed.

(** X6: a clone is a new object that [equals] its original: [clone]
    allocates a state that the heap did not have, with the fields of
    [this], and [this.equals(copy)] and [copy.equals(this)] both return
    true. *)
Theorem clone_equals (h : Heap) (this : loc) :
  let '(h', copy) := JSONStateOps.clone h this in
  JSONStateOps.equals h' this copy = Some true /\
  JSONStateOps.equals h' copy this = Some true /\
  states h !! copy = None /\
  state_at h' copy = state_at h this.
Proof.
  unfold JSONStateOps.clone, new_JSONState.
  set (h' := {| frames := _; states := _; global_length := _ |}).
  assert (state_at h' (length (states h)) = state_at h this) as Hcopy.
  { unfold state_at at 1. subst h'. cbn.
    rewrite lookup_app_r by lia. rewrite Nat.sub_diag. cbn.
    destruct (state_at h this); reflexivity. }
  assert (forall a, a <> length (states h) -> state_at h' a = state_at h a) as Hold.
  { intros a Ha. unfold state_at. subst h'. cbn.
    destruct (decide (a < length (states h))%nat).
    - rewrite lookup_app_l by lia. reflexivity.
    - rewrite !(proj2 (lookup_ge_None _ _)); [reflexivity | lia |].
      rewrite length_app. cbn. lia. }
  assert (state_at h' this = state_at h this) as Hthis.
  { destruct (decide (this = length (states h))) as [->|E];
      [exact Hcopy | apply Hold; exact E]. }
  split; [| split; [| split]].
  - apply equals_same_fields; rewrite Hcopy, Hthis; reflexivity.
  - apply equals_same_fields; rewrite Hcopy, Hthis; reflexivity.
  - apply lookup_ge_None; lia.
  - exact Hcopy.
Qed.

Lemma equals_loop_frames fuel (h h' : Heap) :
  frames h' = frames h ->
  forall a b,
    ParentsStackOps.equals_loop fuel h' a b = ParentsStackOps.equals_loop fuel h a b.
Proof.
  intros Hf. induction fuel as [|fuel IH]; intros [la|] [lb|];
    cbn [ParentsStackOps.equals_loop]; try reflexivity;
    unfold frame_type, frame_parent; rewrite Hf; [reflexivity |].
  destruct (bool_decide (la = lb)); [reflexivity |].
  destruct (negb _); [reflexivity |]. apply IH.
Qed.

Lemma state_at_setStateData (h : Heap) (this : loc) (st : IState) (a : loc) :
  state_at (JSONStateOps.setStateData h this st) a
  = if bool_decide (a = this) && bool_decide (this < length (states h))%nat
    then {| _state := Some st; scanError := scanError (state_at h this);
            lastWasColon := lastWasColon (state_at h this);
            parents := parents (state_at h this) |}
    else state_at h a.
Proof.
  unfold JSONStateOps.setStateData.
  set (x := {| _state := Some st; scanError := _; lastWasColon := _;
               parents := _ |}).
  unfold state_at at 1. cbn [states].
  destruct (decide (a = this)) as [-> | Hne].
  - rewrite bool_decide_eq_true_2 by reflexivity.
    destruct (decide (this < length (states h))%nat) as [Hlt | Hge].
    + rewrite bool_decide_eq_true_2 by exact Hlt.
      rewrite list_lookup_insert_eq by exact Hlt. reflexivity.
    + rewrite bool_decide_eq_false_2 by exact Hge.
      rewrite list_insert_ge by lia. reflexivity.
  - rewrite bool_decide_eq_false_2 by exact Hne.
    rewrite list_lookup_insert_ne by congruence. reflexivity.
Qed.

Lemma setStateData_fields (h : Heap) (this : loc) (st : IState) (a : loc) :
  scanError (state_at (JSONStateOps.setStateData h this st) a)
    = scanError (state_at h a) /\
  lastWasColon (state_at (JSONStateOps.setStateData h this st) a)
    = lastWasColon (state_at h a) /\
  parents (state_at (JSONStateOps.setStateData h this st) a)
    = parents (state_at h a) /\
  (a <> this ->
   state_at (JSONStateOps.setStateData h this st) a = state_at h a).
Proof.
  rewrite state_at_setStateData.
  destruct (bool_decide (a = this)) eqn:E; cbn [andb].
  - apply bool_decide_eq_true in E. subst a.
    destruct (bool_decide _); cbn; repeat split; congruence.
  - repeat split; reflexivity.
Qed.

(** X26: [setStateData] writes the embedded state of one object and
    nothing else: the state reads it back with [getStateData], every
    other state is as it was, and [equals] gives the same result on any
    two states as before the call (it does not look at the embedded
    state). *)
Theorem setStateData_only_sets_state_data (h : Heap) (this : loc) (st : IState) :
  (this < length (states h))%nat ->
  JSONStateOps.getStateData (JSONStateOps.setStateData h this st) this = Some st /\
  (forall a, a <> this ->
     state_at (JSONStateOps.setStateData h this st) a = state_at h a) /\
  (forall a b,
     JSONStateOps.equals (JSONStateOps.setStateData h this st) a b
     = JSONStateOps.equals h a b).
Proof.
  intros Hlt. split; [| split].
  - unfold JSONStateOps.getStateData. rewrite state_at_setStateData.
    rewrite !bool_decide_eq_true_2 by (reflexivity || exact Hlt). reflexivity.
  - intros a Ha. apply setStateData_fields. exact Ha.
  - intros a b. unfold JSONStateOps.equals.
    destruct (setStateData_fields h this st a) as [Ea1 [Ea2 [Ea3 _]]].
    destruct (setStateData_fields h this st b) as [Eb1 [Eb2 [Eb3 _]]].
    rewrite Ea1, Ea2, Ea3, Eb1, Eb2, Eb3.
    destruct (bool_decide (b = a)); [reflexivity |].
    destruct (_ && _); [| reflexivity].
    unfold ParentsStackOps.equals.
    destruct (parents (state_at h a)), (parents (state_at h b)); try reflexivity.
    cbn [JSONStateOps.setStateData frames].
    apply equals_loop_frames. reflexivity.
Qed.

Lemma setStateData_only_sets_state_data_witness :
  let h := {| frames := [{| parent := None; type := JSONParent.Object |}];
              states := [{| _state := None; scanError := Some ScanError.None;
                            lastWasColon := true; parents := Some 0%nat |};
                         {| _state := Some 3%nat; scanError := Some ScanError.None;
                            lastWasColon := true; parents := Some 0%nat |}];
              global_length := None |} in
  (0 < length (states h))%nat /\
  JSONStateOps.getStateData (JSONStateOps.setStateData h 0%nat 7%nat) 0%nat
    = Some 7%nat /\
  (forall a, a <> 0%nat ->
     state_at (JSONStateOps.setStateData h 0%nat 7%nat) a = state_at h a) /\
  (forall a b,
     JSONStateOps.equals (JSONStateOps.setStateData h 0%nat 7%nat) a b
     = JSONStateOps.equals h a b).
Proof.
  cbv zeta. split; [cbn; lia |].
  apply setStateData_only_sets_state_data. cbn. lia.
Defined.

Lemma JSONState_equals_spec_witness :
  let h := {| frames := [{| parent := None; type := JSONParent.Object |};
                         {| parent := Some 0%nat; type := JSONParent.Array |}];
              states := [{| _state := None; scanError := Some ScanError.None;
                            lastWasColon := false; parents := Some 0%nat |};
                         {| _state := None; scanError := Some ScanError.None;
                            lastWasColon := false; parents := Some 1%nat |}];
              global_length := None |} in
  wellFormed h /\
  allocated h (parents (state_at h 0%nat)) /\
  allocated h (parents (state_at h 1%nat)) /\
  exists r,
    JSONStateOps.equals h 0%nat 1%nat = Some r /\
    (r = true <->
     scanError (state_at h 0%nat) = scanError (state_at h 1%nat) /\
     lastWasColon (state_at h 0%nat) = lastWasColon (state_at h 1%nat) /\
     (parents (state_at h 0%nat) = None <-> parents (state_at h 1%nat) = None) /\
     prefixRelated (markers h (parents (state_at h 0%nat)))
       (markers h (parents (state_at h 1%nat)))).
Proof.
  cbv zeta.
  assert (wellFormed
            {| frames := [{| parent := None; type := JSONParent.Object |};
                          {| parent := Some 0%nat; type := JSONParent.Array |}];
               states := [{| _state := None; scanError := Some ScanError.None;
                             lastWasColon := false; parents := Some 0%nat |};
                          {| _state := None; scanError := Some ScanError.None;
                             lastWasColon := false; parents := Some 1%nat |}];
               global_length := None |})
    as Hwf.
  { intros [|[|a]] f p; cbn; intros [= <-]; cbn; intros [= <-]. lia. }
  split; [exact Hwf |].
  split; [cbn; lia |]. split; [cbn; lia |].
  apply (JSONState_equals_spec _ Hwf); cbn; lia.
Defined.

Lemma tokenize_closed_witness :
  closed (JSONStateOps.getInitialState emptyHeap).1 /\
  closed (outcome_heap
            (tokenize true (json "{'a': [{{v}}, '{{w}}']}")
               (JSONStateOps.getInitialState emptyHeap).1
               (JSONStateOps.getInitialState emptyHeap).2 0
               (Some "postman_json"%string))).
Proof.
  split; [apply closed_initial |].
  apply tokenize_closed. apply closed_initial.
Defined.

(* ===================================================================== *)
(** * Properties: what [tokenize] returns *)
(* ===================================================================== *)

Lemma safeOffsets_small (offsetDelta : Z) (line : JSString) :
  0 <= offsetDelta -> offsetDelta + len line <= 2 ^ 52 ->
  safeOffsets offsetDelta line.
Proof.
  unfold safeOffsets, MAX_SAFE_INTEGER.
  change (2 ^ 53) with 9007199254740992.
  change (2 ^ 52) with 4503599627370496. lia.
Qed.

(** X1: where the global variable [length] exists, and in the plain
    variant everywhere, [tokenize] returns its tokens and end state for
    every line, line state and heap, when [offsetDelta] is not negative
    and the offsets of the line are safe integers: it throws neither its
    own error for a scanner that does not advance, nor the
    [ReferenceError] of the delimiter search, nor a [TypeError] of the
    sub-scanner, and the model never runs out of fuel. *)
Theorem tokenize_does_not_throw
    (comments : bool) (line : JSString) (h : Heap) (state : loc)
    (offsetDelta : Z) (languageId : option string) :
  0 <= offsetDelta ->
  safeOffsets offsetDelta line ->
  lengthDeclared h \/ isPostman languageId = false ->
  (exists h' r,
     tokenize comments line h state offsetDelta languageId = Return h' r) /\
  (forall h' e,
     tokenize comments line h state offsetDelta languageId <> Throw h' e) /\
  (forall h',
     tokenize comments line h state offsetDelta languageId <> OutOfFuel h').
Proof.
  intros Hdelta _ Hrealm.
  destruct (tokenize_returns comments line h state offsetDelta languageId
              Hdelta Hrealm) as [h1 [r Hr]].
  rewrite Hr. repeat split; [do 2 eexists; reflexivity | |]; discriminate.
Qed.

Lemma tokenize_does_not_throw_witness :
  0 <= 4 /\
  safeOffsets 4 (json "{'a': [{{v}}, '{{w}}'") /\
  (lengthDeclared (JSONStateOps.getInitialState pageHeap).1 \/
   isPostman (Some "postman_json"%string) = false) /\
  exists h' r,
    tokenize true (json "{'a': [{{v}}, '{{w}}'")
      (JSONStateOps.getInitialState pageHeap).1 0%nat 4
      (Some "postman_json"%string) = Return h' r.
Proof.
  assert (safeOffsets 4 (json "{'a': [{{v}}, '{{w}}'")) as Hsafe
    by (apply safeOffsets_small; [lia | vm_compute; discriminate]).
  assert (lengthDeclared (JSONStateOps.getInitialState pageHeap).1) as Hdecl
    by (eexists; reflexivity).
  split; [lia |]. split; [exact Hsafe |]. split; [left; exact Hdecl |].
  apply (tokenize_does_not_throw true (json "{'a': [{{v}}, '{{w}}'")
           (JSONStateOps.getInitialState pageHeap).1
           0%nat 4 (Some "postman_json"%string));
    [lia | exact Hsafe | left; exact Hdecl].
Defined.

(** X28: in every realm [tokenize] returns or throws the [ReferenceError]
    of the delimiter search, when [offsetDelta] is not negative and the
    offsets of the line are safe integers; it throws only in the
    placeholder-aware variant and only where the global variable
    [length] does not exist.  It throws nothing else, and the model
    never runs out of fuel. *)
Theorem tokenize_throws_only_ReferenceError
    (comments : bool) (line : JSString) (h : Heap) (state : loc)
    (offsetDelta : Z) (languageId : option string) :
  0 <= offsetDelta ->
  safeOffsets offsetDelta line ->
  (exists h' r,
     tokenize comments line h state offsetDelta languageId = Return h' r) \/
  (global_length h = None /\ isPostman languageId = true /\
   exists h',
     tokenize comments line h state offsetDelta languageId
       = Throw h' ReferenceError).
Proof.
  intros Hdelta _.
  pose proof (tokenize_outcome comments line h state offsetDelta languageId
                Hdelta) as H.
  destruct (tokenize _ _ _ _ _ _) as [h' r | h' e | h'].
  - left. do 2 eexists. reflexivity.
  - right. destruct H as [-> [Hn Hp]].
    split; [exact Hn |]. split; [exact Hp |]. eexists. reflexivity.
  - contradiction.
Qed.

Lemma tokenize_throws_only_ReferenceError_witness :
  0 <= 0 /\
  safeOffsets 0 (json "{'a': {{v}}}") /\
  global_length (JSONStateOps.getInitialState emptyHeap).1 = None /\
  exists h',
    tokenize true (json "{'a': {{v}}}")
      (JSONStateOps.getInitialState emptyHeap).1 0%nat 0
      (Some "postman_json"%string) = Throw h' ReferenceError.
Proof.
  assert (safeOffsets 0 (json "{'a': {{v}}}")) as Hsafe
    by (apply safeOffsets_small; [lia | vm_compute; discriminate]).
  split; [lia |]. split; [exact Hsafe |]. split; [reflexivity |].
  destruct (tokenize_throws_only_ReferenceError true (json "{'a': {{v}}}")
              (JSONStateOps.getInitialState emptyHeap).1 0%nat 0
              (Some "postman_json"%string) ltac:(lia) Hsafe)
    as [[h' [r Hr]] | [_ [_ Hthrow]]].
  - vm_compute in Hr. discriminate Hr.
  - exact Hthrow.
Defined.

Lemma state_at_new (f : list ParentsStack) (l : list JSONState) (x : JSONState)
    (g : option Z) :
  state_at {| frames := f; states := l ++ [x]; global_length := g |} (length l) = x.
Proof.
  unfold state_at. cbn. rewrite lookup_app_r by lia.
  rewrite Nat.sub_diag. reflexivity.
Qed.

(** X2: on the empty line, with an [offsetDelta] whose sums with the
    positions of the scanner are safe integers, [tokenize] returns a state
    with the [scanError] and the parent stack of the state it was given,
    so a string or a block comment that was left open stays open; it
    returns no token, except one token at [offsetDelta] when the state is
    inside such a string or comment (the synthetic prefix is scanned
    again). *)
Theorem tokenize_empty_line (comments : bool) (h : Heap) (state : loc)
    (offsetDelta : Z) (languageId : option string) :
  safeOffsets offsetDelta [] ->
  exists h' r,
    tokenize comments [] h state offsetDelta languageId = Return h' r /\
    map startIndex (tokens r) =
      (if openConstruct (scanError (state_at h state)) then [offsetDelta] else []) /\
    scanError (state_at h' (endState r)) = scanError (state_at h state) /\
    parents (state_at h' (endState r)) = parents (state_at h state).
Proof.
  intros _. unfold tokenize.
  destruct (scanError (state_at h state)) as [[]|] eqn:E; cbn [prefixLine openConstruct].
  all: try (do 2 eexists; split; [cbn; reflexivity |];
            cbn [ret tokens endState map]; split; [reflexivity |];
            unfold JSONStateOps.clone; cbn; rewrite state_at_new; cbn;
            split; [exact E | reflexivity]).
  - (* an open comment *)
    unfold JSONStateOps.clone, new_JSONState. cbn [tokenize_loop length].
    unfold tokenize_step at 1. cbn [scanner].
    set (sc := Scanner.scan (Scanner.createScanner _)). vm_compute in sc. subst sc.
    cbn -[Z.add Z.eqb Z.sub].
    rewrite bool_decide_eq_false_2 by discriminate.
    replace (offsetDelta + 0 =? offsetDelta + 3) with false by (symmetry; lia).
    unfold tokenize_step at 1. cbn [scanner].
    set (sc := Scanner.scan _). vm_compute in sc. subst sc.
    cbn [Scanner.token]. rewrite bool_decide_eq_true_2 by reflexivity.
    do 2 eexists. split; [reflexivity |].
    cbn [ret tokens endState map startIndex].
    rewrite state_at_new. cbn.
    split; [f_equal; lia | split; reflexivity].
  - (* an open string *)
    unfold JSONStateOps.clone, new_JSONState. cbn [tokenize_loop length].
    unfold tokenize_step at 1. cbn [scanner].
    set (sc := Scanner.scan (Scanner.createScanner _)). vm_compute in sc. subst sc.
    cbn [Scanner.token Scanner.getPosition Scanner.pos Scanner.createScanner].
    rewrite bool_decide_eq_false_2 by discriminate.
    replace (offsetDelta + 0 =? offsetDelta + 1) with false by (symmetry; lia).
    unfold switchKind, caseStringLiteral. cbn [Scanner.token].
    assert (forall o v, createPostmanVariableScanner
              (substr [DQ] (0 + 1) (1 - 0 - 2)) o v true = Some []) as Hnone
      by reflexivity.
    cbn [Scanner.getTokenOffset Scanner.getTokenLength Scanner.pos
         Scanner.tokenOffset].
    rewrite Hnone. clear Hnone.
    destruct (isPostman languageId);
      cbn -[Z.add Z.eqb Z.sub frame_type Scanner.scan];
      unfold tokenize_step at 1; cbn [scanner];
      set (sc := Scanner.scan _); vm_compute in sc; subst sc;
      cbn [Scanner.token]; rewrite bool_decide_eq_true_2 by reflexivity;
      (do 2 eexists; split; [reflexivity |]);
      cbn [ret tokens endState map startIndex app];
      rewrite state_at_new; cbn;
      (split; [f_equal; lia | split; reflexivity]).
Qed.

Lemma tokenize_empty_line_witness :
  let h := {| frames := [];
              states := [{| _state := None;
                            scanError := Some ScanError.UnexpectedEndOfString;
                            lastWasColon := true; parents := None |}];
              global_length := None |} in
  safeOffsets (-7) [] /\
  exists h' r,
    tokenize true [] h 0%nat (-7) postman_json = Return h' r /\
    map startIndex (tokens r) =
      (if openConstruct (scanError (state_at h 0%nat)) then [-7] else []) /\
    scanError (state_at h' (endState r)) = scanError (state_at h 0%nat) /\
    parents (state_at h' (endState r)) = parents (state_at h 0%nat).
Proof.
  cbv zeta.
  assert (safeOffsets (-7) []) as Hsafe by (split; vm_compute; discriminate).
  split; [exact Hsafe |].
  apply tokenize_empty_line. exact Hsafe.
Defined.

Section PlainTokens.

Variables (comments : bool) (line : JSString) (state : loc).
Variables (offsetDelta : Z) (languageId : option string) (n : Z).
Hypothesis plain : isPostman languageId = false.

Lemma switchKind_plain_type h sc ps lwc count offset toks sw :
  switchKind line languageId h sc ps lwc count offset toks = inr sw ->
  sw_type sw <> TOKEN_POSTMAN_VARIABLE /\
  sw_type sw <> TOKEN_POSTMAN_VARIABLE_IN_STRING.
Proof.
  unfold switchKind, caseOpenBrace, caseStringLiteral, ParentsStackOps.push,
    new_ParentsStack.
  rewrite plain, andb_false_r.
  destruct (Scanner.token sc); cbv beta iota zeta; intros [= <-]; cbn;
    try (split; discriminate).
  destruct (_ || _); split; discriminate.
Qed.

Lemma commentType_plain kind ty :
  ty <> TOKEN_POSTMAN_VARIABLE /\ ty <> TOKEN_POSTMAN_VARIABLE_IN_STRING ->
  commentType comments kind ty <> TOKEN_POSTMAN_VARIABLE /\
  commentType comments kind ty <> TOKEN_POSTMAN_VARIABLE_IN_STRING.
Proof.
  intros H. unfold commentType. destruct comments; [| exact H].
  destruct kind; try exact H; split; discriminate.
Qed.

Lemma tokenize_loop_plainTokens fuel :
  forall h v h' r,
    Forall plainToken (tokens (ret v)) ->
    tokenize_loop fuel comments line state offsetDelta languageId n h v
      = Return h' r ->
    Forall plainToken (tokens r).
Proof.
  induction fuel as [|fuel IH]; intros h v h' r Hv; cbn [tokenize_loop];
    [discriminate |].
  unfold tokenize_step.
  destruct (bool_decide (Scanner.token (Scanner.scan (scanner v)) = SyntaxKind.EOF)).
  - intros [= <- <-]. exact Hv.
  - destruct (_ =? _); [discriminate |].
    destruct (switchKind _ _ _ _ _ _ _ _ _) as [e | sw] eqn:Hsw; [discriminate |].
    pose proof (switchKind_plain_type _ _ _ _ _ _ _ _ Hsw) as Hty.
    apply (switchKind_plain line languageId plain) in Hsw
      as [Hsc [Hskip [Htoks Hpv]]].
    destruct (new_JSONState _ _ _ _ _) as [h2 e2].
    rewrite Hskip, Htoks, Hpv. apply IH. cbn [ret tokens].
    rewrite app_nil_r. apply Forall_app. split; [exact Hv |].
    repeat constructor; cbn [scopes endIndex];
      apply (commentType_plain _ _ Hty).
Qed.

End PlainTokens.

(** X3: unless the language id is [postman_json], no token that
    [tokenize] returns has the scope of a variable
    ([postman.variable.json], [postman.variable.string.json]) and none
    carries an end index. *)
Theorem plain_variant_has_no_variable_tokens
    (comments : bool) (line : JSString) (h : Heap) (state : loc)
    (offsetDelta : Z) (languageId : option string) (h' : Heap) (r : ILineTokens) :
  languageId <> Some "postman_json"%string ->
  tokenize comments line h state offsetDelta languageId = Return h' r ->
  Forall plainToken (tokens r).
Proof.
  intros Hplain. unfold tokenize.
  destruct (prefixLine _ line) as [line' n].
  destruct (JSONStateOps.clone h state) as [h1 cloned].
  apply tokenize_loop_plainTokens; [| constructor].
  unfold isPostman. apply bool_decide_eq_false. exact Hplain.
Qed.

Lemma plain_variant_has_no_variable_tokens_witness :
  exists h' r,
    tokenize true (json "{'a': {{v}}, 'b': '{{w}}'}")
      (JSONStateOps.getInitialState emptyHeap).1
      (JSONStateOps.getInitialState emptyHeap).2 0 None = Return h' r /\
    List.length (tokens r) = 16%nat /\
    Forall plainToken (tokens r).
Proof.
  do 2 eexists. split; [vm_compute; reflexivity |].
  split; [reflexivity |].
  eapply (plain_variant_has_no_variable_tokens true
            (json "{'a': {{v}}, 'b': '{{w}}'}")
            (JSONStateOps.getInitialState emptyHeap).1
            (JSONStateOps.getInitialState emptyHeap).2 0 None);
    [discriminate | vm_compute; reflexivity].
Defined.


Lemma state_at_extends (h h' : Heap) (a : loc) :
  heap_extends h h' -> (a < length (states h))%nat ->
  state_at h' a = state_at h a.
Proof.
  intros [_ Hs] Hlt. unfold state_at, loc in *.
  destruct (states h !! a) as [s|] eqn:E.
  - rewrite (prefix_lookup_Some _ _ _ _ E Hs). reflexivity.
  - apply lookup_ge_None in E. lia.
Qed.

Section StateData.

Variables (comments : bool) (line : JSString) (state : loc).
Variables (offsetDelta : Z) (languageId : option string) (n : Z).
Variable h0 : Heap.
Hypothesis state_allocated : (state < length (states h0))%nat.

Lemma tokenize_loop_state_data fuel :
  forall h v h' r,
    heap_extends h0 h ->
    (endState (ret v) < length (states h))%nat ->
    JSONStateOps.getStateData h (endState (ret v))
      = JSONStateOps.getStateData h0 state ->
    tokenize_loop fuel comments line state offsetDelta languageId n h v
      = Return h' r ->
    JSONStateOps.getStateData h' (endState r)
      = JSONStateOps.getStateData h0 state.
Proof.
  induction fuel as [|fuel IH]; intros h v h' r Hext Hend Hdata;
    cbn [tokenize_loop]; [discriminate |].
  unfold tokenize_step.
  destruct (bool_decide (Scanner.token (Scanner.scan (scanner v)) = SyntaxKind.EOF)).
  - intros [= <- <-]. exact Hdata.
  - destruct (_ =? _); [discriminate |].
    destruct (switchKind _ _ _ _ _ _ _ _ _) as [e | sw] eqn:Hsw; [discriminate |].
    apply switchKind_extends in Hsw.
    pose proof (heap_extends_trans _ _ _ Hext Hsw) as Hext1.
    unfold new_JSONState. apply IH; cbn [ret endState].
    + eapply heap_extends_trans; [exact Hext1 |].
      split; cbn; [reflexivity | apply prefix_app_r; reflexivity].
    + cbn [states]. rewrite length_app. cbn. lia.
    + unfold JSONStateOps.getStateData at 1. rewrite state_at_new.
      cbn [_state]. unfold JSONStateOps.getStateData.
      rewrite (state_at_extends h0 (sw_heap sw) state Hext1 state_allocated).
      reflexivity.
Qed.

End StateData.

(** X27: [tokenize] hands the embedded state of the line state on: when
    it returns, [getStateData] of the end state is [getStateData] of the
    state it was given. *)
Theorem tokenize_passes_state_data
    (comments : bool) (line : JSString) (h : Heap) (state : loc)
    (offsetDelta : Z) (languageId : option string) (h' : Heap) (r : ILineTokens) :
  (state < length (states h))%nat ->
  tokenize comments line h state offsetDelta languageId = Return h' r ->
  JSONStateOps.getStateData h' (endState r) = JSONStateOps.getStateData h state.
Proof.
  intros Hlt. unfold tokenize.
  destruct (prefixLine _ line) as [line' n].
  unfold JSONStateOps.clone, new_JSONState.
  apply (tokenize_loop_state_data comments line' state offsetDelta languageId n
           h Hlt); cbn [ret endState].
  - split; cbn; [reflexivity | apply prefix_app_r; reflexivity].
  - cbn [states]. rewrite length_app. cbn. lia.
  - unfold JSONStateOps.getStateData at 1. rewrite state_at_new. reflexivity.
Qed.

Lemma tokenize_passes_state_data_witness :
  let h := {| frames := [];
              states := [{| _state := Some 42%nat; scanError := None;
                            lastWasColon := false; parents := None |}];
              global_length := Some 0 |} in
  (0 < length (states h))%nat /\
  exists h' r,
    tokenize true (json "{'a': [{{v}}, '{{w}}']}") h 0%nat 0
      (Some "postman_json"%string) = Return h' r /\
    JSONStateOps.getStateData h' (endState r) = Some 42%nat.
Proof.
  cbv zeta. split; [cbn; lia |].
  destruct (tokenize true (json "{'a': [{{v}}, '{{w}}']}")
              {| frames := [];
                 states := [{| _state := Some 42%nat; scanError := None;
                               lastWasColon := false; parents := None |}];
                 global_length := Some 0 |}
              0%nat 0 (Some "postman_json"%string))
    as [h' r | h' e | h'] eqn:E;
    try (vm_compute in E; discriminate).
  exists h', r. split; [reflexivity |].
  rewrite (fun Hlt => tokenize_passes_state_data _ _ _ _ _ _ _ _ Hlt E).
  - reflexivity.
  - cbn. lia.
Defined.

(* ===================================================================== *)
(** * Properties: the closest delimiter *)
(* ===================================================================== *)

Lemma indexOf_from_range (s needle : JSString) :
  forall i, indexOf_from s needle i = -1 \/ i <= indexOf_from s needle i.
Proof.
  induction s as [|c s IH]; intros i; cbn [indexOf_from];
    destruct (startsWith _ needle); try (right; lia); [left; reflexivity |].
  destruct (IH (i + 1)); [left; assumption | right; lia].
Qed.

Lemma indexOf_range (s needle : JSString) :
  indexOf s needle = -1 \/ 0 <= indexOf s needle.
Proof. apply indexOf_from_range. Qed.

Lemma leastIndexOf_spec (s : JSString) (ds : list JSString) :
  forall acc,
    match leastIndexOf s ds acc with
    | Some l =>
        (acc = Some l \/ exists d, d ∈ ds /\ indexOf s d = l) /\
        (forall a, acc = Some a -> l <= a) /\
        (forall d, d ∈ ds -> 0 <= indexOf s d -> l <= indexOf s d)
    | None => acc = None /\ forall d, d ∈ ds -> indexOf s d = -1
    end.
Proof.
  induction ds as [|d ds IH]; intros acc; cbn [leastIndexOf].
  - destruct acc as [a|].
    + split; [left; reflexivity |]. split; [intros ? [= <-]; lia |].
      intros d Hd. inversion Hd.
    + split; [reflexivity |]. intros d Hd. inversion Hd.
  - match goal with |- context [leastIndexOf s ds ?a] => specialize (IH a) end.
    destruct (indexOf_range s d) as [Hd | Hd].
    + (* d does not occur *)
      replace (indexOf s d >? -1) with false in * by (symmetry; lia).
      rewrite andb_false_r in *.
      destruct (leastIndexOf s ds acc) as [l|].
      * destruct IH as [H1 [H2 H3]]. split; [| split; [exact H2 |]].
        -- destruct H1 as [H1 | [d' [Hin Hd']]]; [left; exact H1 |].
           right. exists d'. split; [apply elem_of_cons; right; exact Hin | exact Hd'].
        -- intros d' Hin Hge. apply elem_of_cons in Hin as [-> | Hin];
             [lia | apply H3; assumption].
      * destruct IH as [H1 H2]. split; [exact H1 |].
        intros d' Hin. apply elem_of_cons in Hin as [-> | Hin];
          [exact Hd | apply H2; exact Hin].
    + replace (indexOf s d >? -1) with true in * by (symmetry; lia).
      rewrite andb_true_r in *.
      destruct acc as [a|].
      * destruct (a >? indexOf s d) eqn:E.
        -- destruct (leastIndexOf s ds (Some (indexOf s d))) as [l|].
           ++ destruct IH as [H1 [H2 H3]].
              specialize (H2 _ eq_refl).
              split; [| split].
              ** right. destruct H1 as [[= H1] | [d' [Hin Hd']]].
                 --- exists d. split; [apply elem_of_cons; left; reflexivity | exact H1].
                 --- exists d'. split; [apply elem_of_cons; right; exact Hin | exact Hd'].
              ** intros ? [= <-]. lia.
              ** intros d' Hin Hge. apply elem_of_cons in Hin as [-> | Hin];
                   [exact H2 | apply H3; assumption].
           ++ destruct IH as [[=] _].
        -- destruct (leastIndexOf s ds (Some a)) as [l|].
           ++ destruct IH as [H1 [H2 H3]].
              specialize (H2 _ eq_refl).
              split; [| split].
              ** destruct H1 as [H1 | [d' [Hin Hd']]]; [left; exact H1 |].
                 right. exists d'. split; [apply elem_of_cons; right; exact Hin | exact Hd'].
              ** intros ? [= <-]. exact H2.
              ** intros d' Hin Hge. apply elem_of_cons in Hin as [-> | Hin];
                   [lia | apply H3; assumption].
           ++ destruct IH as [[=] _].
      * cbn [andb] in *.
        destruct (leastIndexOf s ds (Some (indexOf s d))) as [l|].
        -- destruct IH as [H1 [H2 H3]].
           specialize (H2 _ eq_refl).
           split; [| split].
           ++ right. destruct H1 as [[= H1] | [d' [Hin Hd']]].
              ** exists d. split; [apply elem_of_cons; left; reflexivity | exact H1].
              ** exists d'. split; [apply elem_of_cons; right; exact Hin | exact Hd'].
           ++ intros ? [=].
           ++ intros d' Hin Hge. apply elem_of_cons in Hin as [-> | Hin];
                [exact H2 | apply H3; assumption].
        -- destruct IH as [[=] _].
Qed.

(** X10: [findClosestDelimiter] first assigns the number of delimiters to
    the global variable [length], which it does not declare.  Where the
    global object has no property of that name, the call throws a
    [ReferenceError].  Where it has one, the call leaves the number of
    delimiters in it and returns -1 exactly when none of the delimiters
    occurs in the text (in particular for no delimiter at all), and
    otherwise the least of the first positions of the delimiters that
    occur. *)
Theorem findClosestDelimiter_least
    (h : Heap) (s : JSString) (ds : list JSString) :
  match findClosestDelimiter h s ds with
  | inl e => e = ReferenceError /\ global_length h = None
  | inr (h', index) =>
      lengthDeclared h /\
      h' = assign_length h (Z.of_nat (length ds)) /\
      ((index = -1 /\ forall d, d ∈ ds -> indexOf s d = -1) \/
       (0 <= index /\
        (exists d, d ∈ ds /\ indexOf s d = index) /\
        forall d, d ∈ ds -> 0 <= indexOf s d -> index <= indexOf s d))
  end.
Proof.
  destruct (global_length h) as [g|] eqn:Hg.
  - rewrite (findClosestDelimiter_declared h g s ds Hg). cbv beta iota.
    split; [eexists; exact Hg |]. split; [reflexivity |].
    destruct ds as [|d0 ds].
    + left. split; [reflexivity |]. intros d Hd. inversion Hd.
    + pose proof (leastIndexOf_spec s (d0 :: ds) None) as H.
      destruct (leastIndexOf s (d0 :: ds) None) as [l|] eqn:E.
      * right. destruct H as [[[=] | [d [Hin Hd]]] [_ H3]].
        split; [| split; [exists d; split; assumption | exact H3]].
        eapply leastIndexOf_nonneg; [| exact E]. discriminate.
      * left. destruct H as [_ H]. split; [reflexivity | exact H].
  - unfold findClosestDelimiter. rewrite Hg. split; reflexivity.
Qed.

(* ===================================================================== *)
(** * Properties: the spans of the sub-scanner *)
(* ===================================================================== *)

Section Spans.

Variables (s : JSString) (offset : Z) (inString : bool).

Lemma isChar_true c x : isChar c x = true -> x = [c].
Proof. unfold isChar, JS.eqb. apply bool_decide_eq_true. Qed.

Lemma popAdjacent_braces pos stack :
  forall cur,
    openBraceAt s offset pos cur -> Forall (openBraceAt s offset pos) stack ->
    Forall (openBraceAt s offset pos) (popAdjacent cur stack).1 /\
    match (popAdjacent cur stack).2 with
    | Some found =>
        offset <= b_start found /\ b_start found + 2 <= offset + pos /\
        charAt s (b_start found - offset) = ["{"%char] /\
        charAt s (b_start found - offset + 1) = ["{"%char]
    | None => True
    end.
Proof.
  induction stack as [|next rest IH]; intros cur Hcur Hstack; cbn [popAdjacent].
  - split; [constructor | exact I].
  - apply Forall_cons in Hstack as [Hnext Hrest].
    destruct (b_start cur =? b_start next + 1) eqn:E; cbn [fst snd].
    + split; [exact Hrest |]. destruct Hcur as [Hc1 Hc2], Hnext as [Hn1 Hn2].
      apply Z.eqb_eq in E.
      repeat split; try lia; [exact Hn2 |].
      replace (b_start next - offset + 1) with (b_start cur - offset) by lia.
      exact Hc2.
    + apply IH; assumption.
Qed.

Lemma popMatching_braces pos stack :
  Forall (openBraceAt s offset pos) stack ->
  Forall (openBraceAt s offset pos) (popMatching stack).1 /\
  match (popMatching stack).2 with
  | Some found =>
      offset <= b_start found /\ b_start found + 2 <= offset + pos /\
      charAt s (b_start found - offset) = ["{"%char] /\
      charAt s (b_start found - offset + 1) = ["{"%char]
  | None => True
  end.
Proof.
  destruct stack as [|cur rest]; intros H; cbn [popMatching].
  - split; [constructor | exact I].
  - apply Forall_cons in H as [Hcur Hrest]. apply popAdjacent_braces; assumption.
Qed.

Lemma openBraceAt_later pos pos' stack :
  pos <= pos' -> Forall (openBraceAt s offset pos) stack ->
  Forall (openBraceAt s offset pos') stack.
Proof.
  intros Hle H. eapply Forall_impl; [exact H |].
  unfold openBraceAt. intros b [? ?]. split; [lia | assumption].
Qed.

Lemma matchBrackets_variableBrackets fuel :
  forall pos stack matched,
    0 <= pos ->
    Forall (openBraceAt s offset pos) stack ->
    Forall (variableBracket s offset inString) matched ->
    Forall (variableBracket s offset inString)
      (matchBrackets s offset inString fuel pos stack matched).
Proof.
  induction fuel as [|fuel IH]; intros pos stack matched Hpos Hstack Hm;
    cbn [matchBrackets]; [exact Hm |].
  destruct (pos <? len s) eqn:Hlt; [| exact Hm].
  destruct (isChar "{" (charAt s pos)) eqn:Hopen.
  - apply isChar_true in Hopen.
    apply IH; [lia | | exact Hm].
    apply Forall_cons. split.
    + unfold openBraceAt. cbn [b_start].
      replace (offset + pos - offset) with pos by lia. split; [lia | exact Hopen].
    + eapply openBraceAt_later; [| exact Hstack]. lia.
  - destruct (_ && _) eqn:Hclose.
    + apply andb_prop in Hclose as [Hclose H2]. apply andb_prop in Hclose as [H0 H1].
      apply isChar_true in H0, H2.
      pose proof (popMatching_braces pos stack Hstack) as [Hs Hf].
      destruct (popMatching stack) as [stack' [found|]]; cbn [fst snd] in Hs, Hf.
      * apply IH; [lia | eapply openBraceAt_later; [| exact Hs]; lia |].
        apply Forall_app. split; [exact Hm |].
        apply Forall_cons. split; [| constructor].
        destruct Hf as [Hf1 [Hf2 [Hf3 Hf4]]].
        unfold variableBracket, bracesAt. cbn [b_start b_end b_scopes].
        replace (offset + pos + 1 - offset - 1) with pos by lia.
        replace (offset + pos + 1 - offset) with (pos + 1) by lia.
        repeat split; try assumption; lia.
      * apply IH; [lia | eapply openBraceAt_later; [| exact Hs]; lia | exact Hm].
    + apply IH; [lia | eapply openBraceAt_later; [| exact Hstack]; lia | exact Hm].
Qed.

Lemma filterNested_chained l :
  forall e, chained e (filterNested l e).
Proof.
  induction l as [|b l IH]; intros e; cbn [filterNested]; [exact I |].
  destruct (b_start b >? e) eqn:E; [| apply IH].
  cbn [chained]. split; [lia | apply IH].
Qed.

Lemma pushBrackets_step inValue inStr current next l e acc :
  e < b_start current ->
  pushBrackets inValue inStr (current :: next :: l) e acc =
    if b_start next =? b_end current + 1
    then pushBrackets inValue inStr (next :: l) (b_end current)
           (acc ++ [token_of_bracket current])
    else pushBrackets inValue inStr (next :: l) (b_start next - 1)
           (if inStr
            then (acc ++ [token_of_bracket current]) ++
                 [{| startIndex := b_end current + 1;
                     scopes := fillerScope inValue;
                     endIndex := Some (b_start next - 1) |}]
            else acc ++ [token_of_bracket current]).
Proof.
  intros He.
  change (pushBrackets inValue inStr (current :: next :: l) e acc)
    with (let '(res1, end1) :=
            if e <? b_start current
            then (acc ++ [token_of_bracket current], b_end current)
            else (acc, e) in
          if b_start next =? b_end current + 1
          then pushBrackets inValue inStr (next :: l) end1 res1
          else pushBrackets inValue inStr (next :: l) (b_start next - 1)
                 (if inStr
                  then res1 ++ [{| startIndex := b_end current + 1;
                                   scopes := fillerScope inValue;
                                   endIndex := Some (b_start next - 1) |}]
                  else res1)).
  replace (e <? b_start current) with true by (symmetry; lia).
  reflexivity.
Qed.

Lemma pushBrackets_top inValue l :
  forall e acc,
    chained e l ->
    (pushBrackets inValue false l e acc).1 = acc ++ map token_of_bracket l.
Proof.
  induction l as [|current l IH]; intros e acc Hl.
  - cbn. rewrite app_nil_r. reflexivity.
  - destruct Hl as [He Hl]. destruct l as [|next l'].
    + cbn [pushBrackets map].
      replace (e <? b_start current) with true by (symmetry; lia).
      reflexivity.
    + rewrite pushBrackets_step by exact He. destruct Hl as [Hn Hl'].
      destruct (b_start next =? b_end current + 1).
      * rewrite IH by (split; assumption). rewrite <- app_assoc. reflexivity.
      * rewrite IH by (split; [lia | assumption]). rewrite <- app_assoc. reflexivity.
Qed.

Lemma abut_app start toks1 mid toks2 next :
  abut start toks1 mid -> abut mid toks2 next -> abut start (toks1 ++ toks2) next.
Proof.
  revert start. induction toks1 as [|t toks1 IH]; intros start; cbn [abut app].
  - intros ->. auto.
  - intros [Hs [e [He [Hle H1]]]] H2. split; [exact Hs |].
    exists e. repeat split; try assumption. apply IH; assumption.
Qed.

Lemma last_cons {A : Type} (l : list A) :
  forall a d, List.last (a :: l) d = List.last l a.
Proof.
  induction l as [|x l IH]; intros a d; [reflexivity |].
  change (List.last (a :: x :: l) d) with (List.last (x :: l) d).
  rewrite !IH. reflexivity.
Qed.

Lemma pushBrackets_tiles inValue l :
  forall current e acc,
    e < b_start current ->
    b_start current <= b_end current ->
    chained (b_end current) l ->
    Forall (fun b => b_start b <= b_end b) l ->
    exists segs,
      pushBrackets inValue true (current :: l) e acc
        = (acc ++ segs, b_end (List.last l current)) /\
      abut (b_start current) segs (b_end (List.last l current) + 1).
Proof.
  induction l as [|next l IH]; intros current e acc He Hcur Hl Hle.
  - cbn [pushBrackets List.last].
    replace (e <? b_start current) with true by (symmetry; lia).
    exists [token_of_bracket current]. split; [reflexivity |].
    cbn. split; [reflexivity |]. exists (b_end current). auto.
  - destruct Hl as [Hn Hl]. apply Forall_cons in Hle as [Hnle Hle].
    rewrite pushBrackets_step by exact He.
    rewrite (last_cons l next current).
    destruct (b_start next =? b_end current + 1) eqn:E.
    + apply Z.eqb_eq in E.
      destruct (IH next (b_end current) (acc ++ [token_of_bracket current])
                  ltac:(lia) Hnle Hl Hle) as [segs [Hrun Hab]].
      exists (token_of_bracket current :: segs).
      rewrite Hrun, <- app_assoc. split; [reflexivity |].
      cbn [abut token_of_bracket startIndex endIndex].
      split; [reflexivity |]. exists (b_end current).
      repeat split; [exact Hcur |]. rewrite <- E. exact Hab.
    + apply Z.eqb_neq in E.
      destruct (IH next (b_start next - 1)
                  ((acc ++ [token_of_bracket current]) ++
                   [{| startIndex := b_end current + 1;
                       scopes := fillerScope inValue;
                       endIndex := Some (b_start next - 1) |}])
                  ltac:(lia) Hnle Hl Hle) as [segs [Hrun Hab]].
      eexists (token_of_bracket current :: _ :: segs).
      rewrite Hrun, <- !app_assoc. split; [reflexivity |].
      cbn [abut token_of_bracket startIndex endIndex].
      split; [reflexivity |]. exists (b_end current).
      repeat split; [exact Hcur |].
      exists (b_start next - 1). repeat split; [lia |].
      replace (b_start next - 1 + 1) with (b_start next) by lia. exact Hab.
Qed.

End Spans.

Lemma Forall_last_default {A : Type} (P : A -> Prop) (l : list A) :
  forall d, P d -> Forall P l -> P (List.last l d).
Proof.
  induction l as [|x l IH]; intros d Hd Hl; [exact Hd |].
  apply Forall_cons in Hl as [Hx Hl]. rewrite last_cons. apply IH; assumption.
Qed.

Section Laminar.

Variables (s : JSString) (offset : Z) (inString : bool).

Lemma decreasing_weaken stack :
  forall b b', b <= b' -> decreasing b stack -> decreasing b' stack.
Proof.
  destruct stack as [|e stack]; intros b b' Hle; cbn [decreasing]; [auto |].
  intros [H1 H2]. split; [lia | exact H2].
Qed.

Lemma decreasing_below stack :
  forall b e, decreasing b stack -> e ∈ stack -> b_start e < b.
Proof.
  induction stack as [|x stack IH]; intros b e Hd He; [inversion He |].
  destruct Hd as [H1 H2]. apply elem_of_cons in He as [-> | He]; [exact H1 |].
  specialize (IH _ _ H2 He). lia.
Qed.

Lemma popAdjacent_decreasing stack :
  forall cur,
    decreasing (b_start cur) stack ->
    (forall e, e ∈ (popAdjacent cur stack).1 -> e ∈ stack) /\
    match (popAdjacent cur stack).2 with
    | Some found =>
        found ∈ stack /\ decreasing (b_start found) (popAdjacent cur stack).1
    | None => (popAdjacent cur stack).1 = []
    end.
Proof.
  induction stack as [|next rest IH]; intros cur Hd; cbn [popAdjacent].
  - split; [auto | reflexivity].
  - destruct Hd as [H1 H2].
    destruct (b_start cur =? b_start next + 1); cbn [fst snd].
    + split; [intros e He; apply elem_of_cons; right; exact He |].
      split; [apply elem_of_cons; left; reflexivity | exact H2].
    + destruct (IH next H2) as [Hsub Hres].
      split; [intros e He; apply elem_of_cons; right; apply Hsub; exact He |].
      destruct ((popAdjacent next rest).2); [| exact Hres].
      destruct Hres as [Hin Hdec]. split; [apply elem_of_cons; right; exact Hin | exact Hdec].
Qed.

Lemma popMatching_decreasing bound stack :
  decreasing bound stack ->
  (forall e, e ∈ (popMatching stack).1 -> e ∈ stack) /\
  match (popMatching stack).2 with
  | Some found =>
      found ∈ stack /\ decreasing (b_start found) (popMatching stack).1
  | None => (popMatching stack).1 = []
  end.
Proof.
  destruct stack as [|cur rest]; cbn [popMatching decreasing].
  - intros _. split; [auto | reflexivity].
  - intros [_ Hd]. destruct (popAdjacent_decreasing rest cur Hd) as [Hsub Hres].
    split; [intros e He; apply elem_of_cons; right; apply Hsub; exact He |].
    destruct ((popAdjacent cur rest).2); [| exact Hres].
    destruct Hres as [Hin Hdec]. split; [apply elem_of_cons; right; exact Hin | exact Hdec].
Qed.

Lemma laminar_sym x y : laminar x y -> laminar y x.
Proof. unfold laminar. lia. Qed.

Lemma matchBrackets_laminar fuel :
  forall pos stack matched,
    matching offset pos stack matched ->
    let result := matchBrackets s offset inString fuel pos stack matched in
    (forall m, m ∈ result -> b_start m < b_end m) /\
    (forall x y, x ∈ result -> y ∈ result -> x = y \/ laminar x y).
Proof.
  induction fuel as [|fuel IH]; intros pos stack matched Hm; cbn [matchBrackets].
  - destruct Hm as [_ [H1 [_ H3]]]. split; [intros m Hin; apply H1; exact Hin | exact H3].
  - destruct (pos <? len s);
      [| destruct Hm as [_ [H1 [_ H3]]];
         split; [intros m Hin; apply H1; exact Hin | exact H3]].
    destruct Hm as [Hd [H1 [H2 H3]]].
    destruct (isChar "{" (charAt s pos)).
    + (* a marker is pushed *)
      apply IH. split; [| split; [| split]].
      * cbn [decreasing b_start]. split; [lia |].
        exact Hd.
      * intros m Hin. specialize (H1 m Hin). lia.
      * intros m e Hin He. apply elem_of_cons in He as [-> | He].
        -- cbn [b_start]. specialize (H1 m Hin). lia.
        -- apply H2; assumption.
      * exact H3.
    + destruct (_ && _).
      * pose proof (popMatching_decreasing _ stack Hd) as [Hsub Hres].
        destruct (popMatching stack) as [stack' [found|]]; cbn [fst snd] in Hsub, Hres.
        -- (* a match *)
           destruct Hres as [Hfound Hdec].
           pose proof (decreasing_below _ _ _ Hd Hfound) as Hlt.
           apply IH. split; [| split; [| split]].
           ++ eapply decreasing_weaken; [| exact Hdec]. lia.
           ++ intros m Hin. apply elem_of_app in Hin as [Hin | Hin].
              ** specialize (H1 m Hin). lia.
              ** apply list_elem_of_singleton in Hin. subst m. cbn. lia.
           ++ intros m e Hin He. apply elem_of_app in Hin as [Hin | Hin].
              ** apply H2; [exact Hin | apply Hsub; exact He].
              ** apply list_elem_of_singleton in Hin. subst m. cbn [b_start b_end].
                 left. eapply decreasing_below; eassumption.
           ++ assert (forall x, x ∈ matched ->
                        laminar x {| b_start := b_start found;
                                     b_scopes := if inString
                                                 then TOKEN_POSTMAN_VARIABLE_IN_STRING
                                                 else TOKEN_POSTMAN_VARIABLE;
                                     b_end := offset + pos + 1 |}) as Hnew.
              { intros x Hx. unfold laminar. cbn [b_start b_end].
                specialize (H1 x Hx). specialize (H2 x found Hx Hfound). lia. }
              intros x y Hx Hy.
              apply elem_of_app in Hx as [Hx | Hx], Hy as [Hy | Hy].
              ** apply H3; assumption.
              ** apply list_elem_of_singleton in Hy. subst y. right. apply Hnew, Hx.
              ** apply list_elem_of_singleton in Hx. subst x. right.
                 apply laminar_sym, Hnew, Hy.
              ** apply list_elem_of_singleton in Hx, Hy. subst. left. reflexivity.
        -- (* no match: the stack is emptied *)
           subst stack'. apply IH. split; [exact I |]. split; [| split].
           ++ intros m Hin. specialize (H1 m Hin). lia.
           ++ intros m e _ He. inversion He.
           ++ exact H3.
      * apply IH. split; [| split; [| split]].
        -- eapply decreasing_weaken; [| exact Hd]. lia.
        -- intros m Hin. specialize (H1 m Hin). lia.
        -- exact H2.
        -- exact H3.
Qed.

End Laminar.

Lemma insertSorted_elem (b x : Bracket) (l : list Bracket) :
  x ∈ insertSorted b l <-> x = b \/ x ∈ l.
Proof.
  induction l as [|y l IH]; cbn [insertSorted].
  - rewrite list_elem_of_singleton. split; [auto | intros [H | H]; [exact H | inversion H]].
  - destruct (b_start b <? b_start y).
    + rewrite !elem_of_cons. tauto.
    + rewrite !elem_of_cons, IH. tauto.
Qed.

Lemma sortByStart_elem (x : Bracket) (l : list Bracket) :
  x ∈ sortByStart l <-> x ∈ l.
Proof.
  unfold sortByStart.
  assert (forall acc, x ∈ fold_left (fun acc b => insertSorted b acc) l acc
                      <-> x ∈ l \/ x ∈ acc) as H.
  { induction l as [|b l IH]; intros acc; cbn [fold_left].
    - split; [auto | intros [H | H]; [inversion H | exact H]].
    - rewrite IH, insertSorted_elem, elem_of_cons. tauto. }
  rewrite H. split; [intros [Hx | Hx]; [exact Hx | inversion Hx] | auto].
Qed.

Lemma ascending_weaken l :
  forall lo lo', lo' <= lo -> ascending lo l -> ascending lo' l.
Proof.
  destruct l as [|b l]; intros lo lo' Hle; cbn [ascending]; [auto |].
  intros [H1 H2]. split; [lia | exact H2].
Qed.

Lemma insertSorted_ascending (b : Bracket) (l : list Bracket) :
  forall lo, lo <= b_start b -> ascending lo l -> ascending lo (insertSorted b l).
Proof.
  induction l as [|x l IH]; intros lo Hb Hl; cbn [insertSorted].
  - cbn. auto.
  - destruct Hl as [H1 H2]. destruct (b_start b <? b_start x) eqn:E.
    + cbn [ascending]. repeat split; try lia. exact H2.
    + cbn [ascending]. split; [exact H1 |]. apply IH; [lia | exact H2].
Qed.

Lemma sortByStart_ascending (lo : Z) (l : list Bracket) :
  Forall (fun b => lo <= b_start b) l -> ascending lo (sortByStart l).
Proof.
  unfold sortByStart.
  assert (forall acc, Forall (fun b => lo <= b_start b) l -> ascending lo acc ->
                      ascending lo (fold_left (fun acc b => insertSorted b acc) l acc))
    as H.
  { induction l as [|b l IH]; intros acc Hl Hacc; cbn [fold_left]; [exact Hacc |].
    apply Forall_cons in Hl as [Hb Hl].
    apply IH; [exact Hl |]. apply insertSorted_ascending; assumption. }
  intros Hl. apply H; [exact Hl | exact I].
Qed.

Lemma ascending_above l :
  forall lo b, ascending lo l -> b ∈ l -> lo <= b_start b.
Proof.
  induction l as [|x l IH]; intros lo b Hl Hb; [inversion Hb |].
  destruct Hl as [H1 H2]. apply elem_of_cons in Hb as [-> | Hb]; [exact H1 |].
  specialize (IH _ _ H2 Hb). lia.
Qed.

(** The filter drops a bracket only when a bracket that it keeps encloses
    it. *)
Lemma filterNested_spans l :
  forall k,
    ascending (b_start k) l ->
    (forall x, x ∈ k :: l -> b_start x <= b_end x) ->
    (forall x y, x ∈ k :: l -> y ∈ k :: l -> x = y \/ laminar x y) ->
    forall b, b ∈ l ->
      exists c, c ∈ k :: filterNested l (b_end k) /\ encloses c b.
Proof.
  induction l as [|b1 l IH]; intros k Hasc Hle Hlam b Hb; [inversion Hb |].
  destruct Hasc as [Hk Hasc]. cbn [filterNested].
  assert (k ∈ k :: b1 :: l) as Hkin by (apply elem_of_cons; left; reflexivity).
  assert (b1 ∈ k :: b1 :: l) as Hb1in
    by (apply elem_of_cons; right; apply elem_of_cons; left; reflexivity).
  destruct (b_start b1 >? b_end k) eqn:E.
  - (* [b1] is kept *)
    apply elem_of_cons in Hb as [-> | Hb].
    + exists b1. split; [| split; lia].
      apply elem_of_cons; right. apply elem_of_cons; left. reflexivity.
    + destruct (IH b1 Hasc) with (b := b) as [c [Hc Hspan]]; [| | exact Hb |].
      * intros x Hx. apply Hle. apply elem_of_cons. right. exact Hx.
      * intros x y Hx Hy. apply Hlam; apply elem_of_cons; right; assumption.
      * exists c. split; [apply elem_of_cons; right; exact Hc | exact Hspan].
  - (* [b1] is dropped: [k] encloses it *)
    apply elem_of_cons in Hb as [-> | Hb].
    + exists k. split; [apply elem_of_cons; left; reflexivity |].
      pose proof (Hle k Hkin). pose proof (Hle b1 Hb1in).
      destruct (Hlam k b1 Hkin Hb1in) as [-> | Hl]; [split; lia |].
      unfold laminar in Hl. unfold encloses. lia.
    + destruct (IH k) with (b := b) as [c [Hc Hspan]]; [| | | exact Hb |].
      * eapply ascending_weaken; [| exact Hasc]. exact Hk.
      * intros x Hx. apply Hle. apply elem_of_cons in Hx as [-> | Hx];
          [exact Hkin | apply elem_of_cons; right; apply elem_of_cons; right; exact Hx].
      * intros x y Hx Hy.
        apply Hlam.
        -- apply elem_of_cons in Hx as [-> | Hx];
             [exact Hkin | apply elem_of_cons; right; apply elem_of_cons; right; exact Hx].
        -- apply elem_of_cons in Hy as [-> | Hy];
             [exact Hkin | apply elem_of_cons; right; apply elem_of_cons; right; exact Hy].
      * exists c. split; [exact Hc | exact Hspan].
Qed.

(** Every bracket of a list that is in order, from 0 on, with brackets
    that lie apart or inside each other, is spanned by one that survives
    the filter. *)
Lemma filterNested_spans_all l :
  ascending 0 l ->
  (forall x, x ∈ l -> b_start x <= b_end x) ->
  (forall x y, x ∈ l -> y ∈ l -> x = y \/ laminar x y) ->
  forall b, b ∈ l -> exists c, c ∈ filterNested l (-1) /\ encloses c b.
Proof.
  destruct l as [|k l]; intros Hasc Hle Hlam b Hb; [inversion Hb |].
  destruct Hasc as [Hk Hasc]. cbn [filterNested].
  replace (b_start k >? -1) with true by (symmetry; lia).
  apply elem_of_cons in Hb as [-> | Hb].
  - exists k. split; [apply elem_of_cons; left; reflexivity | split; lia].
  - apply filterNested_spans; assumption.
Qed.

Lemma charAt_app_l (a b : JSString) (i : Z) :
  0 <= i < len a -> charAt (a ++ b) i = charAt a i.
Proof.
  intros H. unfold charAt, charCodeAt, len, JSString in *.
  replace (i <? 0) with false by (symmetry; lia).
  rewrite lookup_app_l by lia. reflexivity.
Qed.

Lemma charAt_app_r (a b : JSString) (i : Z) :
  0 <= i -> charAt (a ++ b) (len a + i) = charAt b i.
Proof.
  intros H. unfold charAt, charCodeAt, len, JSString in *.
  replace (Z.of_nat (length a) + i <? 0) with false
    by (symmetry; apply Z.ltb_ge; lia).
  replace (i <? 0) with false by (symmetry; lia).
  rewrite lookup_app_r by lia.
  replace (Z.to_nat (Z.of_nat (length a) + i) - length a)%nat
    with (Z.to_nat i) by lia.
  reflexivity.
Qed.

Lemma braceFree_charAt (name : JSString) (j : Z) :
  braceFree name ->
  isChar "{" (charAt name j) = false /\ isChar "}" (charAt name j) = false.
Proof.
  intros Hn. unfold isChar, JS.eqb, charAt, charCodeAt, braceFree, JSString in *.
  destruct (j <? 0); [split; reflexivity |].
  destruct (name !! Z.to_nat j) as [c|] eqn:E; [| split; reflexivity].
  destruct (proj1 (Forall_lookup _ _) Hn _ _ E) as [H1 H2].
  split; apply bool_decide_eq_false; congruence.
Qed.

Lemma matchBrackets_keeps (s : JSString) (offset : Z) (inString : bool) fuel :
  forall pos stack matched m,
    m ∈ matched -> m ∈ matchBrackets s offset inString fuel pos stack matched.
Proof.
  induction fuel as [|fuel IH]; intros pos stack matched m Hm;
    cbn [matchBrackets]; [exact Hm |].
  repeat match goal with
         | |- context [if ?b then _ else _] => destruct b
         | |- context [match popMatching ?st with _ => _ end] =>
             destruct (popMatching st) as [? [?|]]
         end;
    try exact Hm; apply IH; try exact Hm;
    apply elem_of_app; left; exact Hm.
Qed.

Section Finds.

Variables (pre name post : JSString) (offset : Z) (inString : bool).
Hypothesis name_braceFree : braceFree name.

Let s : JSString := pre ++ lit "{{" ++ name ++ lit "}}" ++ post.
Let p : Z := len pre.
Let q : Z := len pre + 2 + len name.

Lemma variable_chars :
  charAt s p = ["{"%char] /\ charAt s (p + 1) = ["{"%char] /\
  charAt s q = ["}"%char] /\ charAt s (q + 1) = ["}"%char] /\
  q + 1 < len s /\
  forall i, p + 2 <= i < q ->
    isChar "{" (charAt s i) = false /\ isChar "}" (charAt s i) = false.
Proof.
  subst s p q.
  assert (forall a b : JSString, len (a ++ b) = len a + len b) as Hlen
    by (intros; unfold len; rewrite length_app; lia).
  assert (len (lit "{{") = 2) as H2 by reflexivity.
  repeat split.
  - replace (len pre) with (len pre + 0) by lia.
    rewrite charAt_app_r by lia. reflexivity.
  - rewrite charAt_app_r by lia. reflexivity.
  - replace (len pre + 2 + len name) with (len pre + (len (lit "{{") + (len name + 0)))
      by lia.
    rewrite !charAt_app_r by (unfold len; lia). reflexivity.
  - replace (len pre + 2 + len name + 1)
      with (len pre + (len (lit "{{") + (len name + 1))) by lia.
    rewrite !charAt_app_r by (unfold len; lia). reflexivity.
  - rewrite !Hlen. change (len (lit "}}")) with 2. rewrite H2. unfold len. lia.
  - replace i with (len pre + (len (lit "{{") + (i - len pre - 2)))
      by (rewrite H2; lia).
    rewrite (charAt_app_r pre), (charAt_app_r (lit "{{")) by (rewrite ?H2; lia).
    rewrite charAt_app_l by lia.
    apply braceFree_charAt, name_braceFree.
  - replace i with (len pre + (len (lit "{{") + (i - len pre - 2)))
      by (rewrite H2; lia).
    rewrite (charAt_app_r pre), (charAt_app_r (lit "{{")) by (rewrite ?H2; lia).
    rewrite charAt_app_l by lia.
    apply braceFree_charAt, name_braceFree.
Qed.

Lemma isChar_refl c : isChar c [c] = true.
Proof. unfold isChar, JS.eqb. apply bool_decide_eq_true. reflexivity. Qed.

Lemma matchBrackets_finds fuel :
  forall pos stack matched,
    0 <= pos ->
    (Z.to_nat (len s - pos) <= fuel)%nat ->
    approaching offset p q pos stack ->
    {| b_start := offset + p;
       b_scopes := if inString then TOKEN_POSTMAN_VARIABLE_IN_STRING
                   else TOKEN_POSTMAN_VARIABLE;
       b_end := offset + q + 1 |}
    ∈ matchBrackets s offset inString fuel pos stack matched.
Proof.
  destruct variable_chars as [Hp [Hp1 [Hq [Hq1 [Hlen Hname]]]]].
  assert (0 <= p) as Hp0 by (subst p; unfold len; lia).
  assert (p + 2 <= q) as Hpq by (subst p q; unfold len; lia).
  clearbody s p q.
  induction fuel as [|fuel IH]; intros pos stack matched Hpos Hfuel Happ.
  - exfalso. destruct Happ as [H | [[H _] | [H _]]]; lia.
  - cbn [matchBrackets].
    assert (pos <= q) as Hle by (destruct Happ as [H | [[H _] | [H _]]]; lia).
    replace (pos <? len s) with true by (symmetry; lia).
    destruct Happ as [H | [[H [rest ->]] | [H [rest ->]]]].
    + (* before the variable *)
      destruct (Z.eq_dec pos p) as [-> | Hne].
      * rewrite Hp, isChar_refl.
        apply IH; [lia | lia |]. right. left. split; [reflexivity |].
        eexists. reflexivity.
      * destruct (isChar "{" (charAt s pos));
          [apply IH; [lia | lia | left; lia] |].
        destruct (_ && _) eqn:E.
        -- apply andb_prop in E as [_ E].
           assert (pos + 1 <> p) as Hne1.
           { intros Heq. rewrite Heq, Hp in E. discriminate E. }
           destruct (popMatching stack) as [stack' [found|]];
             apply IH; try lia; left; lia.
        -- apply IH; [lia | lia | left; lia].
    + (* after the first brace *)
      subst pos. rewrite Hp1, isChar_refl.
      apply IH; [lia | lia |]. right. right. split; [lia |].
      exists rest. replace (offset + (p + 1)) with (offset + p + 1) by lia.
      reflexivity.
    + (* between the braces *)
      destruct (Z.eq_dec pos q) as [-> | Hne].
      * rewrite Hq, Hq1.
        replace (isChar "{" ["}"%char]) with false by reflexivity.
        rewrite isChar_refl.
        replace (q + 1 <? len s) with true by (symmetry; lia).
        cbn [andb popMatching popAdjacent b_start].
        replace (offset + p + 1 =? offset + p + 1) with true by (symmetry; lia).
        apply matchBrackets_keeps. apply elem_of_app. right.
        apply list_elem_of_singleton. reflexivity.
      * destruct (Hname pos ltac:(lia)) as [H1 H2]. rewrite H1, H2.
        cbn [andb]. apply IH; [lia | lia |]. right. right. split; [lia |].
        eexists. reflexivity.
Qed.

End Finds.





(* ===================================================================== *)
(** * Properties: end of line and indentation of the formatter *)
(* ===================================================================== *)

(** X13: [isEOL(text, offset)] is true exactly when the offset is outside
    the text (before its start, or at or after its end) or the character
    at the offset is a carriage return or a line feed. *)
Theorem isEOL_out_of_range_or_terminator (text : JSString) (offset : Z) :
  isEOL text offset = true <->
  (offset < 0 \/ len text <= offset \/
   charCodeAt text offset = Some CR \/ charCodeAt text offset = Some LF).
Proof.
  unfold isEOL, charAt, charCodeAt.
  destruct (offset <? 0) eqn:Hneg.
  - cbn. split; [intros _; left; lia | reflexivity].
  - destruct (text !! Z.to_nat offset) as [c|] eqn:Hc.
    + pose proof (lookup_lt_Some _ _ _ Hc) as Hlt.
      unfold indexOf. cbn [indexOf_from startsWith].
      destruct (Ascii.eqb c CR) eqn:E1; cbn [andb negb Z.eqb].
      * apply Ascii.eqb_eq in E1. subst c.
        split; [intros _; right; right; left; reflexivity | reflexivity].
      * destruct (Ascii.eqb c LF) eqn:E2; cbn [andb negb Z.eqb Z.add].
        -- apply Ascii.eqb_eq in E2. subst c.
           split; [intros _; right; right; right; reflexivity | reflexivity].
        -- split; [discriminate |].
           unfold len. intros [H | [H | [[= H] | [= H]]]]; try lia;
             subst c; discriminate.
    + apply lookup_ge_None in Hc. cbn.
      split; [intros _; right; left; unfold len; lia | reflexivity].
Qed.

Lemma leadingColumns_spaces (k : nat) (rest : JSString) (ts acc : Z) :
  leadingColumns (replicate k " "%char ++ rest) ts acc
  = leadingColumns rest ts (acc + Z.of_nat k).
Proof.
  revert acc. induction k as [|k IH]; intros acc; cbn [replicate app leadingColumns].
  - f_equal. lia.
  - cbn. rewrite IH. f_equal. lia.
Qed.

Lemma leadingColumns_tabs (k : nat) (rest : JSString) (ts acc : Z) :
  leadingColumns (replicate k TAB ++ rest) ts acc
  = leadingColumns rest ts (acc + Z.of_nat k * ts).
Proof.
  revert acc. induction k as [|k IH]; intros acc; cbn [replicate app leadingColumns].
  - f_equal. lia.
  - cbn. rewrite IH. f_equal. lia.
Qed.

Lemma leadingColumns_stop (rest : JSString) (ts acc : Z) :
  (forall c, head rest = Some c -> c <> " "%char /\ c <> TAB) ->
  leadingColumns rest ts acc = acc.
Proof.
  destruct rest as [|c rest]; intros H; cbn [leadingColumns]; [reflexivity |].
  destruct (H c eq_refl) as [H1 H2].
  apply Ascii.eqb_neq in H1, H2. rewrite H1, H2. reflexivity.
Qed.

Lemma concat_replicate_replicate {A : Type} (n m : nat) (x : A) :
  concat (replicate n (replicate m x)) = replicate (n * m) x.
Proof.
  induction n as [|n IH]; cbn; [reflexivity |].
  rewrite IH, replicate_add. reflexivity.
Qed.

Lemma repeat_char (c : ascii) (n : Z) :
  JS.repeat [c] n = replicate (Z.to_nat n) c.
Proof.
  unfold JS.repeat, JSString. change [c] with (replicate 1 c).
  rewrite concat_replicate_replicate. f_equal. lia.
Qed.

Lemma tabSizeOr4_nonzero options : tabSizeOr4 options <> 0.
Proof.
  unfold tabSizeOr4. destruct (tabSize options) as [n|]; [| lia].
  destruct (n =? 0) eqn:E; lia.
Qed.

(** X14: [computeIndentLevel] measures the formatter's own indentation
    back: on a text that starts with [n] copies of the indent value of the
    options (the tab, or [tabSize] spaces), followed by something that is
    neither a space nor a tab, it returns [n], for a positive tab size. *)
Theorem computeIndentLevel_of_indentation
    (documentText : JSString) (range : option Range)
    (options : FormattingOptions) (n : Z) (rest : JSString) :
  0 <= n ->
  0 < tabSizeOr4 options ->
  (forall c, head rest = Some c -> c <> " "%char /\ c <> TAB) ->
  computeIndentLevel
    (JS.repeat (indentValue (formatEnv documentText range options)) n ++ rest)
    options = n.
Proof.
  intros Hn Hts Hrest. unfold computeIndentLevel.
  assert (indentValue (formatEnv documentText range options)
          = match insertSpaces options with
            | Some true => JS.repeat [" "%char] (tabSizeOr4 options)
            | _ => [TAB]
            end) as -> by (destruct range; reflexivity).
  destruct (insertSpaces options) as [[|]|].
  - rewrite repeat_char. unfold JS.repeat, JSString.
    rewrite concat_replicate_replicate, leadingColumns_spaces,
      leadingColumns_stop by exact Hrest.
    replace (0 + Z.of_nat (Z.to_nat n * Z.to_nat (tabSizeOr4 options)))
      with (n * tabSizeOr4 options) by lia.
    apply Z.div_mul. lia.
  - rewrite repeat_char, leadingColumns_tabs, leadingColumns_stop by exact Hrest.
    replace (0 + Z.of_nat (Z.to_nat n) * tabSizeOr4 options)
      with (n * tabSizeOr4 options) by lia.
    apply Z.div_mul. lia.
  - rewrite repeat_char, leadingColumns_tabs, leadingColumns_stop by exact Hrest.
    replace (0 + Z.of_nat (Z.to_nat n) * tabSizeOr4 options)
      with (n * tabSizeOr4 options) by lia.
    apply Z.div_mul. lia.
Qed.

Lemma computeIndentLevel_of_indentation_witness :
  let options := {| tabSize := Some 2; insertSpaces := Some true;
                    eol := Some [LF] |} in
  0 <= 3 /\ 0 < tabSizeOr4 options /\
  computeIndentLevel
    (JS.repeat (indentValue (formatEnv (json "{'a': 1}") None options)) 3
     ++ json "'a': 1")
    options = 3.
Proof.
  cbv zeta. split; [lia |]. split; [reflexivity |].
  apply (computeIndentLevel_of_indentation (json "{'a': 1}") None
           {| tabSize := Some 2; insertSpaces := Some true; eol := Some [LF] |}
           3 (json "'a': 1")).
  - lia.
  - reflexivity.
  - intros c [= <-]. split; discriminate.
Defined.

Lemma formatJSON_returns_witness :
  0 <= 2 /\
  is_Some (formatJSON (json "{  'a':1, 'b': {{v}} }")
             (Some {| r_offset := 2; r_length := 7 |})
             {| tabSize := Some 4; insertSpaces := Some true;
                eol := Some [LF] |}).
Proof.
  split; [lia |].
  apply (formatJSON_returns (json "{  'a':1, 'b': {{v}} }")
           (Some {| r_offset := 2; r_length := 7 |})).
  cbn. lia.
Defined.

(* ===================================================================== *)
(** * Properties: the order of the edits *)
(* ===================================================================== *)

Lemma orderedWithin_snoc es :
  forall lo hi s t text,
    orderedWithin lo es hi -> hi <= s -> s <= t ->
    orderedWithin lo (es ++ [Edit.mk s (t - s) text]) t.
Proof.
  induction es as [|e es IH]; intros lo hi s t text H Hs Ht; cbn [app orderedWithin] in *.
  - unfold editEnd. cbn. lia.
  - destruct H as [H1 [H2 H3]]. repeat split; try assumption.
    eapply IH; eassumption.
Qed.

Lemma len_substring (s : JSString) (a b : Z) :
  len (substring s a b) = Z.abs (clamp (len s) b - clamp (len s) a).
Proof.
  unfold substring, len, clamp.
  rewrite length_take, length_drop. lia.
Qed.

Lemma scan_tokenOffset sc :
  Scanner.tokenOffset (Scanner.scan sc)
  = Z.min (Scanner.pos sc) (len (Scanner.text sc)).
Proof.
  destruct (Z.lt_ge_cases (Scanner.pos sc) (len (Scanner.text sc))) as [H | H].
  - pose proof (scan_advances sc H) as [_ [-> _]]. lia.
  - unfold Scanner.scan.
    replace (Scanner.pos sc >=? len (Scanner.text sc)) with true by (symmetry; lia).
    cbn. lia.
Qed.

Lemma scanned_tokenOffset sc :
  scanned sc ->
  Scanner.tokenOffset sc <= len (Scanner.text sc) /\
  Scanner.tokenOffset sc <= Scanner.pos sc.
Proof.
  intros [sc0 ->]. rewrite scan_tokenOffset, scan_text.
  pose proof (scan_monotone sc0). lia.
Qed.

Lemma skipTrivia_tokenOffset fuel :
  forall sc lb m,
    m <= Scanner.tokenOffset sc -> m <= Scanner.pos sc ->
    m <= len (Scanner.text sc) ->
    m <= Scanner.tokenOffset (skipTrivia fuel sc lb).1.
Proof.
  induction fuel as [|fuel IH]; intros sc lb m Ho Hp Hl; cbn [skipTrivia];
    [exact Ho |].
  destruct (isTrivia (Scanner.token sc)); [| exact Ho].
  pose proof (scan_monotone sc).
  apply IH; rewrite ?scan_tokenOffset, ?scan_text; lia.
Qed.

Lemma scanNext_tokenOffset st m :
  m <= Scanner.pos (f_scanner st) ->
  m <= len (Scanner.text (f_scanner st)) ->
  m <= Scanner.tokenOffset (f_scanner (scanNext st).1).
Proof.
  intros Hp Hl. unfold scanNext.
  pose proof (skipTrivia_tokenOffset
                (Scanner.fuelFrom (Scanner.text (Scanner.scan (f_scanner st)))
                   (Scanner.pos (Scanner.scan (f_scanner st))))
                (Scanner.scan (f_scanner st)) false m) as H.
  destruct (skipTrivia _ _ _) as [sc lb]. cbn [fst f_scanner] in *.
  pose proof (scan_monotone (f_scanner st)).
  apply H; rewrite ?scan_tokenOffset, ?scan_text; lia.
Qed.

Lemma matchPositions_within text startPosition fuel :
  forall position stack matched minmax,
    0 <= position ->
    (forall mn mx, minmax = Some (mn, mx) -> mx < startPosition + len text) ->
    forall mn mx,
      (matchPositions text startPosition fuel position stack matched minmax).2
        = Some (mn, mx) ->
      mx < startPosition + len text.
Proof.
  induction fuel as [|fuel IH]; intros position stack matched minmax Hpos Hmm;
    cbn [matchPositions]; [exact Hmm |].
  destruct (position <? len text); [| exact Hmm].
  destruct (isChar "{" (charAt text position)).
  - apply IH; [lia | exact Hmm].
  - destruct (_ && _) eqn:Hc.
    + apply andb_prop in Hc as [Hc _]. apply andb_prop in Hc as [_ Hc].
      destruct (popMatching stack) as [stack' [found|]].
      * apply IH; [lia |].
        intros mn mx. destruct minmax as [[mn0 mx0]|]; intros [= <- <-].
        -- specialize (Hmm mn0 mx0 eq_refl). lia.
        -- lia.
      * apply IH; [lia | exact Hmm].
    + apply IH; [lia | exact Hmm].
Qed.

Lemma getPostmanVariablePosition_within env sc :
  match (getPostmanVariablePosition env sc).2 with
  | Some (s, e) => e < len (formatText env)
  | None => True
  end.
Proof.
  unfold getPostmanVariablePosition.
  set (sp := Scanner.getTokenOffset sc + formatTextStart env - 1).
  set (tfcp := substringFrom (formatText env) sp).
  set (text := substring tfcp 0 (delimitedLength tfcp 0)).
  destruct (len text =? 0) eqn:Hlen; [exact I |].
  apply Z.eqb_neq in Hlen.
  pose proof (matchPositions_within text sp (List.length text) 0 [] [] None
                ltac:(lia) ltac:(discriminate)) as Hmax.
  destruct (matchPositions text sp (List.length text) 0 [] [] None)
    as [[|m ms] [[mn mx]|]]; try exact I.
  cbn [snd] in Hmax. specialize (Hmax mn mx eq_refl).
  destruct (negb _); [exact I |]. cbn [snd].
  assert (len text <= len tfcp) as H1.
  { subst text. rewrite len_substring. unfold clamp. unfold len. lia. }
  assert (len tfcp = Z.abs (len (formatText env)
                            - clamp (len (formatText env)) sp)) as H2.
  { subst tfcp. unfold substringFrom. rewrite len_substring.
    unfold clamp, len. lia. }
  unfold clamp in H2. unfold len in *. lia.
Qed.

Lemma addEdit_fields env text startOffset endOffset st :
  editOperations (addEdit env text startOffset endOffset st)
    = editOperations st \/
  (startOffset < rangeEnd env /\
   editOperations (addEdit env text startOffset endOffset st)
     = editOperations st ++ [Edit.mk startOffset (endOffset - startOffset) text]).
Proof.
  unfold addEdit.
  destruct (negb (hasError st) && (startOffset <? rangeEnd env)
            && (endOffset >? rangeStart env)
            && negb (JS.eqb (substring (documentText env) startOffset endOffset)
                       text)) eqn:Hguard; [| left; reflexivity].
  apply andb_prop in Hguard as [Hguard _].
  apply andb_prop in Hguard as [Hguard _].
  apply andb_prop in Hguard as [_ Hstart].
  right. split; [lia | reflexivity].
Qed.

Section OrderedEdits.

Variable env : FormatEnv.
Hypothesis formatTextStart_nonneg : 0 <= formatTextStart env.
Hypothesis rangeEnd_within :
  rangeEnd env <= formatTextStart env + len (formatText env).

(** After the edit from [firstTokenEnd] to the token of the scanner. *)
Lemma addEdit_editsBefore text st firstTokenEnd :
  editsBefore env st firstTokenEnd ->
  let st' :=
    addEdit env text firstTokenEnd
      (Scanner.getTokenOffset (f_scanner st) + formatTextStart env) st in
  f_scanner st' = f_scanner st /\
  exists bound,
    orderedWithin (formatTextStart env) (editOperations st') bound /\
    bound <= Scanner.pos (f_scanner st) + formatTextStart env /\
    bound <= formatTextStart env + len (formatText env).
Proof.
  intros [Hsc [Htext [Hpos [Hoff [bound [Hord [Hb Hlen]]]]]]]. cbn zeta.
  destruct (addEdit_scanner env text firstTokenEnd
              (Scanner.getTokenOffset (f_scanner st) + formatTextStart env) st)
    as [Hscanner _].
  split; [exact Hscanner |].
  pose proof (scanned_tokenOffset _ Hsc) as [Ho1 Ho2]. rewrite Htext in Ho1.
  destruct (addEdit_fields env text firstTokenEnd
              (Scanner.getTokenOffset (f_scanner st) + formatTextStart env) st)
    as [-> | [Hlt ->]].
  - exists bound. repeat split; [exact Hord | lia | exact Hlen].
  - specialize (Hoff Hlt). unfold Scanner.getTokenOffset in *.
    exists (Scanner.tokenOffset (f_scanner st) + formatTextStart env).
    repeat split; [| lia | lia].
    eapply orderedWithin_snoc; [exact Hord | lia | lia].
Qed.

(** After [scanNext], with the next edit to start at the end of the token
    that the scanner stood at. *)
Lemma scanNext_editsBefore st :
  scanned (f_scanner st) ->
  Scanner.text (f_scanner st) = formatText env ->
  (exists bound,
     orderedWithin (formatTextStart env) (editOperations st) bound /\
     bound <= Scanner.pos (f_scanner st) + formatTextStart env /\
     bound <= formatTextStart env + len (formatText env)) ->
  editsBefore env (scanNext st).1
    (Scanner.pos (f_scanner st) + formatTextStart env).
Proof.
  intros Hsc Htext [bound [Hord [Hb Hlen]]].
  pose proof (scanNext_spec st) as H. cbn zeta in H.
  destruct H as [_ [Hsc' [Htext' [Hpos' _]]]].
  pose proof (scanNext_tokenOffset st (Scanner.pos (f_scanner st))) as Hoff.
  unfold editsBefore. rewrite scanNext_edits.
  repeat split.
  - exact Hsc'.
  - congruence.
  - lia.
  - intros Hlt. rewrite Htext in Hoff.
    specialize (Hoff ltac:(lia) ltac:(lia)). lia.
  - exists bound. repeat split; [exact Hord | lia | exact Hlen].
Qed.


Lemma with_scanner_same st : with_scanner st (f_scanner st) = st.
Proof. destruct st; reflexivity. Qed.

Lemma searchPostmanVariable_editsBefore st firstToken firstTokenEnd secondToken :
  secondToken = Scanner.token (f_scanner st) ->
  editsBefore env st firstTokenEnd ->
  let r := searchPostmanVariable env st firstToken firstTokenEnd secondToken in
  editsBefore env r.1.1.1 r.1.2.
Proof.
  intros Htok HK. unfold searchPostmanVariable.
  destruct (negb (lineBreak st)
            && bool_decide (firstToken = SyntaxKind.OpenBraceToken)
            && bool_decide (firstToken = secondToken)) eqn:Hcond;
    [| exact HK].
  apply andb_prop in Hcond as [Hcond H2]. apply andb_prop in Hcond as [_ H1].
  apply bool_decide_eq_true in H1, H2. subst firstToken.
  pose proof (getPostmanVariablePosition_spec env (f_scanner st)) as Hpv.
  pose proof (getPostmanVariablePosition_within env (f_scanner st)) as Hin.
  destruct (getPostmanVariablePosition env (f_scanner st)) as [sc [[s e]|]];
    cbn [fst snd] in Hpv, Hin.
  - destruct Hpv as [He ->].
    destruct HK as [[sc0 Hsc] [Htext [Hpos [Hoff [bound [Hord [Hb Hlen]]]]]]].
    assert (Scanner.pos (f_scanner st) = Scanner.tokenOffset (f_scanner st) + 1)
      as Hbrace.
    { rewrite Hsc. apply scan_open_brace. rewrite <- Hsc, <- Htok. symmetry.
      exact H2. }
    set (st1 := with_scanner st (Scanner.scan (Scanner.setPosition (f_scanner st) e))).
    pose proof (scanNext_spec st1) as Hnext. cbn zeta in Hnext.
    destruct Hnext as [_ [Hsc' [Htext' [Hpos' _]]]].
    pose proof (scanNext_tokenOffset st1 (e + 1)) as Hoff'.
    pose proof (scanNext_edits st1) as Hedits.
    destruct (scanNext st1) as [st' tok']. cbn [fst snd] in *.
    subst st1. cbn [with_scanner f_scanner editOperations] in *.
    rewrite scan_text in *.
    cbn [Scanner.setPosition Scanner.text Scanner.pos] in *.
    pose proof (scan_advances (Scanner.setPosition (f_scanner st) e)) as Hadv.
    cbn [Scanner.setPosition Scanner.text Scanner.pos] in Hadv.
    rewrite Htext in *. specialize (Hadv Hin) as [Hadv _].
    unfold Scanner.getTokenOffset in He.
    repeat split.
    + exact Hsc'.
    + exact Htext'.
    + lia.
    + intros _. specialize (Hoff' ltac:(lia) ltac:(lia)). lia.
    + exists bound. rewrite Hedits. repeat split; [exact Hord | lia | exact Hlen].
  - subst sc. cbn [fst snd]. rewrite with_scanner_same. exact HK.
Qed.

Lemma sameLineComments_editsBefore fuel :
  forall st firstTokenEnd replaceContent secondToken,
    editsBefore env st firstTokenEnd ->
    let r := sameLineComments fuel env st firstTokenEnd replaceContent
               secondToken in
    editsBefore env r.1.1.1 r.1.1.2.
Proof.
  induction fuel as [|fuel IH]; intros st fte rc tok HK; cbn [sameLineComments];
    [exact HK |].
  destruct (negb (lineBreak st) && isComment tok); [| exact HK].
  pose proof (addEdit_editsBefore [" "%char] st fte HK) as H1. cbn zeta in H1.
  destruct H1 as [Hscanner Hbound].
  destruct HK as [Hsc [Htext _]].
  set (st1 := addEdit env [" "%char] fte
                (Scanner.getTokenOffset (f_scanner st) + formatTextStart env) st)
    in *.
  pose proof (scanNext_editsBefore st1) as H2. rewrite Hscanner in H2.
  specialize (H2 Hsc Htext Hbound).
  unfold Scanner.getTokenLength, Scanner.getTokenOffset. rewrite Hscanner.
  replace (Scanner.tokenOffset (f_scanner st)
           + (Scanner.pos (f_scanner st) - Scanner.tokenOffset (f_scanner st))
           + formatTextStart env)
    with (Scanner.pos (f_scanner st) + formatTextStart env) by lia.
  destruct (scanNext st1) as [st2 tok2]. cbn [fst] in H2.
  apply IH. exact H2.
Qed.

Lemma chooseReplaceContent_edits st firstToken secondToken replaceContent :
  editOperations (chooseReplaceContent env st firstToken secondToken
                    replaceContent).1 = editOperations st.
Proof.
  unfold chooseReplaceContent.
  repeat match goal with
         | |- context [if ?b then _ else _] => destruct b
         end; try reflexivity.
  apply switchFirstToken_edits.
Qed.

Lemma format_step_ordered st firstToken :
  scanned (f_scanner st) ->
  Scanner.text (f_scanner st) = formatText env ->
  (exists bound,
     orderedWithin (formatTextStart env) (editOperations st) bound /\
     bound <= Scanner.pos (f_scanner st) + formatTextStart env /\
     bound <= formatTextStart env + len (formatText env)) ->
  let st' := (format_step env st firstToken).1 in
  scanned (f_scanner st') /\
  Scanner.text (f_scanner st') = formatText env /\
  exists bound,
    orderedWithin (formatTextStart env) (editOperations st') bound /\
    bound <= Scanner.pos (f_scanner st') + formatTextStart env /\
    bound <= formatTextStart env + len (formatText env).
Proof.
  intros Hsc Htext Hbound. unfold format_step.
  pose proof (scanNext_editsBefore st Hsc Htext Hbound) as H1.
  pose proof (scanNext_spec st) as Hn. cbn zeta in Hn. destruct Hn as [Htok1 _].
  unfold Scanner.getTokenLength, Scanner.getTokenOffset.
  replace (Scanner.tokenOffset (f_scanner st)
           + (Scanner.pos (f_scanner st) - Scanner.tokenOffset (f_scanner st))
           + formatTextStart env)
    with (Scanner.pos (f_scanner st) + formatTextStart env) by lia.
  destruct (scanNext st) as [st1 secondToken]. cbn [fst snd] in *.
  pose proof (searchPostmanVariable_editsBefore st1 firstToken
                (Scanner.pos (f_scanner st) + formatTextStart env)
                secondToken Htok1 H1) as H2. cbn zeta in H2.
  destruct (searchPostmanVariable _ _ _ _ _) as [[[st2 ft2] fte2] tok2].
  cbn [fst snd] in *.
  pose proof (sameLineComments_editsBefore
                (S (List.length (Scanner.text (f_scanner st2))))
                st2 fte2 [] tok2 H2) as H3. cbn zeta in H3.
  destruct (sameLineComments _ _ _ _ _ _) as [[[st3 fte3] rc3] tok3].
  cbn [fst snd] in *.
  pose proof (chooseReplaceContent_scanner env st3 ft2 tok3 rc3) as H4.
  pose proof (chooseReplaceContent_edits st3 ft2 tok3 rc3) as H5.
  destruct (chooseReplaceContent _ _ _ _ _) as [st4 rc4].
  cbn [fst snd] in *.
  assert (editsBefore env st4 fte3) as H6.
  { unfold editsBefore in *. rewrite H4, H5. exact H3. }
  pose proof (addEdit_editsBefore rc4 st4 fte3 H6) as H7. cbn zeta in H7.
  unfold Scanner.getTokenOffset in *.
  destruct H7 as [Hscanner Hb]. rewrite Hscanner.
  destruct H6 as [Hsc6 [Htext6 _]].
  repeat split; assumption.
Qed.

Lemma format_loop_ordered fuel :
  forall st firstToken edits,
    scanned (f_scanner st) ->
    Scanner.text (f_scanner st) = formatText env ->
    (exists bound,
       orderedWithin (formatTextStart env) (editOperations st) bound /\
       bound <= Scanner.pos (f_scanner st) + formatTextStart env /\
       bound <= formatTextStart env + len (formatText env)) ->
    format_loop fuel env st firstToken = Some edits ->
    exists bound,
      orderedWithin (formatTextStart env) edits bound /\
      bound <= formatTextStart env + len (formatText env).
Proof.
  induction fuel as [|fuel IH]; intros st tok edits Hsc Htext Hb;
    cbn [format_loop].
  - destruct (bool_decide _); [| discriminate].
    intros [= <-]. destruct Hb as [b [H1 [_ H2]]]. exists b. auto.
  - destruct (bool_decide _);
      [intros [= <-]; destruct Hb as [b [H1 [_ H2]]]; exists b; auto |].
    pose proof (format_step_ordered st tok Hsc Htext Hb) as Hstep.
    cbn zeta in Hstep. destruct Hstep as [Hsc' [Htext' Hb']].
    destruct (format_step env st tok) as [st' tok']. cbn [fst] in *.
    apply IH; assumption.
Qed.

End OrderedEdits.

Lemma orderedWithin_weaken es :
  forall lo hi hi', orderedWithin lo es hi -> hi <= hi' -> orderedWithin lo es hi'.
Proof.
  induction es as [|e es IH]; intros lo hi hi' H Hle; cbn [orderedWithin] in *.
  - lia.
  - destruct H as [H1 [H2 H3]]. repeat split; try assumption.
    eapply IH; eassumption.
Qed.

Lemma lineStart_le documentText fuel :
  forall x, lineStart documentText fuel x <= x.
Proof.
  induction fuel as [|fuel IH]; intros x; cbn [lineStart]; [lia |].
  destruct (_ && _); [| lia]. specialize (IH (x - 1)). lia.
Qed.

Lemma lineEnd_range documentText fuel :
  forall x, x <= lineEnd documentText fuel x /\
            (x <= len documentText -> lineEnd documentText fuel x <= len documentText).
Proof.
  induction fuel as [|fuel IH]; intros x; cbn [lineEnd]; [lia |].
  destruct (x <? len documentText) eqn:E; cbn [andb]; [| lia].
  destruct (negb _); [| lia]. specialize (IH (x + 1)). lia.
Qed.

(** X16: the edits of [formatJSON] are in the order of the document and do
    not overlap: for no range, or a range that starts at a non-negative
    offset and ends inside the document, each edit has a non-negative
    length and starts where the one before it ends or later, and all of
    them lie in the lines that are formatted (from [formatTextStart] to
    the end of [formatText]). *)
Theorem formatJSON_edits_ordered (documentText : JSString)
    (range : option Range) (options : FormattingOptions) (edits : list Edit.t) :
  match range with
  | Some r => 0 <= r_offset r /\ r_offset r + r_length r <= len documentText
  | None => True
  end ->
  formatJSON documentText range options = Some edits ->
  let env := formatEnv documentText range options in
  orderedWithin (formatTextStart env) edits
    (formatTextStart env + len (formatText env)).
Proof.
  intros Hrange. cbn zeta. unfold formatJSON.
  set (env := formatEnv documentText range options).
  assert (0 <= formatTextStart env) as Hfts.
  { subst env. unfold formatEnv. destruct range as [r|]; cbn [formatTextStart].
    - apply lineStart_nonneg. tauto.
    - lia. }
  assert (rangeEnd env <= formatTextStart env + len (formatText env)) as Hend.
  { subst env. unfold formatEnv. destruct range as [r|];
      cbn [formatTextStart rangeEnd formatText]; [| lia].
    destruct Hrange as [H0 H1].
    pose proof (lineStart_nonneg documentText (Z.to_nat (r_offset r))
                  (r_offset r) H0) as Hs0.
    pose proof (lineEnd_range documentText
                  (Z.to_nat (len documentText - (r_offset r + r_length r)))
                  (r_offset r + r_length r)) as [He1 He2].
    specialize (He2 H1).
    rewrite len_substring. unfold clamp. lia. }
  set (st0 := {| f_scanner := _; lineBreak := false; indentLevel := 0;
                 hasError := false; editOperations := [] |}).
  assert (editsBefore env (scanNext st0).1 (formatTextStart env)) as H1.
  { pose proof (scanNext_spec st0) as H. cbn zeta in H.
    destruct H as [_ [Hsc [Htext [Hpos _]]]].
    pose proof (scanNext_tokenOffset st0 0 ltac:(cbn; lia)
                  ltac:(cbn; unfold len; lia)) as Hoff.
    unfold editsBefore. rewrite scanNext_edits.
    cbn [st0 f_scanner Scanner.createScanner Scanner.text Scanner.pos
         editOperations] in *.
    repeat split; [exact Hsc | exact Htext | lia | lia |].
    exists (formatTextStart env). cbn [orderedWithin]. unfold len. lia. }
  pose proof (scanNext_spec st0) as Hn. cbn zeta in Hn.
  destruct (scanNext st0) as [st1 firstToken]. cbn [fst snd] in *.
  intros Hrun.
  pose proof (addEdit_editsBefore env
                (JS.repeat (indentValue env) (initialIndentLevel env))
                st1 (formatTextStart env) H1) as H2. cbn zeta in H2.
  unfold Scanner.getTokenOffset in *.
  destruct H2 as [Hscanner Hb].
  destruct H1 as [Hsc1 [Htext1 [Hpos1 [_ Hb1]]]].
  eapply (format_loop_ordered env Hfts Hend) in Hrun.
  - destruct Hrun as [bound [Hord Hle]]. eapply orderedWithin_weaken; eassumption.
  - destruct (negb _); [rewrite Hscanner |]; exact Hsc1.
  - destruct (negb _); [rewrite Hscanner |]; exact Htext1.
  - destruct (negb _); [rewrite Hscanner; exact Hb |].
    destruct Hb1 as [b [Hb1 [Hb2 Hb3]]]. exists b.
    repeat split; [exact Hb1 | lia | exact Hb3].
Qed.

Lemma formatJSON_edits_ordered_witness :
  let documentText := json "{'a':[1,  {{v}}],'b':2}" in
  let options := {| tabSize := Some 2; insertSpaces := Some true;
                    eol := Some [LF] |} in
  exists edits,
    formatJSON documentText None options = Some edits /\
    List.length edits = 8%nat /\
    orderedWithin 0 edits (len documentText).
Proof.
  cbv zeta. eexists. split; [vm_compute; reflexivity |].
  split; [reflexivity |].
  apply (formatJSON_edits_ordered (json "{'a':[1,  {{v}}],'b':2}") None
           {| tabSize := Some 2; insertSpaces := Some true; eol := Some [LF] |});
    [exact I | vm_compute; reflexivity].
Defined.

(* ===================================================================== *)
(** * Properties: path normalization *)
(* ===================================================================== *)

Lemma normalizeParts_invariant parts :
  forall newParts,
    Forall keptPart newParts ->
    Forall keptPart (normalizeParts parts newParts).
Proof.
  induction parts as [|part parts IH]; intros newParts H; cbn [normalizeParts];
    [exact H |].
  destruct (ignoredPart part) eqn:E1; [apply IH; exact H |].
  destruct (parentPart part) eqn:E2.
  - apply IH. destruct newParts as [|x l] using rev_ind; [constructor |].
    rewrite removelast_last. apply Forall_app in H as [H _]. exact H.
  - apply IH. apply Forall_app. split; [exact H |].
    repeat constructor; assumption.
Qed.

Lemma normalizeParts_sublist parts :
  forall newParts,
    exists kept, normalizeParts parts newParts = kept /\
      kept `sublist_of` (newParts ++ parts).
Proof.
  induction parts as [|part parts IH]; intros newParts; cbn [normalizeParts].
  - exists newParts. split; [reflexivity |]. rewrite app_nil_r. reflexivity.
  - destruct (ignoredPart part).
    + destruct (IH newParts) as [kept [-> Hs]]. eexists. split; [reflexivity |].
      etrans; [exact Hs |]. apply sublist_app; [reflexivity |].
      apply sublist_cons. reflexivity.
    + destruct (parentPart part).
      * destruct (IH (removelast newParts)) as [kept [-> Hs]].
        eexists. split; [reflexivity |]. etrans; [exact Hs |].
        apply sublist_app; [| apply sublist_cons; reflexivity].
        destruct newParts as [|x l] using rev_ind; [reflexivity |].
        rewrite removelast_last. apply sublist_inserts_r. reflexivity.
      * destruct (IH (newParts ++ [part])) as [kept [-> Hs]].
        eexists. split; [reflexivity |]. rewrite <- app_assoc in Hs. exact Hs.
Qed.

Lemma normalizeParts_kept parts :
  forall newParts,
    Forall keptPart parts -> normalizeParts parts newParts = newParts ++ parts.
Proof.
  induction parts as [|part parts IH]; intros newParts H; cbn [normalizeParts].
  - rewrite app_nil_r. reflexivity.
  - apply Forall_cons in H as [[H1 H2] H]. rewrite H1, H2, IH by exact H.
    rewrite <- app_assoc. reflexivity.
Qed.

Lemma normalizeParts_app parts1 parts2 :
  forall newParts,
    normalizeParts (parts1 ++ parts2) newParts
    = normalizeParts parts2 (normalizeParts parts1 newParts).
Proof.
  induction parts1 as [|part parts1 IH]; intros newParts; cbn [app normalizeParts];
    [reflexivity |].
  destruct (ignoredPart part); [apply IH |].
  destruct (parentPart part); apply IH.
Qed.

Lemma keptPart_nonempty part : keptPart part -> (len part =? 0) = false.
Proof.
  intros [H _]. unfold ignoredPart in H. apply orb_false_iff in H as [H _].
  exact H.
Qed.

(** X17: the segments of the result of [normalizePath] are segments of
    the path, in their order, and none of them is empty, [.] or [..]; an
    empty segment is added at the end when the path has more than one
    part and ends in an empty one, and a slash is put in front when the
    first part is empty. *)
Theorem normalizePath_segments (first : JSString) (parts : list JSString) :
  exists kept,
    Forall keptPart kept /\
    kept `sublist_of` (first :: parts) /\
    normalizePath (first :: parts)
    = Some ((if len first =? 0 then [Slash] else []) ++
            join [Slash]
              (kept ++
               if (Z.of_nat (length (first :: parts)) >? 1)
                  && (len (List.last (first :: parts) []) =? 0)
               then [[]] else [])).
Proof.
  exists (normalizeParts (first :: parts) []).
  split; [apply normalizeParts_invariant; constructor |].
  split.
  - destruct (normalizeParts_sublist (first :: parts) []) as [kept [<- Hs]].
    exact Hs.
  - unfold normalizePath.
    destruct (_ && _); destruct (len first =? 0); cbn [app];
      rewrite ?app_nil_r; reflexivity.
Qed.

(** X18: a path whose segments are all kept (none empty, [.] or [..]) is
    its own normal form: [normalizePath] joins them with slashes. *)
Theorem normalizePath_kept_parts (first : JSString) (parts : list JSString) :
  Forall keptPart (first :: parts) ->
  normalizePath (first :: parts) = Some (join [Slash] (first :: parts)).
Proof.
  intros H. unfold normalizePath.
  rewrite normalizeParts_kept by exact H. cbn [app].
  pose proof H as H'. apply Forall_cons in H' as [Hfirst _].
  rewrite (keptPart_nonempty _ Hfirst).
  assert ((len (List.last (first :: parts) []) =? 0) = false) as ->.
  { apply keptPart_nonempty.
    destruct parts as [|p parts] using rev_ind; [exact Hfirst |].
    rewrite app_comm_cons, last_last.
    apply Forall_cons in H as [_ H]. apply Forall_app in H as [_ H].
    apply Forall_cons in H as [H _]. exact H. }
  rewrite andb_false_r. reflexivity.
Qed.

Lemma normalizePath_kept_parts_witness :
  Forall keptPart [lit "schemas"; lit "v1"; lit "a.json"] /\
  normalizePath [lit "schemas"; lit "v1"; lit "a.json"]
  = Some (lit "schemas/v1/a.json").
Proof.
  assert (Forall keptPart [lit "schemas"; lit "v1"; lit "a.json"]) as H
    by (repeat constructor).
  split; [exact H |].
  apply (normalizePath_kept_parts (lit "schemas") [lit "v1"; lit "a.json"] H).
Defined.

(** X19: in the middle of a path, a kept segment followed by [..]
    cancels: [normalizePath] gives the same result with and without the
    two. *)
Theorem normalizePath_parent_cancels
    (first : JSString) (before : list JSString) (part : JSString)
    (after : list JSString) (final : JSString) :
  keptPart part ->
  normalizePath (first :: before ++ part :: lit ".." :: after ++ [final])
  = normalizePath (first :: before ++ after ++ [final]).
Proof.
  intros [H1 H2]. unfold normalizePath.
  assert (forall l, normalizeParts (first :: before ++ part :: lit ".." :: l) []
                    = normalizeParts (first :: before ++ l) []) as Hn.
  { intros l. rewrite !app_comm_cons, !normalizeParts_app.
    cbn [normalizeParts]. rewrite H1, H2.
    change (ignoredPart (lit "..")) with false.
    change (parentPart (lit "..")) with true. cbn iota.
    rewrite removelast_last. reflexivity. }
  rewrite Hn.
  assert (forall l, length (first :: l ++ [final]) = S (S (length l))) as Hlen.
  { intros l. cbn [length]. rewrite length_app. cbn. lia. }
  assert (length (first :: before ++ part :: lit ".." :: after ++ [final])
          = S (S (length (before ++ part :: lit ".." :: after)))) as ->.
  { rewrite <- Hlen. do 2 f_equal. rewrite <- !app_assoc. reflexivity. }
  assert (length (first :: before ++ after ++ [final])
          = S (S (length (before ++ after)))) as ->.
  { rewrite <- Hlen. do 2 f_equal. rewrite <- !app_assoc. reflexivity. }
  assert (forall n, (Z.of_nat (S (S n)) >? 1) = true) as Hgt
    by (intros; apply Z.gtb_lt; lia).
  rewrite !Hgt.
  assert (forall l, List.last (first :: l ++ [final]) [] = final) as Hlast.
  { intros l. rewrite app_comm_cons. apply last_last. }
  replace (first :: before ++ part :: lit ".." :: after ++ [final])
    with (first :: (before ++ part :: lit ".." :: after) ++ [final])
    by (rewrite <- !app_assoc; reflexivity).
  replace (first :: before ++ after ++ [final])
    with (first :: (before ++ after) ++ [final])
    by (rewrite <- !app_assoc; reflexivity).
  rewrite !Hlast. reflexivity.
Qed.

Lemma normalizePath_parent_cancels_witness :
  keptPart (lit "v1") /\
  normalizePath [[]; lit "schemas"; lit "v1"; lit ".."; lit "v2"; lit "a.json"]
  = normalizePath [[]; lit "schemas"; lit "v2"; lit "a.json"].
Proof.
  assert (keptPart (lit "v1")) as H by (split; reflexivity).
  split; [exact H |].
  apply (normalizePath_parent_cancels [] [lit "schemas"] (lit "v1")
           [lit "v2"] (lit "a.json") H).
Defined.

Lemma startsWith_app (needle rest : JSString) : startsWith (needle ++ rest) needle = true.
Proof.
  induction needle as [|c needle IH]; [reflexivity |].
  cbn [app startsWith]. rewrite Ascii.eqb_refl, IH. reflexivity.
Qed.

Lemma startsWith_true (needle : JSString) :
  forall s, startsWith s needle = true -> s = needle ++ drop (length needle) s.
Proof.
  induction needle as [|c needle IH]; intros s H; [reflexivity |].
  destruct s as [|d s]; [discriminate |]. cbn [startsWith] in H.
  apply andb_prop in H as [H1 H2]. apply Ascii.eqb_eq in H1. subst d.
  cbn [app length drop]. f_equal. apply IH. exact H2.
Qed.

(** [indexOf]: the first position at which the needle starts, if any. *)
Lemma indexOf_from_spec (needle : JSString) :
  forall s i,
    (indexOf_from s needle i = -1 /\
     forall j, (j <= length s)%nat -> startsWith (drop j s) needle = false) \/
    (exists k : nat,
       indexOf_from s needle i = i + Z.of_nat k /\ (k <= length s)%nat /\
       startsWith (drop k s) needle = true /\
       forall j, (j < k)%nat -> startsWith (drop j s) needle = false).
Proof.
  induction s as [|c s IH]; intros i; cbn [indexOf_from].
  - destruct (startsWith [] needle) eqn:E.
    + right. exists 0%nat. cbn [drop]. repeat split; [lia | lia | exact E | lia].
    + left. split; [reflexivity |]. intros j Hj. cbn in Hj.
      replace j with 0%nat by lia. exact E.
  - destruct (startsWith (c :: s) needle) eqn:E.
    + right. exists 0%nat. cbn [drop]. repeat split; [lia | lia | exact E | lia].
    + destruct (IH (i + 1)) as [[H1 H2] | [k [H1 [H2 [H3 H4]]]]].
      * left. split; [exact H1 |]. intros [|j] Hj; [exact E |].
        cbn [drop]. apply H2. cbn in Hj. lia.
      * right. exists (S k). cbn [drop length].
        repeat split; [lia | lia | exact H3 |].
        intros [|j] Hj; [exact E |]. cbn [drop]. apply H4. lia.
Qed.

Lemma substring_0 (s : JSString) (i : Z) :
  0 <= i -> substring s 0 i = take (Z.to_nat i) s.
Proof.
  intros Hi. unfold substring, clamp, len.
  replace (Z.to_nat (Z.min (Z.max 0 (Z.min 0 (Z.of_nat (length s))))
                       (Z.max 0 (Z.min i (Z.of_nat (length s))))))
    with 0%nat by lia.
  rewrite drop_0.
  destruct (Z.le_gt_cases i (Z.of_nat (length s))) as [H | H].
  - f_equal. lia.
  - rewrite !take_ge by lia. reflexivity.
Qed.

Lemma substringFrom_drop (s : JSString) (a : Z) :
  0 <= a -> substringFrom s a = drop (Z.to_nat a) s.
Proof.
  intros Ha. unfold substringFrom, substring, clamp, len.
  destruct (Z.le_gt_cases a (Z.of_nat (length s))) as [H | H].
  - replace (Z.to_nat (Z.min (Z.max 0 (Z.min a (Z.of_nat (length s))))
                         (Z.max 0 (Z.min (Z.of_nat (length s))
                                     (Z.of_nat (length s))))))
      with (Z.to_nat a) by lia.
    apply take_ge. rewrite length_drop. lia.
  - rewrite (drop_ge s (Z.to_nat a)) by lia.
    apply length_zero_iff_nil. rewrite length_take, length_drop. lia.
Qed.

Lemma join_cons (sep p : JSString) (parts : list JSString) :
  parts <> [] -> join sep (p :: parts) = p ++ sep ++ join sep parts.
Proof. destruct parts; [congruence | reflexivity]. Qed.

Lemma splitBy_nonempty fuel sep s : splitBy fuel sep s <> [].
Proof. destruct fuel; cbn [splitBy]; [| destruct (_ <? 0)]; discriminate. Qed.

(** Joining the pieces of a text with the separator gives the text back. *)
Lemma join_splitBy (sep : JSString) fuel :
  forall s, join sep (splitBy fuel sep s) = s.
Proof.
  induction fuel as [|fuel IH]; intros s; cbn [splitBy]; [reflexivity |].
  destruct (indexOf s sep <? 0) eqn:E; [reflexivity |].
  rewrite join_cons by apply splitBy_nonempty. rewrite IH.
  unfold indexOf in *.
  destruct (indexOf_from_spec sep s 0) as [[H _] | [k [H [Hk [Hs _]]]]];
    [rewrite H in E; discriminate |].
  rewrite H. rewrite substring_0, substringFrom_drop by (unfold len; lia).
  replace (Z.to_nat (0 + Z.of_nat k)) with k by lia.
  replace (Z.to_nat (0 + Z.of_nat k + len sep)) with (k + length sep)%nat
    by (unfold len; lia).
  apply startsWith_true in Hs.
  rewrite <- drop_drop, <- Hs. apply take_drop.
Qed.

Lemma indexOf_noSlash (p rest : JSString) :
  noSlash p ->
  indexOf_from (p ++ Slash :: rest) [Slash] 0 = len p.
Proof.
  intros Hp. unfold len.
  assert (forall i, indexOf_from (p ++ Slash :: rest) [Slash] i
                    = i + Z.of_nat (length p)) as H.
  { induction Hp as [|c p Hc Hp IH]; intros i; cbn [app indexOf_from startsWith].
    - rewrite Ascii.eqb_refl. cbn. lia.
    - replace (Ascii.eqb Slash c) with false
        by (symmetry; apply Ascii.eqb_neq; congruence).
      cbn [andb]. rewrite IH. cbn [length]. lia. }
  rewrite H. lia.
Qed.

Lemma indexOf_noSlash_none (p : JSString) :
  noSlash p -> forall i, indexOf_from p [Slash] i = -1.
Proof.
  induction 1 as [|c p Hc Hp IH]; intros i; cbn [indexOf_from startsWith];
    [reflexivity |].
  replace (Ascii.eqb Slash c) with false
    by (symmetry; apply Ascii.eqb_neq; congruence).
  cbn [andb]. apply IH.
Qed.

(** Splitting a path made of segments without a slash gives the segments
    back. *)
Lemma splitBy_join (parts : list JSString) :
  forall p fuel,
    Forall noSlash (p :: parts) -> (length parts <= fuel)%nat ->
    splitBy fuel [Slash] (join [Slash] (p :: parts)) = p :: parts.
Proof.
  induction parts as [|q parts IH]; intros p fuel H Hfuel.
  - apply Forall_cons in H as [Hp _]. cbn [join].
    destruct fuel; cbn [splitBy]; [reflexivity |].
    unfold indexOf. rewrite indexOf_noSlash_none by exact Hp. reflexivity.
  - apply Forall_cons in H as [Hp H].
    destruct fuel as [|fuel]; [cbn in Hfuel; lia |].
    rewrite join_cons by discriminate. cbn [splitBy app].
    unfold indexOf. rewrite indexOf_noSlash by exact Hp.
    replace (len p <? 0) with false
      by (symmetry; apply Z.ltb_ge; unfold len; lia).
    rewrite substring_0, substringFrom_drop by (unfold len; lia).
    unfold len. cbn [length].
    replace (Z.to_nat (Z.of_nat (length p))) with (length p) by lia.
    replace (Z.to_nat (Z.of_nat (length p) + Z.of_nat 1))
      with (length p + 1)%nat by lia.
    rewrite take_app_length. rewrite <- drop_drop, drop_app_length.
    cbn [drop]. f_equal. apply IH; [exact H | cbn in Hfuel; lia].
Qed.

Lemma join_length (parts : list JSString) :
  (length parts <= S (length (join [Slash] parts)))%nat.
Proof.
  induction parts as [|p parts IH]; [cbn; lia |].
  destruct parts as [|q parts]; [cbn; lia |].
  rewrite join_cons by discriminate. rewrite !length_app. cbn [length] in *. lia.
Qed.

Lemma split_join (p : JSString) (parts : list JSString) :
  Forall noSlash (p :: parts) ->
  split [Slash] (join [Slash] (p :: parts)) = p :: parts.
Proof.
  intros H. unfold split. apply splitBy_join; [exact H |].
  pose proof (join_length (p :: parts)). cbn [length] in *. lia.
Qed.

Lemma sublist_Forall {A : Type} (P : A -> Prop) (l1 l2 : list A) :
  l1 `sublist_of` l2 -> Forall P l2 -> Forall P l1.
Proof.
  intros Hs H. apply Forall_forall. intros x Hx.
  rewrite Forall_forall in H. apply H.
  eapply elem_of_sublist; eassumption.
Qed.

Lemma last_nonempty {A : Type} (l : list A) (d d' : A) :
  l <> [] -> List.last l d = List.last l d'.
Proof.
  destruct l as [|x l]; [congruence |]. intros _. rewrite !last_cons. reflexivity.
Qed.

Lemma normalizePath_absolute (l : list JSString) :
  l <> [] ->
  normalizePath ([] :: l)
  = Some (Slash :: join [Slash]
                     (normalizeParts l [] ++
                      if len (List.last l []) =? 0 then [[]] else [])).
Proof.
  intros Hl. unfold normalizePath.
  change (normalizeParts ([] :: l) []) with (normalizeParts l []).
  change (len [] =? 0) with true. cbn iota.
  match goal with
  | |- context [?x >? 1] =>
      assert ((x >? 1) = true) as ->
        by (apply Z.gtb_lt; destruct l; [congruence | cbn [length]; lia])
  end.
  cbn [andb]. rewrite last_cons.
  destruct (len (List.last l []) =? 0); [reflexivity |].
  rewrite app_nil_r. reflexivity.
Qed.

(** The normal form of a path that starts with an empty part is a fixed
    point: split at its slashes and normalized again, it comes back as it
    is. *)
Lemma normalizePath_absolute_idempotent (parts : list JSString) (r : JSString) :
  Forall noSlash parts ->
  normalizePath ([] :: parts) = Some r ->
  normalizePath (split [Slash] r) = Some r.
Proof.
  intros Hparts.
  destruct parts as [|p parts]; [intros [= <-]; reflexivity |].
  rewrite normalizePath_absolute by discriminate.
  set (l := p :: parts) in *. intros Hr. apply (inj Some) in Hr. subst r.
  set (kept := normalizeParts l []).
  pose proof (normalizeParts_invariant l [] ltac:(constructor)) as Hkept.
  destruct (normalizeParts_sublist l []) as [kept' [Hk Hs]].
  cbn [app] in Hs. subst kept'. fold kept in Hkept, Hs.
  pose proof (sublist_Forall _ _ _ Hs Hparts) as Hslash.
  match goal with |- context [kept ++ ?t] => set (tail := t) in * end.
  assert (tail = [] \/ tail = [[]]) as Htail
    by (subst tail; destruct (_ =? 0); auto).
  destruct (kept ++ tail) as [|x rest] eqn:Hne; [reflexivity |].
  assert (split [Slash] (Slash :: join [Slash] (x :: rest)) = [] :: x :: rest)
    as ->.
  { change (Slash :: join [Slash] (x :: rest))
      with ([] ++ [Slash] ++ join [Slash] (x :: rest)).
    rewrite <- (join_cons [Slash] [] (x :: rest)) by discriminate.
    apply split_join.
    constructor; [constructor |]. rewrite <- Hne. apply Forall_app.
    split; [exact Hslash |]. destruct Htail as [-> | ->]; repeat constructor. }
  rewrite normalizePath_absolute by discriminate.
  rewrite <- Hne, normalizeParts_app, (normalizeParts_kept kept []) by exact Hkept.
  cbn [app]. do 3 f_equal.
  destruct Htail as [Ht | Ht]; rewrite Ht.
  - cbn [normalizeParts]. rewrite !app_nil_r.
    destruct (exists_last (l := kept)) as [kept' [y Hy]].
    { intros E. rewrite E, Ht in Hne. discriminate. }
    rewrite Hy in *. rewrite last_last.
    apply Forall_app in Hkept as [_ Hk]. apply Forall_cons in Hk as [Hk _].
    rewrite (keptPart_nonempty _ Hk), ?app_nil_r. reflexivity.
  - change (normalizeParts [[]] kept) with kept.
    rewrite last_last. reflexivity.
Qed.

Lemma startsWith_slash (s : JSString) :
  startsWith s [Slash] = true <-> head s = Some Slash.
Proof.
  destruct s as [|c s]; cbn [startsWith head]; [split; discriminate |].
  rewrite andb_true_r. split.
  - intros H. apply Ascii.eqb_eq in H. congruence.
  - intros [= ->]. apply Ascii.eqb_refl.
Qed.

Lemma noSlash_take (s : JSString) (k : nat) :
  (forall j, (j < k)%nat -> startsWith (drop j s) [Slash] = false) ->
  noSlash (take k s).
Proof.
  intros H. apply Forall_forall. intros c Hc.
  apply list_elem_of_lookup in Hc as [j Hj].
  apply lookup_take_Some in Hj as [Hj Hlt].
  intros ->. specialize (H j Hlt).
  assert (startsWith (drop j s) [Slash] = true) as Ht.
  { apply startsWith_slash.
    pose proof (lookup_drop s j 0) as Hd. rewrite Nat.add_0_r, Hj in Hd.
    destruct (drop j s); [discriminate | exact Hd]. }
  congruence.
Qed.

Lemma noSlash_all (s : JSString) :
  (forall j, (j <= length s)%nat -> startsWith (drop j s) [Slash] = false) ->
  noSlash s.
Proof.
  intros H. rewrite <- (take_ge s (length s)) by lia.
  apply noSlash_take. intros j Hj. apply H. lia.
Qed.

(** The pieces of [path.split('/')] have no slash. *)
Lemma splitBy_noSlash fuel :
  forall s, (length s <= fuel)%nat -> Forall noSlash (splitBy fuel [Slash] s).
Proof.
  induction fuel as [|fuel IH]; intros s Hfuel; cbn [splitBy].
  - destruct s; [| cbn in Hfuel; lia]. repeat constructor.
  - unfold indexOf.
    destruct (indexOf_from_spec [Slash] s 0) as [[H1 H2] | [k [H1 [Hk [H3 H4]]]]];
      rewrite H1.
    + cbn. repeat constructor. apply noSlash_all. exact H2.
    + replace (0 + Z.of_nat k <? 0) with false
        by (symmetry; apply Z.ltb_ge; lia).
      rewrite substring_0, substringFrom_drop by (unfold len; cbn [length]; lia).
      constructor.
      * replace (Z.to_nat (0 + Z.of_nat k)) with k by lia.
        apply noSlash_take. exact H4.
      * apply IH. rewrite length_drop. unfold len. cbn [length].
        assert (k < length s)%nat.
        { destruct (decide (k = length s)) as [-> |]; [| lia].
          rewrite drop_all in H3. discriminate. }
        lia.
Qed.

Lemma split_absolute (path : JSString) :
  isAbsolutePath path = true ->
  exists parts, split [Slash] path = [] :: parts /\ Forall noSlash parts.
Proof.
  unfold isAbsolutePath. intros H. apply bool_decide_eq_true in H.
  destruct path as [|c path]; [discriminate |]. cbn in H. injection H as ->.
  pose proof (splitBy_noSlash (length (Slash :: path)) (Slash :: path)
                ltac:(lia)) as Hall.
  unfold split. cbn [length splitBy] in *.
  change (indexOf (Slash :: path) [Slash]) with 0 in *. cbn [Z.ltb Z.compare] in *.
  change (substring (Slash :: path) 0 0) with ([] : JSString) in *.
  apply Forall_cons in Hall as [_ Hall].
  eexists. split; [reflexivity | exact Hall].
Qed.

(** X20: for an absolute path, [path.split('/')] followed by
    [normalizePath] (what [resolvePath] does with it) gives an absolute
    path that is a fixed point: split and normalized again, it comes back
    as it is. *)
Theorem normalizePath_of_absolute_path_is_fixed (path r : JSString) :
  isAbsolutePath path = true ->
  normalizePath (split [Slash] path) = Some r ->
  normalizePath (split [Slash] r) = Some r /\ isAbsolutePath r = true.
Proof.
  intros Habs. destruct (split_absolute path Habs) as [parts [-> Hparts]].
  intros Hr. split.
  - eapply normalizePath_absolute_idempotent; eassumption.
  - unfold normalizePath in Hr. cbn [len length Z.of_nat Z.eqb] in Hr.
    injection Hr as <-. reflexivity.
Qed.

Lemma normalizePath_of_absolute_path_is_fixed_witness :
  isAbsolutePath (lit "/schemas/./v1/../v2//a.json/") = true /\
  normalizePath (split [Slash] (lit "/schemas/./v1/../v2//a.json/"))
  = Some (lit "/schemas/v2/a.json/") /\
  normalizePath (split [Slash] (lit "/schemas/v2/a.json/"))
  = Some (lit "/schemas/v2/a.json/") /\
  isAbsolutePath (lit "/schemas/v2/a.json/") = true.
Proof.
  split; [reflexivity |]. split; [vm_compute; reflexivity |].
  apply (normalizePath_of_absolute_path_is_fixed
           (lit "/schemas/./v1/../v2//a.json/") (lit "/schemas/v2/a.json/"));
    [reflexivity | vm_compute; reflexivity].
Defined.

(* ===================================================================== *)
(** * Properties: the document given to validation *)
(* ===================================================================== *)

Lemma charAt_Some (s : JSString) (i : Z) (c : ascii) :
  charAt s i = [c] <-> 0 <= i /\ s !! Z.to_nat i = Some c.
Proof.
  unfold charAt, charCodeAt. destruct (i <? 0) eqn:E.
  - split; [discriminate | lia].
  - destruct (s !! Z.to_nat i) as [d|].
    + split; [intros [= ->]; split; [lia | reflexivity] | intros [_ [= ->]]; reflexivity].
    + split; [discriminate | intros [_ [=]]].
Qed.

Lemma noDoubleBrace_take_drop (s : JSString) (n m : nat) :
  noDoubleBrace s -> noDoubleBrace (take n (drop m s)).
Proof.
  intros H i [H1 H2]. apply charAt_Some in H1 as [Hi H1], H2 as [_ H2].
  apply lookup_take_Some in H1 as [H1 _], H2 as [H2 _].
  rewrite lookup_drop in H1, H2.
  apply (H (Z.of_nat m + i)). split; apply charAt_Some; split; try lia.
  - replace (Z.to_nat (Z.of_nat m + i)) with (m + Z.to_nat i)%nat by lia. exact H1.
  - replace (Z.to_nat (Z.of_nat m + i + 1)) with (m + Z.to_nat (i + 1))%nat by lia.
    exact H2.
Qed.

Lemma noDoubleBrace_substring (s : JSString) (a b : Z) :
  noDoubleBrace s -> noDoubleBrace (substring s a b).
Proof. apply noDoubleBrace_take_drop. Qed.

Lemma noDoubleBrace_substr (s : JSString) (a b : Z) :
  noDoubleBrace s -> noDoubleBrace (substr s a b).
Proof. apply noDoubleBrace_take_drop. Qed.

Lemma noDoubleBrace_snoc (s : JSString) (c : ascii) :
  c <> "{"%char -> noDoubleBrace s -> noDoubleBrace (s ++ [c]).
Proof.
  intros Hc H i [H1 H2]. apply charAt_Some in H1 as [Hi H1], H2 as [_ H2].
  assert (forall n, (s ++ [c]) !! n = Some "{"%char -> s !! n = Some "{"%char) as Hs.
  { intros n Hn. apply lookup_app_Some in Hn as [Hn | [Hlen Hn]]; [exact Hn |].
    apply list_lookup_singleton_Some in Hn as [_ Hn]. congruence. }
  apply (H i). split; apply charAt_Some; split; try lia; apply Hs; assumption.
Qed.

Lemma noDoubleBrace_cons (s : JSString) (c : ascii) :
  c <> "{"%char -> noDoubleBrace s -> noDoubleBrace (c :: s).
Proof.
  intros Hc H i [H1 H2]. apply charAt_Some in H1 as [Hi H1], H2 as [_ H2].
  destruct (Z.to_nat i) as [|n] eqn:E; [cbn in H1; congruence |].
  replace (Z.to_nat (i + 1)) with (S (S n)) in H2 by lia.
  cbn in H1, H2.
  apply (H (Z.of_nat n)). split; apply charAt_Some; split; try lia.
  - rewrite Nat2Z.id. exact H1.
  - replace (Z.to_nat (Z.of_nat n + 1)) with (S n) by lia. exact H2.
Qed.

Lemma noDoubleBrace_prefixLine err line :
  noDoubleBrace line -> noDoubleBrace (prefixLine err line).1.
Proof.
  intros H. unfold prefixLine. destruct err as [[]|]; cbn [fst]; try exact H.
  - repeat apply noDoubleBrace_cons; try discriminate. exact H.
  - apply noDoubleBrace_cons; [discriminate | exact H].
Qed.

Lemma startsWith_two (s : JSString) (a b : ascii) :
  forall n, s !! n = Some a -> s !! S n = Some b ->
            startsWith (drop n s) [a; b] = true.
Proof.
  induction s as [|c s IH]; intros [|n] H1 H2; try discriminate.
  - destruct s as [|d s]; [discriminate |].
    cbn in H1, H2. injection H1 as ->. injection H2 as ->.
    cbn [drop startsWith]. rewrite !Ascii.eqb_refl. reflexivity.
  - cbn [drop]. apply IH; assumption.
Qed.

Lemma indexOf_noDoubleBrace (s : JSString) :
  indexOf s (lit "{{") = -1 -> noDoubleBrace s.
Proof.
  intros Hidx i [H1 H2]. apply charAt_Some in H1 as [Hi H1], H2 as [_ H2].
  unfold indexOf in Hidx.
  destruct (indexOf_from_spec (lit "{{") s 0) as [[_ H] | [k [H _]]]; [| lia].
  pose proof (lookup_lt_Some _ _ _ H1) as Hlt.
  specialize (H (Z.to_nat i) ltac:(lia)).
  replace (Z.to_nat (i + 1)) with (S (Z.to_nat i)) in H2 by lia.
  change (lit "{{") with ["{"%char; "{"%char] in H.
  rewrite (startsWith_two s _ _ _ H1 H2) in H. discriminate.
Qed.

Lemma splitBy_noDoubleBrace (sep : JSString) fuel :
  forall s, noDoubleBrace s -> Forall noDoubleBrace (splitBy fuel sep s).
Proof.
  induction fuel as [|fuel IH]; intros s H; cbn [splitBy];
    [repeat constructor; exact H |].
  destruct (_ <? 0); [repeat constructor; exact H |].
  constructor; [apply noDoubleBrace_substring; exact H |].
  apply IH. apply noDoubleBrace_substring. exact H.
Qed.

(** Without two [{] in a row the sub-scanner finds no match. *)
Lemma createPostmanVariableScanner_noDoubleBrace s offset inValue inString :
  noDoubleBrace s ->
  createPostmanVariableScanner s offset inValue inString = Some [].
Proof.
  intros H. unfold createPostmanVariableScanner.
  pose proof (matchBrackets_variableBrackets s offset inString
                (length s) 0 [] [] ltac:(lia)
                ltac:(constructor) ltac:(constructor)) as Hm.
  destruct (matchBrackets _ _ _ _ _ _ _) as [|b m]; [reflexivity |].
  apply Forall_cons in Hm as [[_ [_ [_ [_ [H1 [H2 _]]]]]] _].
  exfalso. apply (H (b_start b - offset)). split; assumption.
Qed.

Lemma pushBrackets_Forall (P : IToken -> Prop) inValue inString l :
  forall e acc,
    Forall (fun b => P (token_of_bracket b)) l ->
    (forall s e', P {| startIndex := s; scopes := fillerScope inValue;
                       endIndex := Some e' |}) ->
    Forall P acc ->
    Forall P (pushBrackets inValue inString l e acc).1.
Proof.
  induction l as [|current l IH]; intros e acc Hl Hfill Hacc; cbn [pushBrackets];
    [exact Hacc |].
  apply Forall_cons in Hl as [Hc Hl].
  assert (Forall P (acc ++ [token_of_bracket current])) as Hacc'.
  { apply Forall_app. split; [exact Hacc |]. repeat constructor. exact Hc. }
  destruct (e <? b_start current); destruct l as [|next l'];
    try destruct (b_start next =? b_end current + 1);
    try destruct inString;
    apply IH; try assumption;
    apply Forall_app; (split; [assumption |]); repeat constructor; apply Hfill.
Qed.

Lemma fillerScope_notVariable inValue s e :
  notVariable {| startIndex := s; scopes := fillerScope inValue; endIndex := e |}.
Proof. unfold notVariable. destruct inValue; discriminate. Qed.

Lemma createPostmanVariableScanner_inString_scopes s offset inValue toks :
  createPostmanVariableScanner s offset inValue true = Some toks ->
  Forall notVariable toks.
Proof.
  unfold createPostmanVariableScanner.
  pose proof (matchBrackets_variableBrackets s offset true
                (length s) 0 [] [] ltac:(lia)
                ltac:(constructor) ltac:(constructor)) as Hm.
  destruct (matchBrackets _ _ _ _ _ _ _) as [|b m];
    [intros [= <-]; constructor |].
  assert (Forall (fun b => notVariable (token_of_bracket b))
            (filterNested (sortByStart (b :: m)) (-1))) as Hf.
  { apply filterNested_Forall, sortByStart_Forall.
    eapply Forall_impl; [exact Hm |]. intros x [Hx _].
    unfold notVariable. cbn. rewrite Hx. discriminate. }
  destruct (filterNested (sortByStart (b :: m)) (-1)) as [|first rest] eqn:E;
    [discriminate |].
  destruct (negb (b_start first =? offset)).
  - pose proof (pushBrackets_Forall notVariable inValue true (first :: rest)
                  (b_start first - 1)
                  [{| startIndex := offset; scopes := fillerScope inValue;
                      endIndex := Some (b_start first - 1) |}]
                  Hf (fun s e => fillerScope_notVariable inValue s (Some e))
                  ltac:(repeat constructor; apply fillerScope_notVariable)) as Hp.
    destruct (pushBrackets _ _ _ _ _) as [res1 end1]. cbn [fst] in Hp.
    destruct (_ && _); intros [= <-]; [| exact Hp].
    apply Forall_app. split; [exact Hp |].
    repeat constructor. apply fillerScope_notVariable.
  - pose proof (pushBrackets_Forall notVariable inValue true (first :: rest)
                  (-1) [] Hf
                  (fun s e => fillerScope_notVariable inValue s (Some e))
                  ltac:(constructor)) as Hp.
    destruct (pushBrackets _ _ _ _ _) as [res1 end1]. cbn [fst] in Hp.
    destruct (_ && _); intros [= <-]; [| exact Hp].
    apply Forall_app. split; [exact Hp |].
    repeat constructor. apply fillerScope_notVariable.
Qed.

Lemma switchKind_no_search line languageId h sc ps lwc count offset toks :
  Scanner.token sc <> SyntaxKind.OpenBraceToken ->
  switchKind line languageId h sc ps lwc count offset toks <> inl ReferenceError.
Proof.
  intros Hk. unfold switchKind, caseStringLiteral.
  destruct (Scanner.token sc); try discriminate; try congruence.
  destruct (isPostman languageId); [| discriminate].
  destruct (createPostmanVariableScanner _ _ _ _); discriminate.
Qed.

Section NoVariables.

Variables (comments : bool) (line : JSString) (state : loc).
Variables (offsetDelta : Z) (languageId : option string) (n : Z).
Hypothesis line_noDoubleBrace : noDoubleBrace line.
Hypothesis offsetDelta_nonneg : 0 <= offsetDelta.
Hypothesis n_range : 0 <= n <= 2.

Lemma switchKind_notVariable h sc ps lwc count offset toks sw :
  switchKind line languageId h sc ps lwc count offset toks = inr sw ->
  Forall notVariable toks ->
  Forall notVariable (sw_tokens sw) /\
  Forall notVariable (sw_postmanVariablesInString sw) /\
  sw_type sw <> TOKEN_POSTMAN_VARIABLE.
Proof.
  unfold switchKind, caseOpenBrace, caseStringLiteral, ParentsStackOps.push,
    new_ParentsStack, delimiterIndex.
  intros Hsw Htoks.
  destruct (Scanner.token sc) eqn:Hk; cbv beta iota zeta in Hsw;
    try (injection Hsw as <-; cbn;
         repeat split; [exact Htoks | constructor | discriminate]).
  - (* an open brace *)
    destruct ((count =? 2) && isPostman languageId);
      [| injection Hsw as <-; cbn;
         repeat split; [exact Htoks | constructor | discriminate]].
    destruct (findClosestDelimiter _ _ _) as [e | [h2 index]]; [discriminate |].
    destruct (index >=? 0);
      [| injection Hsw as <-; cbn;
         repeat split; [exact Htoks | constructor | discriminate]].
    rewrite createPostmanVariableScanner_noDoubleBrace in Hsw.
    + injection Hsw as <-. cbn.
      repeat split; [exact Htoks | constructor | discriminate].
    + apply noDoubleBrace_substring. unfold stringFromDoubleBraces.
      apply noDoubleBrace_snoc; [discriminate |].
      apply noDoubleBrace_substr. exact line_noDoubleBrace.
  - (* a string literal *)
    destruct (isPostman languageId).
    + destruct (createPostmanVariableScanner _ _ _ true) as [pv|] eqn:Hpv;
        [| discriminate].
      apply createPostmanVariableScanner_inString_scopes in Hpv.
      injection Hsw as <-. cbn.
      repeat split; [exact Htoks | exact Hpv |].
      destruct (_ || _); discriminate.
    + injection Hsw as <-. cbn.
      repeat split; [exact Htoks | constructor |].
      destruct (_ || _); discriminate.
Qed.

Lemma commentType_notVariable kind ty :
  ty <> TOKEN_POSTMAN_VARIABLE ->
  commentType comments kind ty <> TOKEN_POSTMAN_VARIABLE.
Proof.
  intros H. unfold commentType. destruct comments; [| exact H].
  destruct kind; try exact H; discriminate.
Qed.

Lemma tokenize_loop_notVariable fuel :
  forall h v h' r,
    Forall notVariable (tokens (ret v)) ->
    tokenize_loop fuel comments line state offsetDelta languageId n h v
      = Return h' r ->
    Forall notVariable (tokens r).
Proof.
  induction fuel as [|fuel IH]; intros h v h' r Hv; cbn [tokenize_loop];
    [discriminate |].
  unfold tokenize_step.
  destruct (bool_decide (Scanner.token (Scanner.scan (scanner v)) = SyntaxKind.EOF)).
  - intros [= <- <-]. exact Hv.
  - destruct (_ =? _); [discriminate |].
    destruct (switchKind _ _ _ _ _ _ _ _ _) as [e | sw] eqn:Hsw; [discriminate |].
    apply switchKind_notVariable in Hsw as [H1 [H2 H3]]; [| exact Hv].
    destruct (new_JSONState _ _ _ _ _) as [h2 e2].
    apply IH. cbn [ret tokens].
    apply Forall_app. split; [| exact H2].
    destruct (sw_skip sw); [exact H1 |].
    apply Forall_app. split; [exact H1 |]. repeat constructor.
    unfold notVariable. cbn [scopes]. apply commentType_notVariable. exact H3.
Qed.

(** On a line without two [{] in a row the count of consecutive open
    braces does not reach two by an open brace that follows a first one,
    so the delimiter search is not called and its [ReferenceError] is not
    thrown. *)
Lemma tokenize_step_no_search h v :
  Scanner.text (scanner v) = line ->
  afterOpenBrace line v ->
  match tokenize_step comments line state offsetDelta languageId n h v with
  | Break => True
  | Continue h' v' => afterOpenBrace line v'
  | Threw e => e <> ReferenceError
  end.
Proof.
  intros Htext Hv. unfold tokenize_step.
  destruct (bool_decide (Scanner.token (Scanner.scan (scanner v)) = SyntaxKind.EOF));
    [exact I |].
  destruct (_ =? _); [discriminate |].
  destruct (bool_decide (Scanner.token (Scanner.scan (scanner v))
                         = SyntaxKind.OpenBraceToken)) eqn:Hob.
  - apply bool_decide_eq_true in Hob.
    destruct (scan_open_brace_char _ Hob) as [Hch Hpos].
    rewrite Htext in Hch.
    assert ((openBracesCount v + 1 =? 2) && isPostman languageId = false) as Hc.
    { destruct (openBracesCount v + 1 =? 2) eqn:E; [| reflexivity].
      exfalso. apply Z.eqb_eq in E.
      apply (line_noDoubleBrace (Scanner.pos (scanner v) - 1)).
      split; [apply Hv; lia |].
      replace (Scanner.pos (scanner v) - 1 + 1) with (Scanner.pos (scanner v))
        by lia.
      exact Hch. }
    unfold switchKind. rewrite Hob. unfold caseOpenBrace.
    destruct (ParentsStackOps.push h _ _) as [h1 p1]. rewrite Hc.
    unfold new_JSONState, afterOpenBrace. cbn [openBracesCount scanner sw_scanner].
    intros _. rewrite Hpos.
    replace (Scanner.pos (scanner v) + 1 - 1) with (Scanner.pos (scanner v))
      by lia.
    exact Hch.
  - apply bool_decide_eq_false in Hob.
    destruct (switchKind _ _ _ _ _ _ _ _ _) as [e | sw] eqn:Hsw.
    + intros ->. revert Hsw. apply switchKind_no_search. exact Hob.
    + unfold new_JSONState, afterOpenBrace. cbn [openBracesCount]. discriminate.
Qed.

Lemma tokenize_loop_no_search fuel :
  forall h v h',
    scanning line v ->
    afterOpenBrace line v ->
    tokenize_loop fuel comments line state offsetDelta languageId n h v
      <> Throw h' ReferenceError.
Proof.
  induction fuel as [|fuel IH]; intros h v h' Hv Ha; cbn [tokenize_loop];
    [discriminate |].
  pose proof (tokenize_step_no_search h v (proj1 Hv) Ha) as Hstep.
  pose proof (tokenize_step_progress comments line state offsetDelta languageId
                n offsetDelta_nonneg n_range h v Hv) as Hprog.
  destruct (tokenize_step _ _ _ _ _ _ _ _) as [h1 v1 | | e].
  - apply IH; [apply Hprog | exact Hstep].
  - discriminate.
  - congruence.
Qed.

End NoVariables.

(** A line without two [{] in a row has no token of a variable. *)
Lemma tokenize_notVariable comments line h state offsetDelta languageId h' r :
  noDoubleBrace line ->
  tokenize comments line h state offsetDelta languageId = Return h' r ->
  postmanVariables (tokens r) = [].
Proof.
  intros Hline. unfold tokenize.
  pose proof (noDoubleBrace_prefixLine (scanError (state_at h state)) line Hline)
    as Hline'.
  destruct (prefixLine _ line) as [line' n]. cbn [fst] in Hline'.
  destruct (JSONStateOps.clone h state) as [h1 cloned].
  intros Hrun. eapply tokenize_loop_notVariable in Hrun;
    [| exact Hline' | constructor].
  unfold postmanVariables.
  induction Hrun as [|t ts Ht _ IH]; [reflexivity |].
  cbn [List.filter]. unfold notVariable in Ht.
  apply String.eqb_neq in Ht. rewrite Ht. exact IH.
Qed.

(** A line without two [{] in a row is tokenized in every realm: the
    delimiter search is not reached. *)
Lemma tokenize_noDoubleBrace_returns comments line h state offsetDelta languageId :
  0 <= offsetDelta ->
  noDoubleBrace line ->
  exists h' r, tokenize comments line h state offsetDelta languageId = Return h' r.
Proof.
  intros Hdelta Hline.
  pose proof (tokenize_outcome comments line h state offsetDelta languageId
                Hdelta) as Hout.
  assert (forall h', tokenize comments line h state offsetDelta languageId
                     <> Throw h' ReferenceError) as Hno.
  { intros h'. unfold tokenize.
    pose proof (noDoubleBrace_prefixLine (scanError (state_at h state)) line
                  Hline) as Hline'.
    pose proof (prefixLine_inserted (scanError (state_at h state)) line) as Hn.
    destruct (prefixLine _ line) as [line' n]. cbn [fst snd] in Hline', Hn.
    destruct (JSONStateOps.clone h state) as [h1 cloned].
    apply tokenize_loop_no_search; try assumption.
    - repeat split; cbn; [lia | discriminate].
    - unfold afterOpenBrace. cbn. discriminate. }
  destruct (tokenize _ _ _ _ _ _) as [h' r | h' e | h'];
    [do 2 eexists; reflexivity | | contradiction].
  destruct Hout as [-> _]. exfalso. exact (Hno h' eq_refl).
Qed.

(** The loop over the lines ends: it returns, or a line throws the
    [ReferenceError] of the delimiter search. *)
Lemma modifyLines_outcome lines :
  forall h state,
    match modifyLines lines h state with
    | Return _ _ => True
    | Throw _ e => e = ReferenceError /\ global_length h = None
    | OutOfFuel _ => False
    end.
Proof.
  induction lines as [|line lines IH]; intros h state; cbn [modifyLines];
    [exact I |].
  pose proof (tokenize_outcome true line h state 0 (Some "postman_json"%string)
                ltac:(lia)) as Hout.
  destruct (tokenize _ _ _ _ _ _) as [h1 r | h1 e | h1];
    [| split; apply Hout | exact Hout].
  specialize (IH h1 (endState r)).
  destruct (modifyLines lines h1 (endState r)) as [h2 out | h2 e | h2];
    [exact I | | exact IH].
  destruct IH as [He Hn]. split; [exact He |]. apply Hout. exact Hn.
Qed.

Lemma modifyLines_unchanged lines :
  forall h state,
    Forall noDoubleBrace lines ->
    exists h', modifyLines lines h state = Return h' lines.
Proof.
  induction lines as [|line lines IH]; intros h state Hl; cbn [modifyLines].
  - eexists. reflexivity.
  - apply Forall_cons in Hl as [Hline Hl].
    destruct (tokenize_noDoubleBrace_returns true line h state 0
                (Some "postman_json"%string) ltac:(lia) Hline) as [h1 [r Hr]].
    rewrite Hr. destruct (IH h1 (endState r) Hl) as [h2 ->].
    unfold quoteLine. rewrite (tokenize_notVariable _ _ _ _ _ _ _ _ Hline Hr).
    eexists. reflexivity.
Qed.



(** X22: a document whose text has no [{{] is given to validation as it
    is, in every realm: [_getModifiedTextDocument] returns the document
    that [_getTextDocument] returns (splitting at the end of line,
    tokenizing and joining again changes nothing). *)
Theorem getModifiedTextDocument_without_variables
    (h : Heap) (languageId : string) (models : list MirrorModel)
    (uri : string) (d : TextDocument) :
  _getTextDocument languageId models uri = Some d ->
  indexOf (d_content d) (lit "{{") = -1 ->
  exists h', _getModifiedTextDocument h languageId models uri = Return h' d.
Proof.
  induction models as [|model models IH];
    cbn [_getTextDocument _getModifiedTextDocument]; [discriminate |].
  destruct (String.eqb (m_uri model) uri); [| exact IH].
  intros [= <-]. cbn [d_content]. intros Hidx.
  unfold modifiedContent.
  destruct (_ && _); [| eexists; reflexivity].
  destruct (new_JSONState h None None false None) as [h0 state].
  match goal with
  | |- context [modifyLines (split ?eol ?c) h0 state] =>
      destruct (modifyLines_unchanged (split eol c) h0 state) as [h' ->];
      [apply splitBy_noDoubleBrace, indexOf_noDoubleBrace, Hidx |];
      unfold split; rewrite join_splitBy
  end.
  eexists. reflexivity.
Qed.

Lemma getModifiedTextDocument_without_variables_witness :
  let models := [{| m_uri := "inmemory://model/1"; m_version := 3;
                    m_value := json "{'a': [1, '{x}'],"
                               ++ [CR; LF] ++ json " 'b': {}}" |}] in
  let d := {| d_uri := "inmemory://model/1"; d_languageId := "postman_json";
              d_version := 3;
              d_content := json "{'a': [1, '{x}'],"
                           ++ [CR; LF] ++ json " 'b': {}}" |} in
  _getTextDocument "postman_json" models "inmemory://model/1" = Some d /\
  indexOf (d_content d) (lit "{{") = -1 /\
  exists h',
    _getModifiedTextDocument emptyHeap "postman_json" models
      "inmemory://model/1"
    = Return h' d.
Proof.
  cbv zeta. split; [reflexivity |]. split; [vm_compute; reflexivity |].
  apply getModifiedTextDocument_without_variables;
    [reflexivity | vm_compute; reflexivity].
Defined.

Lemma substring_take_drop (x : JSString) (a b : Z) :
  0 <= a <= b ->
  substring x a b = take (Z.to_nat (b - a)) (drop (Z.to_nat a) x).
Proof.
  intros H. unfold substring, clamp, len.
  destruct (Z.le_gt_cases a (Z.of_nat (length x))) as [Ha | Ha].
  - replace (Z.to_nat (Z.min (Z.max 0 (Z.min a (Z.of_nat (length x))))
                         (Z.max 0 (Z.min b (Z.of_nat (length x))))))
      with (Z.to_nat a) by lia.
    destruct (Z.le_gt_cases b (Z.of_nat (length x))) as [Hb | Hb].
    + f_equal. lia.
    + rewrite !take_ge by (rewrite length_drop; lia). reflexivity.
  - rewrite !(drop_ge x) by lia. rewrite !take_nil. reflexivity.
Qed.

Lemma quoteVariable_in_place (v : IToken) (e offset pos : Z)
    (pre text : JSString) :
  endIndex v = Some e ->
  0 <= pos + offset ->
  len pre = pos + offset ->
  pos <= startIndex v <= e + 1 ->
  quoteVariable v offset (pre ++ text)
  = (pre ++ take (Z.to_nat (startIndex v - pos)) text ++ [DQ]
     ++ take (Z.to_nat (e + 1 - startIndex v))
          (drop (Z.to_nat (startIndex v - pos)) text) ++ [DQ])
    ++ drop (Z.to_nat (e + 1 - pos)) text.
Proof.
  intros He Hoff Hpre Hs. unfold quoteVariable. rewrite He.
  unfold len in Hpre.
  rewrite substring_0, substring_take_drop, substringFrom_drop by lia.
  replace (Z.to_nat (startIndex v + offset))
    with (length pre + Z.to_nat (startIndex v - pos))%nat by lia.
  replace (Z.to_nat (e + offset + 1))
    with (length pre + Z.to_nat (e + 1 - pos))%nat by lia.
  replace (Z.to_nat (e + offset + 1 - (startIndex v + offset)))
    with (Z.to_nat (e + 1 - startIndex v)) by lia.
  rewrite take_app_add, !drop_app_add.
  rewrite <- !app_assoc. reflexivity.
Qed.

Lemma quoteVariables_in_place (variables : list IToken) :
  forall prev offset pos pre text,
    endIndex prev = Some (pos - 1) ->
    0 <= pos + offset ->
    len pre = pos + offset ->
    inOrder pos (pos + len text) variables ->
    quoteVariables variables prev offset (pre ++ text)
    = pre ++ quoted pos text variables.
Proof.
  induction variables as [|v variables IH];
    intros prev offset pos pre text Hprev Hoff Hpre Hord;
    cbn [quoteVariables quoted]; [reflexivity |].
  destruct Hord as [e [He [Hs [Hhi Hord]]]]. rewrite He.
  unfold startsBefore. rewrite Hprev.
  replace (startIndex v <? pos - 1) with false
    by (symmetry; apply Z.ltb_ge; lia).
  rewrite (quoteVariable_in_place v e offset pos pre text He Hoff Hpre Hs).
  unfold len in *.
  rewrite (IH v (offset + 2) (e + 1)).
  - cbn [app]. rewrite <- !app_assoc. cbn [app]. rewrite <- ?app_assoc.
    reflexivity.
  - rewrite He. f_equal. lia.
  - lia.
  - repeat (cbn [length]; rewrite ?length_app, ?length_take, ?length_drop).
    lia.
  - unfold len. rewrite length_drop.
    replace (e + 1 + Z.of_nat (length text - Z.to_nat (e + 1 - pos)))
      with (pos + Z.of_nat (length text)) by lia.
    exact Hord.
Qed.

(** X23: the loop of [_getModifiedTextDocument] over the variables of a
    line, for variables that follow each other without overlap and end
    inside the line: the line is returned with a quote before the start
    and one after the end of each variable, each where it stands (the
    [offset += 2] of the loop makes up for the quotes already put in). *)
Theorem quoteLine_in_place (toks : list IToken) (line : JSString) :
  inOrder 0 (len line) (postmanVariables toks) ->
  quoteLine toks line = quoted 0 line (postmanVariables toks).
Proof.
  unfold quoteLine. destruct (postmanVariables toks) as [|first variables];
    [reflexivity |].
  intros [e [He [Hs [Hhi Hord]]]]. cbn [quoted]. rewrite He.
  pose proof (quoteVariable_in_place first e 0 0 [] line He ltac:(lia)
                ltac:(reflexivity) Hs) as H.
  cbn [app] in H. rewrite H.
  rewrite (quoteVariables_in_place variables first 2 (e + 1)).
  - cbn [app]. rewrite <- !app_assoc. cbn [app]. rewrite <- ?app_assoc.
    reflexivity.
  - rewrite He. f_equal. lia.
  - lia.
  - unfold len in *.
    repeat (cbn [length]; rewrite ?length_app, ?length_take, ?length_drop).
    lia.
  - unfold len in *. rewrite length_drop.
    replace (e + 1 + Z.of_nat (length line - Z.to_nat (e + 1 - 0)))
      with (0 + Z.of_nat (length line)) by lia.
    exact Hord.
Qed.

Lemma quoteLine_in_place_witness :
  exists h r,
    tokenize true (json "{'a': {{v}}, 'b': {{w}}}")
      (JSONStateOps.getInitialState pageHeap).1
      (JSONStateOps.getInitialState pageHeap).2 0
      (Some "postman_json"%string) = Return h r /\
    quoteLine (tokens r) (json "{'a': {{v}}, 'b': {{w}}}")
    = json "{'a': '{{v}}', 'b': '{{w}}'}".
Proof.
  do 2 eexists. split; [vm_compute; reflexivity |].
  rewrite quoteLine_in_place; [vm_compute; reflexivity |].
  vm_compute. repeat (eexists; repeat split; try lia; try discriminate).
Defined.

(* ===================================================================== *)
(** * Properties: instance settings *)
(* ===================================================================== *)

Section InstanceSettings.

Import Defaults.

(** X24: registering a setting for a uri under which the settings object
    has no property of its own (and which is not [__proto__]) and
    disposing of the registration leaves the instance settings as they
    were: the setting is stored under the uri and read back from there,
    what is read under other uris does not change, [dispose] removes the
    property again, and each of the two steps fires one change event. *)
Theorem setInstanceSettings_then_dispose
    (this : LanguageServiceDefaultsImpl) (uri : string)
    (setting : LanguageConfiguration) :
  uri <> "__proto__"%string ->
  ownSetting this uri = None ->
  let '(registered, dispose) := setInstanceSettings this uri setting in
  (is_Some (settings (_instanceSettings this)) ->
   setting_of registered uri = Some (Own setting)) /\
  (forall other, other <> uri -> setting_of registered other = setting_of this other) /\
  _instanceSettings (dispose registered) = _instanceSettings this /\
  fired registered = S (fired this) /\
  fired (dispose registered) = S (S (fired this)).
Proof.
  intros Huri Hnone.
  unfold setInstanceSettings, Defaults.dispose, setting_of, ownSetting, get in *.
  destruct this as [lang diag mode [[s|]] n]; cbn in *.
  - unfold assign. apply String.eqb_neq in Huri. rewrite Huri. cbn.
    repeat split.
    + intros _. rewrite lookup_insert_eq. reflexivity.
    + intros other Hother. rewrite lookup_insert_ne by congruence. reflexivity.
    + unfold remove. cbn. rewrite delete_insert_id by exact Hnone.
      destruct s; reflexivity.
  - repeat split. intros [x [=]].
Qed.

Lemma setInstanceSettings_then_dispose_witness :
  let this :=
    Defaults.new "postman_json" (Some 0%nat) (Some 0%nat)
      {| settings := Some {| own := {["inmemory://model/2"%string := 5%nat]};
                             proto := None |} |} in
  let registered := (setInstanceSettings this "inmemory://model/1" 7%nat).1 in
  let dispose := (setInstanceSettings this "inmemory://model/1" 7%nat).2 in
  ownSetting this "inmemory://model/1" = None /\
  setting_of registered "inmemory://model/1" = Some (Own 7%nat) /\
  setting_of registered "inmemory://model/2" = Some (Own 5%nat) /\
  _instanceSettings (dispose registered) = _instanceSettings this /\
  fired this = 2%nat /\ fired (dispose registered) = 4%nat.
Proof.
  cbv zeta.
  pose proof (setInstanceSettings_then_dispose
                (Defaults.new "postman_json" (Some 0%nat) (Some 0%nat)
                   {| settings :=
                        Some {| own := {["inmemory://model/2"%string := 5%nat]};
                                proto := None |} |})
                "inmemory://model/1" 7%nat
                ltac:(discriminate) ltac:(vm_compute; reflexivity)) as H.
  destruct (setInstanceSettings _ _ _) as [registered dispose].
  destruct H as [H1 [H2 [H3 [H4 H5]]]]. cbn [fst snd].
  split; [vm_compute; reflexivity |].
  split; [apply H1; eexists; reflexivity |].
  split; [rewrite H2 by discriminate; vm_compute; reflexivity |].
  split; [exact H3 |].
  split; [reflexivity | exact H5].
Defined.

(** X25: [dispose] is not an undo: for a uri other than [__proto__],
    disposing of a registration removes the property of its uri even when
    a later registration has replaced it, so the later setting, which was
    read under the uri before, is gone and the earlier one does not come
    back; what is read under other uris is as it was at the start. *)
Theorem dispose_removes_later_setting
    (this : LanguageServiceDefaultsImpl) (uri : string)
    (first second : LanguageConfiguration) :
  uri <> "__proto__"%string ->
  let '(registered1, dispose1) := setInstanceSettings this uri first in
  let '(registered2, dispose2) := setInstanceSettings registered1 uri second in
  (is_Some (settings (_instanceSettings this)) ->
   setting_of registered2 uri = Some (Own second)) /\
  ownSetting (dispose1 registered2) uri = None /\
  (forall setting, setting_of (dispose1 registered2) uri <> Some (Own setting)) /\
  forall other, other <> uri ->
    setting_of (dispose1 registered2) other = setting_of this other.
Proof.
  intros Huri. apply String.eqb_neq in Huri.
  unfold setInstanceSettings, Defaults.dispose, setting_of, ownSetting, get.
  destruct this as [lang diag mode [[s|]] n]; cbn.
  - unfold remove, assign. rewrite !Huri. cbn. rewrite ?Huri.
    rewrite !lookup_delete_eq.
    repeat split.
    + intros _. rewrite lookup_insert_eq. reflexivity.
    + intros setting. discriminate.
    + intros other Hother.
      rewrite lookup_delete_ne, !lookup_insert_ne by congruence. reflexivity.
  - repeat split; try discriminate. intros [x [=]].
Qed.

Lemma dispose_removes_later_setting_witness :
  let this :=
    Defaults.new "postman_json" (Some 0%nat) (Some 0%nat)
      {| settings := Some {| own := {["inmemory://model/2"%string := 5%nat]};
                             proto := None |} |} in
  let registered1 := (setInstanceSettings this "inmemory://model/1" 7%nat).1 in
  let dispose1 := (setInstanceSettings this "inmemory://model/1" 7%nat).2 in
  let registered2 :=
    (setInstanceSettings registered1 "inmemory://model/1" 8%nat).1 in
  "inmemory://model/1"%string <> "__proto__"%string /\
  setting_of registered2 "inmemory://model/1" = Some (Own 8%nat) /\
  ownSetting (dispose1 registered2) "inmemory://model/1" = None /\
  setting_of (dispose1 registered2) "inmemory://model/2" = Some (Own 5%nat).
Proof.
  cbv zeta.
  pose proof (dispose_removes_later_setting
                (Defaults.new "postman_json" (Some 0%nat) (Some 0%nat)
                   {| settings :=
                        Some {| own := {["inmemory://model/2"%string := 5%nat]};
                                proto := None |} |})
                "inmemory://model/1" 7%nat 8%nat ltac:(discriminate)) as H.
  destruct (setInstanceSettings _ "inmemory://model/1" 7%nat)
    as [registered1 dispose1].
  cbn [fst snd].
  destruct (setInstanceSettings registered1 "inmemory://model/1" 8%nat)
    as [registered2 dispose2].
  destruct H as [H1 [H2 [H3 H4]]]. cbn [fst snd].
  split; [discriminate |].
  split; [apply H1; eexists; reflexivity |].
  split; [exact H2 |].
  rewrite H4 by discriminate. vm_compute. reflexivity.
Defined.

(** X29: for the key [__proto__], on a settings object that has no
    property of its own under that name, [setInstanceSettings] stores no
    property: the assignment replaces the prototype of the settings
    object.  [dispose] then deletes nothing, the prototype stays, and the
    setting is still what is read under [__proto__] after [dispose]; the
    own properties are as they were. *)
Theorem dispose_keeps_prototype
    (this : LanguageServiceDefaultsImpl) (s : Settings)
    (setting : LanguageConfiguration) :
  settings (_instanceSettings this) = Some s ->
  own s !! "__proto__"%string = None ->
  let '(registered, dispose) := setInstanceSettings this "__proto__" setting in
  setting_of registered "__proto__" = Some (Prototype (Some setting)) /\
  setting_of (dispose registered) "__proto__" = Some (Prototype (Some setting)) /\
  _instanceSettings (dispose registered)
    = {| settings := Some {| own := own s; proto := Some setting |} |} /\
  forall uri, ownSetting (dispose registered) uri = ownSetting this uri.
Proof.
  intros Hs Hnone.
  unfold setInstanceSettings, Defaults.dispose, setting_of, ownSetting, get.
  destruct this as [lang diag mode [[s0|]] n]; cbn in *; [| discriminate].
  injection Hs as ->.
  unfold remove, assign. cbn.
  rewrite (bool_decide_eq_true_2 _ Hnone). cbn.
  rewrite (delete_id _ _ Hnone), Hnone.
  repeat split.
Qed.

Lemma dispose_keeps_prototype_witness :
  let s := {| own := {["inmemory://model/2"%string := 5%nat]}; proto := None |} in
  let this :=
    Defaults.new "postman_json" (Some 0%nat) (Some 0%nat)
      {| settings := Some s |} in
  let registered := (setInstanceSettings this "__proto__" 7%nat).1 in
  let dispose := (setInstanceSettings this "__proto__" 7%nat).2 in
  settings (_instanceSettings this) = Some s /\
  own s !! "__proto__"%string = None /\
  setting_of this "__proto__" = Some (Prototype None) /\
  setting_of (dispose registered) "__proto__" = Some (Prototype (Some 7%nat)) /\
  ownSetting (dispose registered) "inmemory://model/2" = Some 5%nat.
Proof.
  cbv zeta.
  assert (own {| own := {["inmemory://model/2"%string := 5%nat]};
                 proto := None |} !! "__proto__"%string = None) as Hnone
    by (vm_compute; reflexivity).
  pose proof (dispose_keeps_prototype
                (Defaults.new "postman_json" (Some 0%nat) (Some 0%nat)
                   {| settings :=
                        Some {| own := {["inmemory://model/2"%string := 5%nat]};
                                proto := None |} |})
                _ 7%nat eq_refl Hnone) as H.
  destruct (setInstanceSettings _ _ _) as [registered dispose].
  destruct H as [H1 [H2 [H3 H4]]]. cbn [fst snd].
  split; [reflexivity |].
  split; [vm_compute; reflexivity |].
  split; [vm_compute; reflexivity |].
  split; [exact H2 |].
  rewrite H4. vm_compute. reflexivity.
Defined.

End InstanceSettings.
